(** * wimlib: a shallow embedding of the archive engine core

    The development follows the C sources:
    - [decompress_common.c]: [make_huffman_decode_table];
    - [compress_common.c]: [build_tree], [gen_codewords];
    - [lzms-common.c]: the x86 filter;
    - [dentry.c]: reading, writing and looking up directory entries;
    - [xml_windows.c]: the search for the Windows system root.

    Part I holds the embedding (one module per source file), Part II the
    properties proved about it.

    Conventions.  C integers are [Z] with the wrap-around written out
    ([wrap16], [wrap32], [wrap32s], [wrap64]); byte buffers are
    [list byte]; arrays are lists read with [!!!] and written with
    [<[ i := x ]>]; a pointer into a buffer is the index it points at. *)

From Stdlib Require Import ZArith Lia.
From Stdlib.Strings Require Import Byte.
From stdpp Require Import base numbers list option strings.

#[local] Open Scope Z_scope.
Set Warnings "-register-all".

(** * Part I: the embedding *)

(** ** Machine integers and little-endian fields *)

Module Bytes.

#[global] Instance byte_inhabited : Inhabited byte := populate x00.

#[global] Instance byte_eq_dec : EqDecision byte.
Proof. intros a b. unfold Decision. apply Byte.byte_eq_dec. Defined.

Definition wrap16 (z : Z) : Z := z mod 2 ^ 16.
Definition wrap32 (z : Z) : Z := z mod 2 ^ 32.
Definition wrap64 (z : Z) : Z := z mod 2 ^ 64.

(** Two's complement value of the low 32 bits of [z] (the type [s32]). *)
Definition wrap32s (z : Z) : Z := (z + 2 ^ 31) mod 2 ^ 32 - 2 ^ 31.

Definition u8_to_Z (b : byte) : Z := Z.of_N (Byte.to_N b).

Definition u8_of_Z (z : Z) : byte :=
  default x00 (Byte.of_N (Z.to_N (z mod 256))).

(** [le16_to_cpu], [le32_to_cpu], [le64_to_cpu] on the bytes of a field. *)
Fixpoint le_decode (bs : list byte) : Z :=
  match bs with
  | [] => 0
  | b :: rest => u8_to_Z b + 256 * le_decode rest
  end.

(** [cpu_to_le16], [cpu_to_le32], [cpu_to_le64]: the [n] low bytes of [z]. *)
Fixpoint le_encode (n : nat) (z : Z) : list byte :=
  match n with
  | O => []
  | S n' => u8_of_Z z :: le_encode n' (z / 256)
  end.

(** The [n] bytes of [buf] that start at index [off]. *)
Definition field (buf : list byte) (off : Z) (n : nat) : list byte :=
  take n (drop (Z.to_nat off) buf).

Definition get_le (buf : list byte) (off : Z) (n : nat) : Z :=
  le_decode (map (fun k => buf !!! (Z.to_nat off + k)%nat) (seq 0 n)).

Definition put_le (buf : list byte) (off : Z) (n : nat) (z : Z) : list byte :=
  list_inserts (Z.to_nat off) (le_encode n z) buf.

(** [(x + 7) & ~7] on an unsigned 64-bit value. *)
Definition align8 (x : Z) : Z := Z.land (wrap64 (x + 7)) (Z.lnot 7).

End Bytes.
(** ** lzms-common.c: the x86 filter *)

Module LzmsCommon.
Import Bytes.

Section Filter.

(** [LZMS_X86_MAX_GOOD_TARGET_OFFSET] and [LZMS_X86_MAX_TRANSLATION_OFFSET]
    are macros of [wimlib/lzms.h], which is not part of the sources at hand;
    the filter is embedded for any value of the two constants. *)
Variable LZMS_X86_MAX_GOOD_TARGET_OFFSET : Z.
Variable LZMS_X86_MAX_TRANSLATION_OFFSET : Z.

(** [lzms_may_x86_translate(p, &max_offset)] on [p[0]], [p[1]], [p[2]]:
    the number of opcode bytes and the value stored in [*max_offset_ret]. *)
Definition lzms_may_x86_translate (p0 p1 p2 : Z) : Z * Z :=
  let max_offset := wrap32s LZMS_X86_MAX_TRANSLATION_OFFSET in
  if p0 =? 0x48 then
    if p1 =? 0x8b then
      if (p2 =? 0x5) || (p2 =? 0xd) then (3, max_offset) else (1, 0)
    else if p1 =? 0x8d then
      if Z.land p2 0x7 =? 0x5 then (3, max_offset) else (1, 0)
    else (1, 0)
  else if p0 =? 0x4c then
    if p1 =? 0x8d then
      if Z.land p2 0x7 =? 0x5 then (3, max_offset) else (1, 0)
    else (1, 0)
  else if p0 =? 0xe8 then
    (1, wrap32s (LZMS_X86_MAX_TRANSLATION_OFFSET `quot` 2))
  else if p0 =? 0xe9 then (5, 0)
  else if p0 =? 0xf0 then
    if (p1 =? 0x83) && (p2 =? 0x05) then (3, max_offset) else (1, 0)
  else if p0 =? 0xff then
    if p1 =? 0x15 then (2, max_offset) else (1, 0)
  else (1, 0).

(** The loop state of [lzms_x86_filter]: the buffer, [closest_target_usage]
    and the 65536 entries of [last_target_usages]. *)
Record filter_state := {
  fs_data : list byte;
  fs_closest_target_usage : Z;
  fs_last_target_usages : list Z
}.

(** [lzms_maybe_do_x86_translation]: returns the new state and the next
    value of [i]. *)
Definition lzms_maybe_do_x86_translation (st : filter_state) (i num_op_bytes : Z)
    (max_trans_offset : Z) (undo : bool) : filter_state * Z :=
  let data := fs_data st in
  let closest := fs_closest_target_usage st in
  let translate := wrap32s (i - closest) <=? max_trans_offset in
  let '(data', pos) :=
    if undo then
      let data' :=
        if translate then
          let n := get_le data (i + num_op_bytes) 4 in
          put_le data (i + num_op_bytes) 4 (wrap32 (n - i))
        else data in
      (data', wrap16 (i + get_le data' (i + num_op_bytes) 2))
    else
      let pos := wrap16 (i + get_le data (i + num_op_bytes) 2) in
      let data' :=
        if translate then
          let n := get_le data (i + num_op_bytes) 4 in
          put_le data (i + num_op_bytes) 4 (wrap32 (n + i))
        else data in
      (data', pos) in
  let i' := wrap32s (i + num_op_bytes + 4 - 1) in
  let last := fs_last_target_usages st in
  let closest' :=
    if wrap32s (i' - last !!! Z.to_nat pos) <=? LZMS_X86_MAX_GOOD_TARGET_OFFSET
    then i' else closest in
  ({| fs_data := data';
      fs_closest_target_usage := closest';
      fs_last_target_usages := <[Z.to_nat pos := i']> last |},
   wrap32s (i' + 1)).

(** One iteration of the [for] loop of [lzms_x86_filter]. *)
Definition filter_step (st : filter_state) (i : Z) (undo : bool)
    : filter_state * Z :=
  let data := fs_data st in
  let p k := u8_to_Z (data !!! Z.to_nat (i + k)) in
  let '(n, max_trans_offset) := lzms_may_x86_translate (p 0) (p 1) (p 2) in
  if max_trans_offset =? 0 then (st, wrap32s (i + n))
  else lzms_maybe_do_x86_translation st i n max_trans_offset undo.

(** The loop [for (i = 0; i < size - 11; )]; [None] when the fuel runs out
    before the loop condition fails. *)
Fixpoint filter_loop (fuel : nat) (st : filter_state) (size i : Z)
    (undo : bool) : option filter_state :=
  if negb (i <? wrap32s (size - 11)) then Some st
  else
    match fuel with
    | O => None
    | S fuel' =>
        let '(st', i') := filter_step st i undo in
        filter_loop fuel' st' size i' undo
    end.

(** [lzms_x86_filter(data, size, last_target_usages, undo)].  The incoming
    contents of [last_target_usages] are overwritten by the first loop, so
    the array is not an argument here.  Every iteration advances [i], so
    [size] iterations are enough fuel. *)
Definition lzms_x86_filter (data : list byte) (size : Z) (undo : bool)
    : option (list byte) :=
  let st := {| fs_data := data;
               fs_closest_target_usage :=
                 wrap32s (- LZMS_X86_MAX_TRANSLATION_OFFSET - 1);
               fs_last_target_usages :=
                 replicate (Z.to_nat 65536)
                   (wrap32s (- LZMS_X86_MAX_GOOD_TARGET_OFFSET - 1)) |} in
  fs_data <$> filter_loop (Z.to_nat size) st size 0 undo.

End Filter.

End LzmsCommon.
(** ** lzms-common.c: the slot tables and the queues of recent offsets *)

Module LzmsTables.
Import Bytes.

(** [lzms_get_slot(value, slot_base_tab, num_slots)]; the loop reads
    [slot_base_tab[slot + 1]], and a read behind the end of the table is
    [None], as is the end of the fuel.  [num_slots] is not used. *)
Fixpoint lzms_get_slot_loop (fuel : nat) (value : Z) (slot_base_tab : list Z)
    (slot : Z) : option Z :=
  match fuel with
  | O => None
  | S fuel' =>
      match slot_base_tab !! Z.to_nat (wrap32 (slot + 1)) with
      | None => None
      | Some base =>
          if base <=? value
          then lzms_get_slot_loop fuel' value slot_base_tab (wrap32 (slot + 1))
          else Some slot
      end
  end.

Definition lzms_get_slot (value : Z) (slot_base_tab : list Z) (num_slots : Z)
    : option Z :=
  lzms_get_slot_loop (length slot_base_tab) value slot_base_tab 0.

(** The loop [while (run_len--)] of [lzms_decode_delta_rle_slot_bases]:
    the array, [base] and [slot] after it. *)
Fixpoint decode_run (run_len : nat) (slot_bases : list Z) (delta base : Z)
    (slot : nat) : list Z * Z * nat :=
  match run_len with
  | O => (slot_bases, base, slot)
  | S run_len' =>
      let base := wrap32 (base + delta) in
      decode_run run_len' (<[slot := base]> slot_bases) delta base (S slot)
  end.

(** The [for] loop over [delta_run_lens]. *)
Fixpoint decode_runs (delta_run_lens : list Z) (slot_bases : list Z)
    (delta base : Z) (slot : nat) : list Z :=
  match delta_run_lens with
  | [] => slot_bases
  | run_len :: rest =>
      let '(slot_bases, base, slot) :=
        decode_run (Z.to_nat run_len) slot_bases delta base slot in
      decode_runs rest slot_bases (wrap32 (Z.shiftl delta 1)) base slot
  end.

(** [lzms_decode_delta_rle_slot_bases(slot_bases, delta_run_lens,
    num_run_lens)]: the array when the function returns. *)
Definition lzms_decode_delta_rle_slot_bases (slot_bases : list Z)
    (delta_run_lens : list Z) : list Z :=
  decode_runs delta_run_lens slot_bases 1 0 0.

Definition position_slot_delta_run_lens : list Z :=
  [9;   0;   9;   7;   10;  15;  15;  20;
   20;  30;  33;  40;  42;  45;  60;  73;
   80;  85;  95;  105; 6].

Definition length_slot_delta_run_lens : list Z :=
  [27;  4;   6;   4;   5;   2;   1;   1;
   1;   1;   1;   0;   0;   0;   0;   0;
   1].

Section SlotBases.

(** [LZMS_MAX_NUM_OFFSET_SYMS] and [LZMS_NUM_LEN_SYMS] are macros of
    [wimlib/lzms.h], which is not among the sources. *)
Variable LZMS_MAX_NUM_OFFSET_SYMS : Z.
Variable LZMS_NUM_LEN_SYMS : Z.

(** [lzms_compute_slot_bases()]: the global arrays
    [lzms_position_slot_base] and [lzms_length_slot_base], which start
    filled with zeroes. *)
Definition lzms_compute_slot_bases : list Z * list Z :=
  let lzms_position_slot_base :=
    replicate (Z.to_nat (LZMS_MAX_NUM_OFFSET_SYMS + 1)) 0 in
  let lzms_length_slot_base :=
    replicate (Z.to_nat (LZMS_NUM_LEN_SYMS + 1)) 0 in
  let lzms_position_slot_base :=
    lzms_decode_delta_rle_slot_bases lzms_position_slot_base
      position_slot_delta_run_lens in
  let lzms_position_slot_base :=
    <[Z.to_nat LZMS_MAX_NUM_OFFSET_SYMS := 0x7fffffff]>
      lzms_position_slot_base in
  let lzms_length_slot_base :=
    lzms_decode_delta_rle_slot_bases lzms_length_slot_base
      length_slot_delta_run_lens in
  let lzms_length_slot_base :=
    <[Z.to_nat LZMS_NUM_LEN_SYMS := 0x400108ab]> lzms_length_slot_base in
  (lzms_position_slot_base, lzms_length_slot_base).

End SlotBases.

Section Queues.

(** [LZMS_NUM_RECENT_OFFSETS] is a macro of [wimlib/lzms.h]. *)
Variable LZMS_NUM_RECENT_OFFSETS : nat.

(** [struct lzms_lz_lru_queues]; [recent_offsets] has
    [LZMS_NUM_RECENT_OFFSETS + 1] entries. *)
Record lzms_lz_lru_queues := {
  lz_recent_offsets : list Z;
  lz_prev_offset : Z;
  lz_upcoming_offset : Z
}.

(** [struct lzms_delta_lru_queues]. *)
Record lzms_delta_lru_queues := {
  delta_recent_offsets : list Z;
  delta_recent_powers : list Z;
  delta_prev_offset : Z;
  delta_prev_power : Z;
  delta_upcoming_offset : Z;
  delta_upcoming_power : Z
}.

(** [struct lzms_lru_queues]. *)
Record lzms_lru_queues := {
  lru_lz : lzms_lz_lru_queues;
  lru_delta : lzms_delta_lru_queues
}.

(** [for (u32 i = 0; i < LZMS_NUM_RECENT_OFFSETS + 1; i++) a[i] = f(i);] *)
Definition fill (f : Z -> Z) (a : list Z) : list Z :=
  fold_left (fun a i => <[i := f (Z.of_nat i)]> a)
            (seq 0 (LZMS_NUM_RECENT_OFFSETS + 1)) a.

Definition lzms_init_lz_lru_queues (lz : lzms_lz_lru_queues)
    : lzms_lz_lru_queues :=
  {| lz_recent_offsets := fill (fun i => i + 1) (lz_recent_offsets lz);
     lz_prev_offset := 0;
     lz_upcoming_offset := 0 |}.

Definition lzms_init_delta_lru_queues (delta : lzms_delta_lru_queues)
    : lzms_delta_lru_queues :=
  {| delta_recent_offsets :=
       fill (fun i => i + 1) (delta_recent_offsets delta);
     delta_recent_powers := fill (fun _ => 0) (delta_recent_powers delta);
     delta_prev_offset := 0;
     delta_prev_power := 0;
     delta_upcoming_offset := 0;
     delta_upcoming_power := 0 |}.

Definition lzms_init_lru_queues (lru : lzms_lru_queues) : lzms_lru_queues :=
  {| lru_lz := lzms_init_lz_lru_queues (lru_lz lru);
     lru_delta := lzms_init_delta_lru_queues (lru_delta lru) |}.

(** [for (int i = LZMS_NUM_RECENT_OFFSETS - 1; i >= 0; i--)
      a[i + 1] = a[i];] *)
Definition shift_up (a : list Z) : list Z :=
  fold_left (fun a i => <[S i := a !!! i]> a)
            (rev (seq 0 LZMS_NUM_RECENT_OFFSETS)) a.

Definition lzms_update_lz_lru_queues (lz : lzms_lz_lru_queues)
    : lzms_lz_lru_queues :=
  let recent_offsets :=
    if negb (lz_prev_offset lz =? 0)
    then <[0%nat := lz_prev_offset lz]> (shift_up (lz_recent_offsets lz))
    else lz_recent_offsets lz in
  {| lz_recent_offsets := recent_offsets;
     lz_prev_offset := lz_upcoming_offset lz;
     lz_upcoming_offset := lz_upcoming_offset lz |}.

Definition lzms_update_delta_lru_queues (delta : lzms_delta_lru_queues)
    : lzms_delta_lru_queues :=
  let shifted := negb (delta_prev_offset delta =? 0) in
  {| delta_recent_offsets :=
       if shifted
       then <[0%nat := delta_prev_offset delta]>
              (shift_up (delta_recent_offsets delta))
       else delta_recent_offsets delta;
     delta_recent_powers :=
       if shifted
       then <[0%nat := delta_prev_power delta]>
              (shift_up (delta_recent_powers delta))
       else delta_recent_powers delta;
     delta_prev_offset := delta_upcoming_offset delta;
     delta_prev_power := delta_upcoming_power delta;
     delta_upcoming_offset := delta_upcoming_offset delta;
     delta_upcoming_power := delta_upcoming_power delta |}.

Definition lzms_update_lru_queues (lru : lzms_lru_queues) : lzms_lru_queues :=
  {| lru_lz := lzms_update_lz_lru_queues (lru_lz lru);
     lru_delta := lzms_update_delta_lru_queues (lru_delta lru) |}.

End Queues.

End LzmsTables.
(** ** dentry.c: directory entries, inodes and streams *)

Module Dentry.
Import Bytes.

(** *** Data model *)

Inductive stream_type_t :=
  | STREAM_TYPE_DATA
  | STREAM_TYPE_REPARSE_POINT
  | STREAM_TYPE_EFSRPC_RAW_DATA
  | STREAM_TYPE_UNKNOWN.

#[global] Instance stream_type_eq_dec : EqDecision stream_type_t.
Proof. solve_decision. Defined.

(** [struct wim_inode_stream].  A name is the bytes of a UTF-16LE string,
    without its terminator; [None] is the pointer [NO_STREAM_NAME]. *)
Record wim_inode_stream := {
  stream_name : option (list byte);
  _stream_hash : list byte;
  stream_type : stream_type_t;
  stream_id : Z
}.

(** [struct wim_inode], the fields [dentry.c] reads or writes.
    [i_num_streams] is the length of [i_streams] and [i_extra_size] the
    length of [i_extra]. *)
Record wim_inode := {
  i_attributes : Z;
  i_security_id : Z;
  i_creation_time : Z;
  i_last_access_time : Z;
  i_last_write_time : Z;
  i_ino : Z;
  i_nlink : Z;
  i_rp_unknown_1 : Z;
  i_reparse_tag : Z;
  i_rp_unknown_2 : Z;
  i_not_rpfixed : Z;
  i_streams : list wim_inode_stream;
  i_extra : list byte
}.

(** [struct wim_dentry] without its links: the names are kept as the bytes
    of the UTF-16LE arrays, next to the 16-bit byte counts the C struct
    stores for them. *)
Record wim_dentry := {
  d_inode : wim_inode;
  file_name : list byte;
  file_name_nbytes : Z;
  short_name : list byte;
  short_name_nbytes : Z;
  subdir_offset : Z
}.

(** A directory with the dentries linked under it.  The list stands for the
    index [i_children] of the directory's inode; [d_parent] is the node
    above. *)
Inductive dentry_tree := Node (d : wim_dentry) (children : list dentry_tree).

Definition root_dentry (t : dentry_tree) : wim_dentry :=
  match t with Node d _ => d end.

Definition tree_children (t : dentry_tree) : list dentry_tree :=
  match t with Node _ children => children end.

Inductive error :=
  | WIMLIB_ERR_INVALID_METADATA_RESOURCE
  | WIMLIB_ERR_NOMEM.

(** The [int] a function returns, with what it stores through its result
    pointers on success. *)
Inductive result (A : Type) :=
  | Ok (a : A)
  | Err (e : error).
Arguments Ok {A} a.
Arguments Err {A} e.

Definition SHA1_HASH_SIZE : Z := 20.
Definition zero_hash : list byte := replicate 20 x00.

(** [sizeof(struct wim_dentry_on_disk)] and
    [sizeof(struct wim_extra_stream_entry_on_disk)]: both structs are packed,
    so the sizes are the sums of their fields. *)
Definition WIM_DENTRY_DISK_SIZE : Z := 102.
Definition WIM_EXTRA_STREAM_ENTRY_DISK_SIZE : Z := 38.

(** Modelled from the spec: the attribute bits are macros of a header that is
    not among the sources; these are their values in the Windows API. *)
Definition FILE_ATTRIBUTE_DIRECTORY : Z := 0x10.
Definition FILE_ATTRIBUTE_REPARSE_POINT : Z := 0x400.
Definition FILE_ATTRIBUTE_ENCRYPTED : Z := 0x4000.

Definition has_attribute (inode : wim_inode) (mask : Z) : bool :=
  negb (Z.land (i_attributes inode) mask =? 0).

(** Modelled from the spec: [inode_is_directory] of [wimlib/inode.h]; a
    reparse point is not taken for a directory even with the directory
    bit set. *)
Definition inode_is_directory (inode : wim_inode) : bool :=
  Z.land (i_attributes inode)
         (Z.lor FILE_ATTRIBUTE_DIRECTORY FILE_ATTRIBUTE_REPARSE_POINT)
  =? FILE_ATTRIBUTE_DIRECTORY.

Definition dentry_is_directory (d : wim_dentry) : bool :=
  inode_is_directory (d_inode d).

(** Modelled from the spec: the inline tests of [wimlib/dentry.h] and
    [wimlib/inode.h]. *)
Definition dentry_has_long_name (d : wim_dentry) : bool :=
  negb (file_name_nbytes d =? 0).

Definition dentry_has_short_name (d : wim_dentry) : bool :=
  negb (short_name_nbytes d =? 0).

Definition stream_is_named (strm : wim_inode_stream) : bool :=
  match stream_name strm with Some _ => true | None => false end.

Definition stream_is_named_data_stream (strm : wim_inode_stream) : bool :=
  bool_decide (stream_type strm = STREAM_TYPE_DATA) && stream_is_named strm.

Definition is_zero_hash (hash : list byte) : bool :=
  bool_decide (hash = zero_hash).

Definition stream_hash (strm : wim_inode_stream) : list byte :=
  _stream_hash strm.

(** Modelled from the spec: [inode_get_unnamed_stream] of [inode.c], the
    first unnamed stream of the given type. *)
Definition inode_get_unnamed_stream (inode : wim_inode) (type : stream_type_t)
    : option wim_inode_stream :=
  find (fun strm => bool_decide (stream_type strm = type)
                    && negb (stream_is_named strm))
       (i_streams inode).

(** Modelled from the spec: [utf16le_len_bytes] of [encoding.c], the byte
    length of a null-terminated UTF-16LE string: the code units before the
    first zero unit.  The terminator follows the bytes of the list. *)
Fixpoint utf16le_len_bytes (name : list byte) : Z :=
  match name with
  | lo :: hi :: rest =>
      if bool_decide (lo = x00) && bool_decide (hi = x00) then 0
      else 2 + utf16le_len_bytes rest
  | _ => 0
  end.

(** [mempcpy(p, src, n)] out of an array whose bytes are [src] followed by
    a zero terminator: the [n] bytes written. *)
Definition mempcpy (src : list byte) (n : Z) : list byte :=
  resize (Z.to_nat n) x00 src.

(** The zero bytes written by [while ((uintptr_t)p & 7) *p++ = 0;] when [p]
    is [len] bytes past an 8-byte aligned address. *)
Definition pad8 (len : Z) : list byte :=
  replicate (Z.to_nat ((- len) mod 8)) x00.

Definition set_stream_type (strm : wim_inode_stream) (type : stream_type_t)
    : wim_inode_stream :=
  {| stream_name := stream_name strm;
     _stream_hash := _stream_hash strm;
     stream_type := type;
     stream_id := stream_id strm |}.

Definition set_streams (inode : wim_inode) (streams : list wim_inode_stream)
    : wim_inode :=
  {| i_attributes := i_attributes inode;
     i_security_id := i_security_id inode;
     i_creation_time := i_creation_time inode;
     i_last_access_time := i_last_access_time inode;
     i_last_write_time := i_last_write_time inode;
     i_ino := i_ino inode;
     i_nlink := i_nlink inode;
     i_rp_unknown_1 := i_rp_unknown_1 inode;
     i_reparse_tag := i_reparse_tag inode;
     i_rp_unknown_2 := i_rp_unknown_2 inode;
     i_not_rpfixed := i_not_rpfixed inode;
     i_streams := streams;
     i_extra := i_extra inode |}.

(** *** Sizes: [dentry_out_total_length] *)

Definition dentry_min_len_with_names (file_name_nbytes short_name_nbytes : Z)
    : Z :=
  let length := WIM_DENTRY_DISK_SIZE in
  let length := if negb (file_name_nbytes =? 0)
                then length + (wrap32 file_name_nbytes + 2) else length in
  let length := if negb (short_name_nbytes =? 0)
                then length + (wrap32 short_name_nbytes + 2) else length in
  length.

Definition stream_out_total_length (strm : wim_inode_stream) : Z :=
  let len := WIM_EXTRA_STREAM_ENTRY_DISK_SIZE in
  let len := match stream_name strm with
             | Some name => len + (utf16le_len_bytes name + 2)
             | None => len
             end in
  align8 len.

(** The loop over [i_streams] of [dentry_out_total_length]: the bytes added
    for the named data streams and the two flags. *)
Fixpoint out_length_streams (streams : list wim_inode_stream)
    (len : Z) (have_named_data_stream have_reparse_point_stream : bool)
    : Z * bool * bool :=
  match streams with
  | [] => (len, have_named_data_stream, have_reparse_point_stream)
  | strm :: rest =>
      if stream_is_named_data_stream strm then
        out_length_streams rest (wrap64 (len + stream_out_total_length strm))
                           true have_reparse_point_stream
      else if bool_decide (stream_type strm = STREAM_TYPE_REPARSE_POINT) then
        out_length_streams rest len have_named_data_stream true
      else
        out_length_streams rest len have_named_data_stream
                           have_reparse_point_stream
  end.

Definition dentry_out_total_length (dentry : wim_dentry) : Z :=
  let inode := d_inode dentry in
  let len := dentry_min_len_with_names (file_name_nbytes dentry)
                                       (short_name_nbytes dentry) in
  let len := align8 len in
  let i_extra_size := Z.of_nat (length (i_extra inode)) in
  let len := if negb (i_extra_size =? 0)
             then align8 (wrap64 (len + i_extra_size)) else len in
  if negb (has_attribute inode FILE_ATTRIBUTE_ENCRYPTED) then
    let '(len, have_named_data_stream, have_reparse_point_stream) :=
      out_length_streams (i_streams inode) len false false in
    if have_named_data_stream || have_reparse_point_stream then
      let len := if have_reparse_point_stream
                 then wrap64 (len + align8 WIM_EXTRA_STREAM_ENTRY_DISK_SIZE)
                 else len in
      wrap64 (len + align8 WIM_EXTRA_STREAM_ENTRY_DISK_SIZE)
    else len
  else len.

(** *** Writing: [write_dentry] *)

(** The functions that write through a pointer [p] return the bytes they
    write, in order; the pointer they return is [p] plus that many bytes.
    A position [p] is counted from the start of the output buffer, which is
    8-byte aligned, so [(uintptr_t)p & 7] is [p mod 8]. *)

Definition write_extra_stream_entry (p : Z) (name : option (list byte))
    (hash : list byte) : list byte :=
  let name_nbytes := match name with
                     | None => 0
                     | Some name => utf16le_len_bytes name
                     end in
  let name_bytes := if negb (name_nbytes =? 0)
                    then mempcpy (default [] name) (name_nbytes + 2)
                    else [] in
  let body := le_encode 8 0 ++ resize 20 x00 hash ++ le_encode 2 name_nbytes
              ++ name_bytes in
  let unpadded := 8 + Z.of_nat (length body) in
  let padding := pad8 (p + unpadded) in
  let length := unpadded + Z.of_nat (length padding) in
  le_encode 8 length ++ body ++ padding.

(** The values stored in a [struct wim_dentry_on_disk]. *)
Record wim_dentry_on_disk := {
  disk_length : Z;
  disk_attributes : Z;
  disk_security_id : Z;
  disk_subdir_offset : Z;
  disk_unused_1 : Z;
  disk_unused_2 : Z;
  disk_creation_time : Z;
  disk_last_access_time : Z;
  disk_last_write_time : Z;
  disk_default_hash : list byte;
  (** the 12 bytes of the union of the reparse and nonreparse views *)
  disk_reparse_union : list byte;
  disk_num_extra_streams : Z;
  disk_short_name_nbytes : Z;
  disk_file_name_nbytes : Z
}.

(** The 102 bytes of the packed struct, field by field. *)
Definition disk_dentry_bytes (disk : wim_dentry_on_disk) : list byte :=
  le_encode 8 (disk_length disk)
  ++ le_encode 4 (disk_attributes disk)
  ++ le_encode 4 (disk_security_id disk)
  ++ le_encode 8 (disk_subdir_offset disk)
  ++ le_encode 8 (disk_unused_1 disk)
  ++ le_encode 8 (disk_unused_2 disk)
  ++ le_encode 8 (disk_creation_time disk)
  ++ le_encode 8 (disk_last_access_time disk)
  ++ le_encode 8 (disk_last_write_time disk)
  ++ resize 20 x00 (disk_default_hash disk)
  ++ resize 12 x00 (disk_reparse_union disk)
  ++ le_encode 2 (disk_num_extra_streams disk)
  ++ le_encode 2 (disk_short_name_nbytes disk)
  ++ le_encode 2 (disk_file_name_nbytes disk).

(** The first loop over [i_streams] of [write_dentry]: the two flags, the
    hash of the unnamed data stream and the hash of the reparse point
    stream. *)
Fixpoint scan_streams (streams : list wim_inode_stream)
    (have_named_data_stream have_reparse_point_stream : bool)
    (unnamed_data_stream_hash reparse_point_hash : list byte)
    : bool * bool * list byte * list byte :=
  match streams with
  | [] => (have_named_data_stream, have_reparse_point_stream,
           unnamed_data_stream_hash, reparse_point_hash)
  | strm :: rest =>
      if bool_decide (stream_type strm = STREAM_TYPE_DATA) then
        if stream_is_named strm then
          scan_streams rest true have_reparse_point_stream
                       unnamed_data_stream_hash reparse_point_hash
        else
          scan_streams rest have_named_data_stream have_reparse_point_stream
                       (stream_hash strm) reparse_point_hash
      else if bool_decide (stream_type strm = STREAM_TYPE_REPARSE_POINT) then
        scan_streams rest have_named_data_stream true
                     unnamed_data_stream_hash (stream_hash strm)
      else
        scan_streams rest have_named_data_stream have_reparse_point_stream
                     unnamed_data_stream_hash reparse_point_hash
  end.

(** The second loop: one extra stream entry per named data stream, with the
    count of the entries written. *)
Fixpoint write_named_data_streams (streams : list wim_inode_stream) (p : Z)
    : list byte * Z :=
  match streams with
  | [] => ([], 0)
  | strm :: rest =>
      if stream_is_named_data_stream strm then
        let entry := write_extra_stream_entry p (stream_name strm)
                                              (stream_hash strm) in
        let '(entries, n) :=
          write_named_data_streams rest (p + Z.of_nat (length entry)) in
        (entry ++ entries, n + 1)
      else write_named_data_streams rest p
  end.

(** The bytes of the dentry up to the end of the tagged items, without the
    fixed-length struct: the names, the padding, the tagged items and their
    padding. *)
Definition write_dentry_names_and_extra (dentry : wim_dentry) (p : Z)
    : list byte :=
  let inode := d_inode dentry in
  let long := if dentry_has_long_name dentry
              then mempcpy (file_name dentry)
                           (wrap32 (file_name_nbytes dentry) + 2)
              else [] in
  let short := if dentry_has_short_name dentry
               then mempcpy (short_name dentry)
                            (wrap32 (short_name_nbytes dentry) + 2)
               else [] in
  let names := long ++ short in
  let names := names
               ++ pad8 (p + WIM_DENTRY_DISK_SIZE + Z.of_nat (length names)) in
  if negb (Z.of_nat (length (i_extra inode)) =? 0) then
    let extra := names ++ i_extra inode in
    extra ++ pad8 (p + WIM_DENTRY_DISK_SIZE + Z.of_nat (length extra))
  else names.

(** The stream part of [write_dentry], written at [p]: the default hash,
    the number of extra stream entries and the bytes of the entries. *)
Definition write_dentry_streams (inode : wim_inode) (p : Z)
    : list byte * Z * list byte :=
  if has_attribute inode FILE_ATTRIBUTE_ENCRYPTED then
    let efs_hash :=
      match inode_get_unnamed_stream inode STREAM_TYPE_EFSRPC_RAW_DATA with
      | Some efs_strm => stream_hash efs_strm
      | None => zero_hash
      end in
    (efs_hash, 0, [])
  else
    let '(have_named_data_stream, have_reparse_point_stream,
          unnamed_data_stream_hash, reparse_point_hash) :=
      scan_streams (i_streams inode) false false zero_hash [] in
    if have_reparse_point_stream || have_named_data_stream then
      let reparse_entry :=
        if have_reparse_point_stream
        then write_extra_stream_entry p None reparse_point_hash
        else [] in
      let num_extra_streams := if have_reparse_point_stream then 1 else 0 in
      let p := p + Z.of_nat (length reparse_entry) in
      let unnamed_entry :=
        write_extra_stream_entry p None unnamed_data_stream_hash in
      let num_extra_streams := num_extra_streams + 1 in
      let p := p + Z.of_nat (length unnamed_entry) in
      let '(named_entries, n) :=
        write_named_data_streams (i_streams inode) p in
      (zero_hash, num_extra_streams + n,
       reparse_entry ++ unnamed_entry ++ named_entries)
    else (unnamed_data_stream_hash, 0, []).

(** [write_dentry(dentry, p)]: the bytes written from [p] on. *)
Definition write_dentry (dentry : wim_dentry) (p : Z) : list byte :=
  let inode := d_inode dentry in
  let reparse_union :=
    if has_attribute inode FILE_ATTRIBUTE_REPARSE_POINT then
      le_encode 4 (i_rp_unknown_1 inode) ++ le_encode 4 (i_reparse_tag inode)
      ++ le_encode 2 (i_rp_unknown_2 inode)
      ++ le_encode 2 (i_not_rpfixed inode)
    else
      le_encode 4 (i_rp_unknown_1 inode)
      ++ le_encode 8 (if i_nlink inode =? 1 then 0 else i_ino inode) in
  let variable_part := write_dentry_names_and_extra dentry p in
  let length := WIM_DENTRY_DISK_SIZE + Z.of_nat (length variable_part) in
  let '(default_hash, num_extra_streams, entries) :=
    write_dentry_streams inode (p + length) in
  let disk_dentry :=
    {| disk_length := length;
       disk_attributes := i_attributes inode;
       disk_security_id := i_security_id inode;
       disk_subdir_offset := subdir_offset dentry;
       disk_unused_1 := 0;
       disk_unused_2 := 0;
       disk_creation_time := i_creation_time inode;
       disk_last_access_time := i_last_access_time inode;
       disk_last_write_time := i_last_write_time inode;
       disk_default_hash := default_hash;
       disk_reparse_union := reparse_union;
       disk_num_extra_streams := num_extra_streams;
       disk_short_name_nbytes := short_name_nbytes dentry;
       disk_file_name_nbytes := file_name_nbytes dentry |} in
  disk_dentry_bytes disk_dentry ++ variable_part ++ entries.

(** *** Reading: [read_dentry] *)

(** A pointer into the metadata buffer is the index it points at; the
    buffer starts at an 8-byte aligned address.  Allocation does not fail
    in this embedding, so [WIMLIB_ERR_NOMEM] is never returned. *)

(** [assign_stream_types_encrypted]: the loop returns at the first unnamed
    stream with a nonzero hash. *)
Fixpoint assign_stream_types_encrypted (streams : list wim_inode_stream)
    : list wim_inode_stream :=
  match streams with
  | [] => []
  | strm :: rest =>
      if negb (stream_is_named strm) && negb (is_zero_hash (_stream_hash strm))
      then set_stream_type strm STREAM_TYPE_EFSRPC_RAW_DATA :: rest
      else strm :: assign_stream_types_encrypted rest
  end.

(** The loop of [assign_stream_types_unencrypted] from stream [i] on: the
    streams with their types set, whether an unnamed data stream was found,
    and the index held in [unnamed_stream_with_zero_hash]. *)
Fixpoint assign_unencrypted_loop (reparse_point : bool)
    (streams : list wim_inode_stream) (i : nat)
    (found_reparse_point_stream found_unnamed_data_stream : bool)
    (unnamed_stream_with_zero_hash : option nat)
    : list wim_inode_stream * bool * option nat :=
  match streams with
  | [] => ([], found_unnamed_data_stream, unnamed_stream_with_zero_hash)
  | strm :: rest =>
      if stream_is_named strm then
        let '(rest', found, zero) :=
          assign_unencrypted_loop reparse_point rest (S i)
            found_reparse_point_stream found_unnamed_data_stream
            unnamed_stream_with_zero_hash in
        (set_stream_type strm STREAM_TYPE_DATA :: rest', found, zero)
      else if negb (is_zero_hash (_stream_hash strm)) then
        if reparse_point && negb found_reparse_point_stream then
          let '(rest', found, zero) :=
            assign_unencrypted_loop reparse_point rest (S i)
              true found_unnamed_data_stream unnamed_stream_with_zero_hash in
          (set_stream_type strm STREAM_TYPE_REPARSE_POINT :: rest', found, zero)
        else if negb found_unnamed_data_stream then
          let '(rest', found, zero) :=
            assign_unencrypted_loop reparse_point rest (S i)
              found_reparse_point_stream true unnamed_stream_with_zero_hash in
          (set_stream_type strm STREAM_TYPE_DATA :: rest', found, zero)
        else
          let '(rest', found, zero) :=
            assign_unencrypted_loop reparse_point rest (S i)
              found_reparse_point_stream found_unnamed_data_stream
              unnamed_stream_with_zero_hash in
          (strm :: rest', found, zero)
      else
        let '(rest', found, zero) :=
          assign_unencrypted_loop reparse_point rest (S i)
            found_reparse_point_stream found_unnamed_data_stream (Some i) in
        (strm :: rest', found, zero)
  end.

Definition assign_stream_types_unencrypted (inode : wim_inode)
    : list wim_inode_stream :=
  let '(streams, found_unnamed_data_stream, unnamed_stream_with_zero_hash) :=
    assign_unencrypted_loop
      (has_attribute inode FILE_ATTRIBUTE_REPARSE_POINT)
      (i_streams inode) 0 false false None in
  match unnamed_stream_with_zero_hash with
  | Some i =>
      if negb found_unnamed_data_stream
      then alter (fun strm => set_stream_type strm STREAM_TYPE_DATA) i streams
      else streams
  | None => streams
  end.

(** The end of [setup_inode_streams]: the choice between the two
    assignments. *)
Definition assign_stream_types (inode : wim_inode) : wim_inode :=
  if has_attribute inode FILE_ATTRIBUTE_ENCRYPTED
  then set_streams inode (assign_stream_types_encrypted (i_streams inode))
  else set_streams inode (assign_stream_types_unencrypted inode).

(** The loop of [setup_inode_streams] that reads the extra stream entries
    [i], [i + 1], ... at [p]; [n] entries are left to read.  Returns the
    streams read and the final [p]. *)
Fixpoint read_extra_stream_entries (buf : list byte) (p end_ : Z)
    (i : Z) (n : nat) : result (list wim_inode_stream * Z) :=
  match n with
  | O => Ok ([], p)
  | S n' =>
      if end_ - p <? WIM_EXTRA_STREAM_ENTRY_DISK_SIZE
      then Err WIMLIB_ERR_INVALID_METADATA_RESOURCE
      else
        let length := align8 (get_le buf p 8) in
        if (length <? WIM_EXTRA_STREAM_ENTRY_DISK_SIZE) || (length >? end_ - p)
        then Err WIMLIB_ERR_INVALID_METADATA_RESOURCE
        else
          let hash := field buf (p + 16) 20 in
          let name_nbytes := get_le buf (p + 36) 2 in
          let name :=
            if negb (name_nbytes =? 0) then
              if negb (Z.land name_nbytes 1 =? 0)
              then Err WIMLIB_ERR_INVALID_METADATA_RESOURCE
              else if WIM_EXTRA_STREAM_ENTRY_DISK_SIZE + name_nbytes >? length
              then Err WIMLIB_ERR_INVALID_METADATA_RESOURCE
              else Ok (Some (field buf (p + 38) (Z.to_nat name_nbytes)))
            else Ok None in
          match name with
          | Err e => Err e
          | Ok name =>
              let strm := {| stream_name := name;
                             _stream_hash := hash;
                             stream_type := STREAM_TYPE_UNKNOWN;
                             stream_id := i |} in
              match read_extra_stream_entries buf (p + length) end_
                                              (i + 1) n' with
              | Err e => Err e
              | Ok (streams, p') => Ok (strm :: streams, p')
              end
          end
  end.

(** [setup_inode_streams(p, end, inode, num_extra_streams, default_hash,
    &offset)]: the inode with its streams and the number of bytes the extra
    stream entries take, which the function adds to [*offset_p]. *)
Definition setup_inode_streams (buf : list byte) (p end_ : Z)
    (inode : wim_inode) (num_extra_streams : Z) (default_hash : list byte)
    : result (wim_inode * Z) :=
  let first := {| stream_name := None;
                  _stream_hash := default_hash;
                  stream_type := STREAM_TYPE_UNKNOWN;
                  stream_id := 0 |} in
  match read_extra_stream_entries buf p end_ 1
                                  (Z.to_nat num_extra_streams) with
  | Err e => Err e
  | Ok (streams, p') =>
      Ok (assign_stream_types (set_streams inode (first :: streams)), p' - p)
  end.

(** [read_extra_data(p, end, inode)]: the tagged items between the names
    and the end of the dentry, after alignment of [p]. *)
Definition read_extra_data (buf : list byte) (p end_ : Z) : list byte :=
  let p := Z.min (p + (- p) mod 8) (Z.max p end_) in
  if p <? end_ then field buf p (Z.to_nat (end_ - p)) else [].

(** Modelled from the spec: the inode [new_dentry_with_new_inode] hands to
    [read_dentry] comes from [new_inode] of [inode.c], which is not among
    the sources: no security descriptor, one link, no streams yet. *)
Definition new_inode : wim_inode :=
  {| i_attributes := 0;
     i_security_id := -1;
     i_creation_time := 0;
     i_last_access_time := 0;
     i_last_write_time := 0;
     i_ino := 0;
     i_nlink := 1;
     i_rp_unknown_1 := 0;
     i_reparse_tag := 0;
     i_rp_unknown_2 := 0;
     i_not_rpfixed := 1;
     i_streams := [];
     i_extra := [] |}.

(** [read_dentry(buf, buf_len, &offset, &dentry)]: [Ok None] at the end of a
    directory, else the dentry with the offset of the next one. *)
Definition read_dentry (buf : list byte) (offset : Z)
    : result (option (wim_dentry * Z)) :=
  let buf_len := Z.of_nat (length buf) in
  if (wrap64 (offset + 8) >? buf_len) || (wrap64 (offset + 8) <? offset)
  then Err WIMLIB_ERR_INVALID_METADATA_RESOURCE
  else
    let length := align8 (get_le buf offset 8) in
    if length <=? 8 then Ok None
    else if length <? WIM_DENTRY_DISK_SIZE
    then Err WIMLIB_ERR_INVALID_METADATA_RESOURCE
    else if (wrap64 (offset + length) >? buf_len)
            || (wrap64 (offset + length) <? offset)
    then Err WIMLIB_ERR_INVALID_METADATA_RESOURCE
    else
      let attributes := get_le buf (offset + 8) 4 in
      let reparse :=
        negb (Z.land attributes FILE_ATTRIBUTE_REPARSE_POINT =? 0) in
      let short_name_nbytes := get_le buf (offset + 98) 2 in
      let file_name_nbytes := get_le buf (offset + 100) 2 in
      if negb (Z.lor (Z.land short_name_nbytes 1)
                     (Z.land file_name_nbytes 1) =? 0)
      then Err WIMLIB_ERR_INVALID_METADATA_RESOURCE
      else
        let calculated_size :=
          dentry_min_len_with_names file_name_nbytes short_name_nbytes in
        if length <? calculated_size
        then Err WIMLIB_ERR_INVALID_METADATA_RESOURCE
        else
          let p := offset + WIM_DENTRY_DISK_SIZE in
          let file_name :=
            if negb (file_name_nbytes =? 0)
            then field buf p (Z.to_nat file_name_nbytes) else [] in
          let p := if negb (file_name_nbytes =? 0)
                   then p + (file_name_nbytes + 2) else p in
          let short_name :=
            if negb (short_name_nbytes =? 0)
            then field buf p (Z.to_nat short_name_nbytes) else [] in
          let p := if negb (short_name_nbytes =? 0)
                   then p + (short_name_nbytes + 2) else p in
          let extra := read_extra_data buf p (offset + length) in
          let fresh := new_inode in
          let inode :=
            {| i_attributes := attributes;
               i_security_id := wrap32s (get_le buf (offset + 12) 4);
               i_creation_time := get_le buf (offset + 40) 8;
               i_last_access_time := get_le buf (offset + 48) 8;
               i_last_write_time := get_le buf (offset + 56) 8;
               i_ino := if reparse then i_ino fresh
                        else get_le buf (offset + 88) 8;
               i_nlink := i_nlink fresh;
               i_rp_unknown_1 := get_le buf (offset + 84) 4;
               i_reparse_tag := if reparse then get_le buf (offset + 88) 4
                                else i_reparse_tag fresh;
               i_rp_unknown_2 := if reparse then get_le buf (offset + 92) 2
                                 else i_rp_unknown_2 fresh;
               i_not_rpfixed := if reparse then get_le buf (offset + 94) 2
                                else i_not_rpfixed fresh;
               i_streams := i_streams fresh;
               i_extra := extra |} in
          let next := offset + length in
          match setup_inode_streams buf next buf_len inode
                  (get_le buf (offset + 96) 2)
                  (field buf (offset + 64) 20) with
          | Err e => Err e
          | Ok (inode, entries_size) =>
              Ok (Some ({| d_inode := inode;
                           file_name := file_name;
                           file_name_nbytes := file_name_nbytes;
                           short_name := short_name;
                           short_name_nbytes := short_name_nbytes;
                           subdir_offset := get_le buf (offset + 16) 8 |},
                        next + entries_size))
          end.

(** *** Reading a tree: [read_dentry_tree_recursive] *)

(** [dentry_is_dot_or_dotdot]: the name is one or two full stops. *)
Definition dentry_is_dot_or_dotdot (dentry : wim_dentry) : bool :=
  let unit k := field (file_name dentry) (2 * k) 2 in
  let dot := le_encode 2 0x2e in
  if file_name_nbytes dentry <=? 4 then
    if file_name_nbytes dentry =? 4 then
      bool_decide (unit 0 = dot) && bool_decide (unit 1 = dot)
    else if file_name_nbytes dentry =? 2 then
      bool_decide (unit 0 = dot)
    else false
  else false.

(** Modelled from the spec: [cmp_utf16le_strings] of [encoding.c] is not
    among the sources; case-sensitively, two names are equal when they have
    the same length and the same code units. *)
Definition same_name_case_sensitive (d1 d2 : wim_dentry) : bool :=
  bool_decide (field (file_name d1) 0 (Z.to_nat (file_name_nbytes d1)) =
               field (file_name d2) 0 (Z.to_nat (file_name_nbytes d2))).

(** [dentry_add_child(parent, child)] looks [child] up in the
    case-sensitive index of [parent]: the dentry already linked under that
    name, if there is one. *)
Definition find_duplicate (children : list dentry_tree) (child : wim_dentry)
    : option dentry_tree :=
  find (fun t => same_name_case_sensitive (root_dentry t) child) children.

(** The cycle check at the head of [read_dentry_tree_recursive]: the loop
    [for (d = dir->d_parent; !dentry_is_root(d); d = d->d_parent)].
    [ancestors] lists [dir->d_parent], its parent, and so on up to the
    root, which is its own parent and stops the loop. *)
Fixpoint cyclic_ancestor (ancestors : list wim_dentry) (cur_offset : Z)
    : bool :=
  match ancestors with
  | [] => false
  | [root] => false
  | d :: up =>
      if subdir_offset d =? cur_offset then true
      else cyclic_ancestor up cur_offset
  end.

(** [read_dentry_tree_recursive(buf, buf_len, dir)]: the children linked
    under [dir].  [read_children] is the [for (;;)] loop, entered with the
    children linked so far and [cur_offset]; [None] when the fuel runs
    out. *)
Fixpoint read_children (fuel : nat) (buf : list byte)
    (ancestors : list wim_dentry) (dir : wim_dentry)
    (children : list dentry_tree) (cur_offset : Z)
    : option (result (list dentry_tree)) :=
  match fuel with
  | O => None
  | S fuel' =>
      match read_dentry buf cur_offset with
      | Err e => Some (Err e)
      | Ok None => Some (Ok children)
      | Ok (Some (child, cur_offset')) =>
          if negb (dentry_has_long_name child) then
            read_children fuel' buf ancestors dir children cur_offset'
          else if dentry_is_dot_or_dotdot child then
            read_children fuel' buf ancestors dir children cur_offset'
          else if bool_decide (is_Some (find_duplicate children child)) then
            read_children fuel' buf ancestors dir children cur_offset'
          else if negb (subdir_offset child =? 0)
                  && dentry_is_directory child then
            if cyclic_ancestor (dir :: ancestors) (subdir_offset child)
            then Some (Err WIMLIB_ERR_INVALID_METADATA_RESOURCE)
            else
              match read_children fuel' buf (dir :: ancestors) child []
                                  (subdir_offset child) with
              | None => None
              | Some (Err e) => Some (Err e)
              | Some (Ok grandchildren) =>
                  read_children fuel' buf ancestors dir
                    (children ++ [Node child grandchildren]) cur_offset'
              end
          else
            read_children fuel' buf ancestors dir
              (children ++ [Node child []]) cur_offset'
      end
  end.

Definition read_dentry_tree_recursive (fuel : nat) (buf : list byte)
    (ancestors : list wim_dentry) (dir : wim_dentry)
    : option (result (list dentry_tree)) :=
  if cyclic_ancestor ancestors (subdir_offset dir)
  then Some (Err WIMLIB_ERR_INVALID_METADATA_RESOURCE)
  else read_children fuel buf ancestors dir [] (subdir_offset dir).

(** [dentry_set_name(root, NULL)]: both names are removed. *)
Definition clear_names (d : wim_dentry) : wim_dentry :=
  {| d_inode := d_inode d;
     file_name := [];
     file_name_nbytes := 0;
     short_name := [];
     short_name_nbytes := 0;
     subdir_offset := subdir_offset d |}.

(** [read_dentry_tree(buf, buf_len, root_offset, &root)]: [Ok None] for an
    image without directory entries. *)
Definition read_dentry_tree (fuel : nat) (buf : list byte) (root_offset : Z)
    : option (result (option dentry_tree)) :=
  match read_dentry buf root_offset with
  | Err e => Some (Err e)
  | Ok None => Some (Ok None)
  | Ok (Some (root, _)) =>
      let root :=
        if dentry_has_long_name root || dentry_has_short_name root
        then clear_names root else root in
      if negb (dentry_is_directory root)
      then Some (Err WIMLIB_ERR_INVALID_METADATA_RESOURCE)
      else if negb (subdir_offset root =? 0) then
        match read_dentry_tree_recursive fuel buf [] root with
        | None => None
        | Some (Err e) => Some (Err e)
        | Some (Ok children) => Some (Ok (Some (Node root children)))
        end
      else Some (Ok (Some (Node root [])))
  end.

(** *** Path lookup: [get_dentry] *)

Inductive CASE_SENSITIVITY_TYPE :=
  | WIMLIB_CASE_PLATFORM_DEFAULT
  | WIMLIB_CASE_SENSITIVE
  | WIMLIB_CASE_INSENSITIVE.

(** The value left in [errno] when a lookup returns [NULL]. *)
Inductive lookup_errno := ENOENT | ENOTDIR.

(** The pointer a lookup returns: a dentry of the tree, with the dentries
    below it, or [NULL] with [errno] set. *)
Inductive lookup_result :=
  | Found (dentry : dentry_tree)
  | Null (errno : lookup_errno).

(** The code units of a UTF-16LE name kept as bytes. *)
Fixpoint utf16_units (name : list byte) : list Z :=
  match name with
  | lo :: hi :: rest => le_decode [lo; hi] :: utf16_units rest
  | _ => []
  end.

Definition dentry_name_units (d : wim_dentry) : list Z :=
  utf16_units (field (file_name d) 0 (Z.to_nat (file_name_nbytes d))).

Section Lookup.

(** [WIM_PATH_SEPARATOR], the table [upcase] and the start value of
    [default_ignore_case] depend on the platform and are declared in files
    that are not among the sources. *)
Variable WIM_PATH_SEPARATOR : Z.
Variable upcase : Z -> Z.
Variable default_ignore_case : bool.

(** Modelled from the spec: [will_ignore_case] of [wimlib/dentry.h]. *)
Definition will_ignore_case (case_type : CASE_SENSITIVITY_TYPE) : bool :=
  match case_type with
  | WIMLIB_CASE_SENSITIVE => false
  | WIMLIB_CASE_INSENSITIVE => true
  | WIMLIB_CASE_PLATFORM_DEFAULT => default_ignore_case
  end.

(** Modelled from the spec: [cmp_utf16le_strings(s1, n1, s2, n2, ignore_case)
    == 0] of [encoding.c]: the same number of code units, equal one by one,
    through the upper-casing table when case is ignored. *)
Definition utf16le_strings_equal (s1 s2 : list Z) (ignore_case : bool)
    : bool :=
  if ignore_case then bool_decide (map upcase s1 = map upcase s2)
  else bool_decide (s1 = s2).

(** [get_dentry_child_with_utf16le_name]: the case-sensitive index holds at
    most one dentry per name; the case-insensitive index holds the first
    dentry linked under a name, the others hang on its conflict list, and
    one that matches the name exactly is preferred. *)
Definition get_dentry_child_with_utf16le_name (dentry : dentry_tree)
    (name : list Z) (case_type : CASE_SENSITIVITY_TYPE)
    : option dentry_tree :=
  let matches ignore_case (t : dentry_tree) :=
    utf16le_strings_equal name (dentry_name_units (root_dentry t))
                          ignore_case in
  if negb (will_ignore_case case_type) then
    find (matches false) (tree_children dentry)
  else
    match filter (fun t => matches true t = true) (tree_children dentry) with
    | [] => None
    | child :: alts =>
        match find (matches false) (child :: alts) with
        | Some alt => Some alt
        | None => Some child
        end
    end.

(** The path is the code units before the terminating zero; [p[0]] at the
    end of the list reads the terminator. *)
Definition deref (p : list Z) : Z := hd 0 p.

(** [while (name_start[0] == WIM_PATH_SEPARATOR) name_start++;] *)
Fixpoint skip_separators (name_start : list Z) : list Z :=
  match name_start with
  | c :: rest =>
      if c =? WIM_PATH_SEPARATOR then skip_separators rest else name_start
  | [] => []
  end.

(** [do { ++name_end; } while (name_end[0] != WIM_PATH_SEPARATOR && name_end[0]);]
    after one step: the code units passed over and the final [name_end]. *)
Fixpoint scan_name (name_end : list Z) : list Z * list Z :=
  match name_end with
  | c :: rest =>
      if negb (c =? WIM_PATH_SEPARATOR) && negb (c =? 0) then
        let '(name, name_end') := scan_name rest in (c :: name, name_end')
      else ([], name_end)
  | [] => ([], [])
  end.

(** The [for (;;)] loop of [get_dentry_utf16le]; [None] when the fuel runs
    out. *)
Fixpoint get_dentry_loop (fuel : nat) (cur_dentry : option dentry_tree)
    (name_start : list Z) (case_type : CASE_SENSITIVITY_TYPE)
    : option lookup_result :=
  match fuel with
  | O => None
  | S fuel' =>
      match cur_dentry with
      | None => Some (Null ENOENT)
      | Some cur =>
          if negb (deref name_start =? 0)
             && negb (dentry_is_directory (root_dentry cur))
          then Some (Null ENOTDIR)
          else
            let name_start := skip_separators name_start in
            if deref name_start =? 0 then Some (Found cur)
            else
              let '(name, name_end) := scan_name (tl name_start) in
              let name := hd 0 name_start :: name in
              get_dentry_loop fuel'
                (get_dentry_child_with_utf16le_name cur name case_type)
                name_end case_type
      end
  end.

(** [get_dentry_utf16le(wim, path, case_type)], from the root of the
    current image ([None] for an image without a root).  Every iteration
    but the last consumes a code unit of the path. *)
Definition get_dentry_utf16le (root : option dentry_tree) (path : list Z)
    (case_type : CASE_SENSITIVITY_TYPE) : option lookup_result :=
  get_dentry_loop (S (length path)) root path case_type.

(** [get_dentry(wim, path, case_type)] on a path that
    [tstr_get_utf16le] has converted. *)
Definition get_dentry (root : option dentry_tree) (path : list Z)
    (case_type : CASE_SENSITIVITY_TYPE) : option lookup_result :=
  get_dentry_utf16le root path case_type.

End Lookup.

End Dentry.
(** ** dentry.c: walking a tree, the subdirectory offsets, writing a tree *)

Module DentryTree.
Import Bytes Dentry.

Section Traversal.

(** The object [arg] points at. *)
Variable arg_t : Type.

(** A visitor gets a dentry with what is linked under it; it may write to
    the dentry and to the object behind [arg], and leaves the links of the
    tree alone.  It returns its [int], the dentry and the object. *)
Variable visitor : dentry_tree -> arg_t -> Z * wim_dentry * arg_t.

(** [do_for_dentry_in_tree]; the inner function is the loop
    [for_dentry_child(child, dentry)]. *)
Fixpoint do_for_dentry_in_tree (dentry : dentry_tree) (arg : arg_t)
    : Z * dentry_tree * arg_t :=
  match dentry with
  | Node _ children =>
      let '(ret, d, arg) := visitor dentry arg in
      if negb (ret =? 0) then (ret, Node d children, arg)
      else
        let '(ret, children, arg) :=
          (fix for_dentry_child (children : list dentry_tree) (arg : arg_t)
               : Z * list dentry_tree * arg_t :=
             match children with
             | [] => (0, [], arg)
             | child :: rest =>
                 let '(ret, child, arg) := do_for_dentry_in_tree child arg in
                 if negb (ret =? 0) then (ret, child :: rest, arg)
                 else
                   let '(ret, rest, arg) := for_dentry_child rest arg in
                   (ret, child :: rest, arg)
             end) children arg in
        (ret, Node d children, arg)
  end.

(** [do_for_dentry_in_tree_depth]; the inner function is the loop
    [for_dentry_child_postorder(child, dentry)]. *)
Fixpoint do_for_dentry_in_tree_depth (dentry : dentry_tree) (arg : arg_t)
    : Z * dentry_tree * arg_t :=
  match dentry with
  | Node d children =>
      let '(ret, children, arg) :=
        (fix for_dentry_child_postorder (children : list dentry_tree)
             (arg : arg_t) : Z * list dentry_tree * arg_t :=
           match children with
           | [] => (0, [], arg)
           | child :: rest =>
               let '(ret, child, arg) :=
                 do_for_dentry_in_tree_depth child arg in
               if negb (ret =? 0) then (ret, child :: rest, arg)
               else
                 let '(ret, rest, arg) :=
                   for_dentry_child_postorder rest arg in
                 (ret, child :: rest, arg)
           end) children arg in
      if negb (ret =? 0) then (ret, Node d children, arg)
      else
        let '(ret, d, arg) := visitor (Node d children) arg in
        (ret, Node d children, arg)
  end.

(** [for_dentry_in_tree(root, visitor, arg)]; [None] is the empty tree. *)
Definition for_dentry_in_tree (root : option dentry_tree) (arg : arg_t)
    : Z * option dentry_tree * arg_t :=
  match root with
  | None => (0, None, arg)
  | Some root =>
      let '(ret, root, arg) := do_for_dentry_in_tree root arg in
      (ret, Some root, arg)
  end.

(** [for_dentry_in_tree_depth(root, visitor, arg)]. *)
Definition for_dentry_in_tree_depth (root : option dentry_tree) (arg : arg_t)
    : Z * option dentry_tree * arg_t :=
  match root with
  | None => (0, None, arg)
  | Some root =>
      let '(ret, root, arg) := do_for_dentry_in_tree_depth root arg in
      (ret, Some root, arg)
  end.

End Traversal.

Arguments do_for_dentry_in_tree {arg_t} visitor dentry arg.
Arguments do_for_dentry_in_tree_depth {arg_t} visitor dentry arg.
Arguments for_dentry_in_tree {arg_t} visitor root arg.
Arguments for_dentry_in_tree_depth {arg_t} visitor root arg.

(** [dentry->subdir_offset = offset]. *)
Definition set_subdir_offset (d : wim_dentry) (offset : Z) : wim_dentry :=
  {| d_inode := d_inode d;
     file_name := file_name d;
     file_name_nbytes := file_name_nbytes d;
     short_name := short_name d;
     short_name_nbytes := short_name_nbytes d;
     subdir_offset := offset |}.

(** [dentry_calculate_subdir_offset(dentry, subdir_offset_p)]; the object
    behind the pointer is the [u64] offset. *)
Definition dentry_calculate_subdir_offset (dentry : dentry_tree)
    (subdir_offset : Z) : Z * wim_dentry * Z :=
  let d := root_dentry dentry in
  if dentry_is_directory d then
    let after_children :=
      fold_left (fun offset child =>
                   wrap64 (offset + dentry_out_total_length (root_dentry child)))
                (tree_children dentry) subdir_offset in
    (0, set_subdir_offset d subdir_offset, wrap64 (after_children + 8))
  else (0, set_subdir_offset d 0, subdir_offset).

(** [calculate_subdir_offsets(root, subdir_offset_p)]: the tree with its
    offsets set and the final [*subdir_offset_p]. *)
Definition calculate_subdir_offsets (root : option dentry_tree)
    (subdir_offset : Z) : option dentry_tree * Z :=
  let '(_, root, subdir_offset) :=
    for_dentry_in_tree dentry_calculate_subdir_offset root subdir_offset in
  (root, subdir_offset).

(** [write_dir_dentries(dir, pp)]; the object behind [pp] is the position
    [p], kept here with the bytes written so far. *)
Definition write_dir_dentries (dir : dentry_tree) (arg : Z * list byte)
    : Z * wim_dentry * (Z * list byte) :=
  let d := root_dentry dir in
  if negb (subdir_offset d =? 0) then
    let '(p, out) :=
      fold_left (fun '(p, out) child =>
                   let bytes := write_dentry (root_dentry child) p in
                   (p + Z.of_nat (length bytes), out ++ bytes))
                (tree_children dir) arg in
    (0, d, (p + 8, out ++ le_encode 8 0))
  else (0, d, arg).

(** [write_dentry_tree(root, p)]: the bytes written from [p] on and the
    pointer returned. *)
Definition write_dentry_tree (root : dentry_tree) (p : Z) : list byte * Z :=
  let bytes := write_dentry (root_dentry root) p in
  let p := p + Z.of_nat (length bytes) in
  let out := bytes ++ le_encode 8 0 in
  let p := p + 8 in
  let '(_, _, (p, out)) :=
    for_dentry_in_tree write_dir_dentries (Some root) (p, out) in
  (out, p).

End DentryTree.
(** ** xml_windows.c: the search for the Windows system root *)

Module XmlWindows.
Import Bytes Dentry.

(** The static name arrays, as code units. *)
Definition windows_name : list Z :=
  [0x57; 0x69; 0x6e; 0x64; 0x6f; 0x77; 0x73].
Definition system32_name : list Z :=
  [0x53; 0x79; 0x73; 0x74; 0x65; 0x6d; 0x33; 0x32].
Definition kernel32_name : list Z :=
  [0x6b; 0x65; 0x72; 0x6e; 0x65; 0x6c; 0x33; 0x32; 0x2e; 0x64; 0x6c; 0x6c].
Definition config_name : list Z := [0x63; 0x6f; 0x6e; 0x66; 0x69; 0x67].
Definition software_name : list Z :=
  [0x53; 0x4f; 0x46; 0x54; 0x57; 0x41; 0x52; 0x45].
Definition system_name : list Z := [0x53; 0x59; 0x53; 0x54; 0x45; 0x4d].

Section SystemRoot.

(** The upper-casing table and the default case policy are declared in
    files that are not among the sources. *)
Variable upcase : Z -> Z.
Variable default_ignore_case : bool.

(** The XML document of the image, and [do_set_windows_specific_info],
    which fills it from the files found: it reads blobs and registry hives
    through functions that are not among the sources.  It returns the
    status and the document. *)
Variable xml_document : Type.
Variable do_set_windows_specific_info :
  xml_document -> dentry_tree ->
  option dentry_tree -> option dentry_tree -> option dentry_tree ->
  Z * xml_document.

(** The macro [GET_CHILD(parent, child_name)]. *)
Definition GET_CHILD (parent : dentry_tree) (child_name : list Z)
    : option dentry_tree :=
  get_dentry_child_with_utf16le_name upcase default_ignore_case
    parent child_name WIMLIB_CASE_INSENSITIVE.

Definition is_default_systemroot (potential_systemroot : dentry_tree) : bool :=
  utf16le_strings_equal upcase
    (dentry_name_units (root_dentry potential_systemroot)) windows_name true.

(** The local variables [best_score], [best_systemroot], [best_kernel32],
    [best_software] and [best_system] of [set_windows_specific_info]. *)
Record best := {
  best_score : Z;
  best_systemroot : option dentry_tree;
  best_kernel32 : option dentry_tree;
  best_software : option dentry_tree;
  best_system : option dentry_tree
}.

(** [!!p] for a pointer. *)
Definition found (p : option dentry_tree) : Z :=
  match p with Some _ => 1 | None => 0 end.

(** The body of the loop [for_dentry_child(potential_systemroot, root)]. *)
Definition consider (b : best) (potential_systemroot : dentry_tree) : best :=
  if negb (dentry_is_directory (root_dentry potential_systemroot)) then b
  else
    match GET_CHILD potential_systemroot system32_name with
    | None => b
    | Some system32 =>
        let kernel32 := GET_CHILD system32 kernel32_name in
        let config := GET_CHILD system32 config_name in
        let software := match config with
                        | Some config => GET_CHILD config software_name
                        | None => None
                        end in
        let system := match config with
                      | Some config => GET_CHILD config system_name
                      | None => None
                      end in
        let score := found kernel32 + found software + found system in
        if score >=? best_score b then
          if (score >? best_score b)
             || is_default_systemroot potential_systemroot
          then {| best_score := score;
                  best_systemroot := Some potential_systemroot;
                  best_kernel32 := kernel32;
                  best_software := software;
                  best_system := system |}
          else b
        else b
    end.

(** [set_windows_specific_info(wim)] on the root of the current image and
    its XML document.  [for_dentry_child] visits the children of the root
    in the order of the list. *)
Definition set_windows_specific_info (root : option dentry_tree)
    (xml : xml_document) : Z * xml_document :=
  match root with
  | None => (0, xml)
  | Some root =>
      let b := fold_left consider (tree_children root)
                 {| best_score := 0;
                    best_systemroot := None;
                    best_kernel32 := None;
                    best_software := None;
                    best_system := None |} in
      if best_score b =? 0 then (0, xml)
      else
        match best_systemroot b with
        | Some systemroot =>
            do_set_windows_specific_info xml systemroot (best_kernel32 b)
              (best_software b) (best_system b)
        | None => (0, xml)
        end
  end.

End SystemRoot.

End XmlWindows.
(** ** xml_windows.c: language names and the processor architecture *)

Module XmlWindowsInfo.
Import Bytes.

(** The table [language_id_map]: the language IDs with the offsets of
    their names in [language_names]. *)
Definition language_id_map : list (Z * Z) :=
  [(0x0000, 0); (0x0001, 6); (0x0002, 12); (0x0003, 18);
   (0x0004, 24); (0x0005, 30); (0x0006, 36); (0x0007, 42);
   (0x0008, 48); (0x0009, 54); (0x000a, 60); (0x000b, 66);
   (0x000c, 72); (0x000d, 78); (0x000e, 84); (0x000f, 90);
   (0x0010, 96); (0x0011, 102); (0x0012, 108); (0x0013, 114);
   (0x0014, 120); (0x0015, 126); (0x0016, 132); (0x0017, 138);
   (0x0018, 144); (0x0019, 150); (0x001a, 156); (0x001b, 162);
   (0x001c, 168); (0x001d, 174); (0x001e, 180); (0x001f, 186);
   (0x0020, 192); (0x0021, 198); (0x0022, 204); (0x0023, 210);
   (0x0024, 216); (0x0025, 222); (0x0026, 228); (0x0027, 234);
   (0x0028, 240); (0x0029, 251); (0x002a, 257); (0x002b, 263);
   (0x002c, 269); (0x002d, 280); (0x002e, 286); (0x002f, 293);
   (0x0030, 299); (0x0031, 305); (0x0032, 311); (0x0033, 317);
   (0x0034, 323); (0x0035, 329); (0x0036, 335); (0x0037, 341);
   (0x0038, 347); (0x0039, 353); (0x003a, 359); (0x003b, 365);
   (0x003c, 371); (0x003d, 377); (0x003e, 384); (0x003f, 390);
   (0x0040, 396); (0x0041, 402); (0x0042, 408); (0x0043, 414);
   (0x0044, 425); (0x0045, 431); (0x0046, 437); (0x0047, 443);
   (0x0048, 449); (0x0049, 455); (0x004a, 461); (0x004b, 467);
   (0x004c, 473); (0x004d, 479); (0x004e, 485); (0x004f, 491);
   (0x0050, 497); (0x0051, 503); (0x0052, 509); (0x0053, 515);
   (0x0054, 521); (0x0055, 527); (0x0056, 533); (0x0057, 539);
   (0x0058, 546); (0x0059, 553); (0x005a, 564); (0x005b, 571);
   (0x005c, 577); (0x005d, 589); (0x005e, 600); (0x005f, 606);
   (0x0060, 618); (0x0061, 629); (0x0062, 635); (0x0063, 641);
   (0x0064, 647); (0x0065, 654); (0x0066, 660); (0x0067, 667);
   (0x0068, 678); (0x0069, 689); (0x006a, 696); (0x006b, 702);
   (0x006c, 709); (0x006d, 716); (0x006e, 722); (0x006f, 728);
   (0x0070, 734); (0x0071, 740); (0x0072, 751); (0x0073, 757);
   (0x0074, 763); (0x0075, 769); (0x0076, 776); (0x0077, 783);
   (0x0078, 789); (0x0079, 795); (0x007a, 803); (0x007c, 810);
   (0x007e, 817); (0x007f, 823); (0x0080, 824); (0x0081, 830);
   (0x0082, 836); (0x0083, 842); (0x0084, 848); (0x0085, 855);
   (0x0086, 862); (0x0087, 874); (0x0088, 880); (0x008c, 886);
   (0x0091, 893); (0x0092, 899); (0x0400, 910); (0x0401, 916);
   (0x0402, 922); (0x0403, 928); (0x0404, 934); (0x0405, 940);
   (0x0406, 946); (0x0407, 952); (0x0408, 958); (0x0409, 964);
   (0x040a, 970); (0x040b, 983); (0x040c, 989); (0x040d, 995);
   (0x040e, 1001); (0x040f, 1007); (0x0410, 1013); (0x0411, 1019);
   (0x0412, 1025); (0x0413, 1031); (0x0414, 1037); (0x0415, 1043);
   (0x0416, 1049); (0x0417, 1055); (0x0418, 1061); (0x0419, 1067);
   (0x041a, 1073); (0x041b, 1079); (0x041c, 1085); (0x041d, 1091);
   (0x041e, 1097); (0x041f, 1103); (0x0420, 1109); (0x0421, 1115);
   (0x0422, 1121); (0x0423, 1127); (0x0424, 1133); (0x0425, 1139);
   (0x0426, 1145); (0x0427, 1151); (0x0428, 1157); (0x0429, 1168);
   (0x042a, 1174); (0x042b, 1180); (0x042c, 1186); (0x042d, 1197);
   (0x042e, 1203); (0x042f, 1210); (0x0430, 1216); (0x0431, 1222);
   (0x0432, 1228); (0x0433, 1234); (0x0434, 1240); (0x0435, 1246);
   (0x0436, 1252); (0x0437, 1258); (0x0438, 1264); (0x0439, 1270);
   (0x043a, 1276); (0x043b, 1282); (0x043d, 1288); (0x043e, 1295);
   (0x043f, 1301); (0x0440, 1307); (0x0441, 1313); (0x0442, 1319);
   (0x0443, 1325); (0x0444, 1336); (0x0445, 1342); (0x0446, 1348);
   (0x0447, 1354); (0x0448, 1360); (0x0449, 1366); (0x044a, 1372);
   (0x044b, 1378); (0x044c, 1384); (0x044d, 1390); (0x044e, 1396);
   (0x044f, 1402); (0x0450, 1408); (0x0451, 1414); (0x0452, 1420);
   (0x0453, 1426); (0x0454, 1432); (0x0455, 1438); (0x0456, 1444);
   (0x0457, 1450); (0x0458, 1457); (0x0459, 1464); (0x045a, 1475);
   (0x045b, 1482); (0x045c, 1488); (0x045d, 1500); (0x045e, 1511);
   (0x045f, 1517); (0x0460, 1529); (0x0461, 1540); (0x0462, 1546);
   (0x0463, 1552); (0x0464, 1558); (0x0465, 1565); (0x0466, 1571);
   (0x0467, 1578); (0x0468, 1589); (0x0469, 1600); (0x046a, 1607);
   (0x046b, 1613); (0x046c, 1620); (0x046d, 1627); (0x046e, 1633);
   (0x046f, 1639); (0x0470, 1645); (0x0471, 1651); (0x0472, 1662);
   (0x0473, 1668); (0x0474, 1674); (0x0475, 1680); (0x0476, 1687);
   (0x0477, 1694); (0x0478, 1700); (0x0479, 1706); (0x047a, 1714);
   (0x047c, 1721); (0x047e, 1728); (0x0480, 1734); (0x0481, 1740);
   (0x0482, 1746); (0x0483, 1752); (0x0484, 1758); (0x0485, 1765);
   (0x0486, 1772); (0x0487, 1784); (0x0488, 1790); (0x048c, 1796);
   (0x0491, 1803); (0x0492, 1809); (0x0501, 1820); (0x05fe, 1829);
   (0x0800, 1839); (0x0801, 1845); (0x0803, 1851); (0x0804, 1866);
   (0x0807, 1872); (0x0809, 1878); (0x080a, 1884); (0x080c, 1890);
   (0x0810, 1896); (0x0813, 1902); (0x0814, 1908); (0x0816, 1914);
   (0x0818, 1920); (0x0819, 1926); (0x081a, 1932); (0x081d, 1943);
   (0x0820, 1949); (0x082c, 1955); (0x082e, 1966); (0x0832, 1973);
   (0x083b, 1979); (0x083c, 1985); (0x083e, 1991); (0x0843, 1997);
   (0x0845, 2008); (0x0846, 2014); (0x0849, 2025); (0x0850, 2031);
   (0x0859, 2042); (0x085d, 2053); (0x085f, 2064); (0x0860, 2076);
   (0x0861, 2087); (0x0867, 2093); (0x086b, 2104); (0x0873, 2111);
   (0x0901, 2117); (0x09ff, 2131); (0x0c00, 2141); (0x0c01, 2147);
   (0x0c04, 2153); (0x0c07, 2159); (0x0c09, 2165); (0x0c0a, 2171);
   (0x0c0c, 2177); (0x0c1a, 2183); (0x0c3b, 2194); (0x0c50, 2200);
   (0x0c51, 2211); (0x0c6b, 2217); (0x1000, 2224); (0x1001, 2235);
   (0x1004, 2241); (0x1007, 2247); (0x1009, 2253); (0x100a, 2259);
   (0x100c, 2265); (0x101a, 2271); (0x103b, 2277); (0x105f, 2284);
   (0x1401, 2296); (0x1404, 2302); (0x1407, 2308); (0x1409, 2314);
   (0x140a, 2320); (0x140c, 2326); (0x141a, 2332); (0x143b, 2343);
   (0x1801, 2350); (0x1809, 2356); (0x180a, 2362); (0x180c, 2368);
   (0x181a, 2374); (0x183b, 2385); (0x1c01, 2392); (0x1c09, 2398);
   (0x1c0a, 2404); (0x1c0c, 2410); (0x1c1a, 2417); (0x1c3b, 2428);
   (0x2000, 2435); (0x2001, 2441); (0x2009, 2447); (0x200a, 2453);
   (0x200c, 2459); (0x201a, 2465); (0x203b, 2476); (0x2400, 2483);
   (0x2401, 2489); (0x2409, 2495); (0x240a, 2502); (0x240c, 2508);
   (0x241a, 2514); (0x243b, 2525); (0x2800, 2532); (0x2801, 2538);
   (0x2809, 2544); (0x280a, 2550); (0x280c, 2556); (0x281a, 2562);
   (0x2c00, 2573); (0x2c01, 2579); (0x2c09, 2585); (0x2c0a, 2591);
   (0x2c0c, 2597); (0x2c1a, 2603); (0x3000, 2614); (0x3001, 2620);
   (0x3009, 2626); (0x300a, 2632); (0x300c, 2638); (0x301a, 2644);
   (0x3400, 2655); (0x3401, 2661); (0x3409, 2667); (0x340a, 2673);
   (0x340c, 2679); (0x3800, 2685); (0x3801, 2691); (0x3809, 2697);
   (0x380a, 2703); (0x380c, 2709); (0x3c00, 2715); (0x3c01, 2721);
   (0x3c09, 2727); (0x3c0a, 2733); (0x3c0c, 2739); (0x4000, 2745);
   (0x4001, 2751); (0x4009, 2757); (0x400a, 2763); (0x4400, 2769);
   (0x4409, 2775); (0x440a, 2781); (0x4800, 2787); (0x4809, 2793);
   (0x480a, 2799); (0x4c00, 2805); (0x4c09, 2811); (0x4c0a, 2817);
   (0x500a, 2823); (0x540a, 2829); (0x580a, 2835); (0x5c0a, 2842);
   (0x641a, 2848); (0x681a, 2859); (0x6c1a, 2870); (0x701a, 2881);
   (0x703b, 2892); (0x742c, 2899); (0x743b, 2910); (0x7804, 2917);
   (0x7814, 2923); (0x781a, 2929); (0x782c, 2940); (0x783b, 2951);
   (0x7843, 2958); (0x7850, 2969); (0x785d, 2975); (0x785f, 2986);
   (0x7c04, 2998); (0x7c14, 3004); (0x7c1a, 3010); (0x7c28, 3021);
   (0x7c2e, 3032); (0x7c3b, 3039); (0x7c43, 3046); (0x7c46, 3057);
   (0x7c50, 3068); (0x7c59, 3079); (0x7c5c, 3090); (0x7c5d, 3102);
   (0x7c5f, 3113); (0x7c67, 3125); (0x7c68, 3136); (0x7c86, 3147);
   (0x7c92, 3159)].

(** The names in the string literal that initialises [language_names],
    in its order; the literal ends each of them with a zero character and
    fills the 3170 characters of the array, so that no terminator of the
    literal itself is stored. *)
Definition language_name_list : list string :=
  ["en-US"; "ar-SA"; "bg-BG"; "ca-ES"; "zh-CN"; "cs-CZ"; "da-DK";
   "de-DE"; "el-GR"; "en-US"; "es-ES"; "fi-FI"; "fr-FR"; "he-IL";
   "hu-HU"; "is-IS"; "it-IT"; "ja-JP"; "ko-KR"; "nl-NL"; "nb-NO";
   "pl-PL"; "pt-BR"; "rm-CH"; "ro-RO"; "ru-RU"; "hr-HR"; "sk-SK";
   "sq-AL"; "sv-SE"; "th-TH"; "tr-TR"; "ur-PK"; "id-ID"; "uk-UA";
   "be-BY"; "sl-SI"; "et-EE"; "lv-LV"; "lt-LT"; "tg-Cyrl-TJ"; "fa-IR";
   "vi-VN"; "hy-AM"; "az-Latn-AZ"; "eu-ES"; "hsb-DE"; "mk-MK"; "st-ZA";
   "ts-ZA"; "tn-ZA"; "ve-ZA"; "xh-ZA"; "zu-ZA"; "af-ZA"; "ka-GE";
   "fo-FO"; "hi-IN"; "mt-MT"; "se-NO"; "ga-IE"; "yi-001"; "ms-MY";
   "kk-KZ"; "ky-KG"; "sw-KE"; "tk-TM"; "uz-Latn-UZ"; "tt-RU"; "bn-BD";
   "pa-IN"; "gu-IN"; "or-IN"; "ta-IN"; "te-IN"; "kn-IN"; "ml-IN";
   "as-IN"; "mr-IN"; "sa-IN"; "mn-MN"; "bo-CN"; "cy-GB"; "km-KH";
   "lo-LA"; "my-MM"; "gl-ES"; "kok-IN"; "mni-IN"; "sd-Arab-PK";
   "syr-SY"; "si-LK"; "chr-Cher-US"; "iu-Latn-CA"; "am-ET";
   "tzm-Latn-DZ"; "ks-Arab-IN"; "ne-NP"; "fy-NL"; "ps-AF"; "fil-PH";
   "dv-MV"; "bin-NG"; "ff-Latn-SN"; "ha-Latn-NG"; "ibb-NG"; "yo-NG";
   "quz-BO"; "nso-ZA"; "ba-RU"; "lb-LU"; "kl-GL"; "ig-NG"; "kr-Latn-NG";
   "om-ET"; "ti-ER"; "gn-PY"; "haw-US"; "la-001"; "so-SO"; "ii-CN";
   "pap-029"; "arn-CL"; "moh-CA"; "br-FR"; String.EmptyString; "ug-CN"; "mi-NZ";
   "oc-FR"; "co-FR"; "gsw-CH"; "sah-RU"; "quc-Latn-GT"; "rw-RW";
   "wo-SN"; "prs-AF"; "gd-GB"; "ku-Arab-IQ"; "en-US"; "ar-SA"; "bg-BG";
   "ca-ES"; "zh-TW"; "cs-CZ"; "da-DK"; "de-DE"; "el-GR"; "en-US";
   "es-ES_tradnl"; "fi-FI"; "fr-FR"; "he-IL"; "hu-HU"; "is-IS"; "it-IT";
   "ja-JP"; "ko-KR"; "nl-NL"; "nb-NO"; "pl-PL"; "pt-BR"; "rm-CH";
   "ro-RO"; "ru-RU"; "hr-HR"; "sk-SK"; "sq-AL"; "sv-SE"; "th-TH";
   "tr-TR"; "ur-PK"; "id-ID"; "uk-UA"; "be-BY"; "sl-SI"; "et-EE";
   "lv-LV"; "lt-LT"; "tg-Cyrl-TJ"; "fa-IR"; "vi-VN"; "hy-AM";
   "az-Latn-AZ"; "eu-ES"; "hsb-DE"; "mk-MK"; "st-ZA"; "ts-ZA"; "tn-ZA";
   "ve-ZA"; "xh-ZA"; "zu-ZA"; "af-ZA"; "ka-GE"; "fo-FO"; "hi-IN";
   "mt-MT"; "se-NO"; "yi-001"; "ms-MY"; "kk-KZ"; "ky-KG"; "sw-KE";
   "tk-TM"; "uz-Latn-UZ"; "tt-RU"; "bn-IN"; "pa-IN"; "gu-IN"; "or-IN";
   "ta-IN"; "te-IN"; "kn-IN"; "ml-IN"; "as-IN"; "mr-IN"; "sa-IN";
   "mn-MN"; "bo-CN"; "cy-GB"; "km-KH"; "lo-LA"; "my-MM"; "gl-ES";
   "kok-IN"; "mni-IN"; "sd-Deva-IN"; "syr-SY"; "si-LK"; "chr-Cher-US";
   "iu-Cans-CA"; "am-ET"; "tzm-Arab-MA"; "ks-Arab-IN"; "ne-NP"; "fy-NL";
   "ps-AF"; "fil-PH"; "dv-MV"; "bin-NG"; "ff-Latn-NG"; "ha-Latn-NG";
   "ibb-NG"; "yo-NG"; "quz-BO"; "nso-ZA"; "ba-RU"; "lb-LU"; "kl-GL";
   "ig-NG"; "kr-Latn-NG"; "om-ET"; "ti-ET"; "gn-PY"; "haw-US"; "la-001";
   "so-SO"; "ii-CN"; "pap-029"; "arn-CL"; "moh-CA"; "br-FR"; "ug-CN";
   "mi-NZ"; "oc-FR"; "co-FR"; "gsw-FR"; "sah-RU"; "quc-Latn-GT";
   "rw-RW"; "wo-SN"; "prs-AF"; "gd-GB"; "ku-Arab-IQ"; "qps-ploc";
   "qps-ploca"; "en-US"; "ar-IQ"; "ca-ES-valencia"; "zh-CN"; "de-CH";
   "en-GB"; "es-MX"; "fr-BE"; "it-CH"; "nl-BE"; "nn-NO"; "pt-PT";
   "ro-MD"; "ru-MD"; "sr-Latn-CS"; "sv-FI"; "ur-IN"; "az-Cyrl-AZ";
   "dsb-DE"; "tn-BW"; "se-SE"; "ga-IE"; "ms-BN"; "uz-Cyrl-UZ"; "bn-BD";
   "pa-Arab-PK"; "ta-LK"; "mn-Mong-CN"; "sd-Arab-PK"; "iu-Latn-CA";
   "tzm-Latn-DZ"; "ks-Deva-IN"; "ne-IN"; "ff-Latn-SN"; "quz-EC";
   "ti-ER"; "qps-Latn-x-sh"; "qps-plocm"; "en-US"; "ar-EG"; "zh-HK";
   "de-AT"; "en-AU"; "es-ES"; "fr-CA"; "sr-Cyrl-CS"; "se-FI";
   "mn-Mong-MN"; "dz-BT"; "quz-PE"; "ks-Arab-IN"; "ar-LY"; "zh-SG";
   "de-LU"; "en-CA"; "es-GT"; "fr-CH"; "hr-BA"; "smj-NO"; "tzm-Tfng-MA";
   "ar-DZ"; "zh-MO"; "de-LI"; "en-NZ"; "es-CR"; "fr-LU"; "bs-Latn-BA";
   "smj-SE"; "ar-MA"; "en-IE"; "es-PA"; "fr-MC"; "sr-Latn-BA"; "sma-NO";
   "ar-TN"; "en-ZA"; "es-DO"; "fr-029"; "sr-Cyrl-BA"; "sma-SE"; "en-US";
   "ar-OM"; "en-JM"; "es-VE"; "fr-RE"; "bs-Cyrl-BA"; "sms-FI"; "en-US";
   "ar-YE"; "en-029"; "es-CO"; "fr-CD"; "sr-Latn-RS"; "smn-FI"; "en-US";
   "ar-SY"; "en-BZ"; "es-PE"; "fr-SN"; "sr-Cyrl-RS"; "en-US"; "ar-JO";
   "en-TT"; "es-AR"; "fr-CM"; "sr-Latn-ME"; "en-US"; "ar-LB"; "en-ZW";
   "es-EC"; "fr-CI"; "sr-Cyrl-ME"; "en-US"; "ar-KW"; "en-PH"; "es-CL";
   "fr-ML"; "en-US"; "ar-AE"; "en-ID"; "es-UY"; "fr-MA"; "en-US";
   "ar-BH"; "en-HK"; "es-PY"; "fr-HT"; "en-US"; "ar-QA"; "en-IN";
   "es-BO"; "en-US"; "en-MY"; "es-SV"; "en-US"; "en-SG"; "es-HN";
   "en-US"; "en-AE"; "es-NI"; "es-PR"; "es-US"; "es-419"; "es-CU";
   "bs-Cyrl-BA"; "bs-Latn-BA"; "sr-Cyrl-RS"; "sr-Latn-RS"; "smn-FI";
   "az-Cyrl-AZ"; "sms-FI"; "zh-CN"; "nn-NO"; "bs-Latn-BA"; "az-Latn-AZ";
   "sma-SE"; "uz-Cyrl-UZ"; "mn-MN"; "iu-Cans-CA"; "tzm-Tfng-MA";
   "zh-HK"; "nb-NO"; "sr-Latn-RS"; "tg-Cyrl-TJ"; "dsb-DE"; "smj-SE";
   "uz-Latn-UZ"; "pa-Arab-PK"; "mn-Mong-CN"; "sd-Arab-PK";
   "chr-Cher-US"; "iu-Latn-CA"; "tzm-Latn-DZ"; "ff-Latn-SN";
   "ha-Latn-NG"; "quc-Latn-GT"; "ku-Arab-IQ"]%string.

Definition language_names : list byte :=
  concat (map (fun name => String.list_byte_of_string name ++ [x00])
              language_name_list).

(** The loop of [language_id_to_name]; [m] is computed in [int].  A
    pointer into [language_names] is the index it points at, [Some None]
    is [NULL], and [None] is the end of the fuel or a read outside the
    table. *)
Fixpoint language_id_to_name_loop (fuel : nat) (id l r : Z)
    : option (option Z) :=
  match fuel with
  | O => None
  | S fuel' =>
      let m := Z.quot (wrap32s (l + r)) 2 in
      if m <? 0 then None
      else
        match language_id_map !! Z.to_nat m with
        | None => None
        | Some (map_id, name_start_offset) =>
            if id <? map_id then
              let r := wrap32s (m - 1) in
              if l <=? r then language_id_to_name_loop fuel' id l r
              else Some None
            else if id >? map_id then
              let l := wrap32s (m + 1) in
              if l <=? r then language_id_to_name_loop fuel' id l r
              else Some None
            else Some (Some name_start_offset)
        end
  end.

(** [language_id_to_name(id)]. *)
Definition language_id_to_name (id : Z) : option (option Z) :=
  language_id_to_name_loop (length language_id_map) id 0
    (Z.of_nat (length language_id_map) - 1).

(** The C string that starts at [offset] of an array: the characters
    before the first zero character, if there is one. *)
Fixpoint c_string (chars : list byte) : option (list byte) :=
  match chars with
  | [] => None
  | c :: rest =>
      if bool_decide (c = x00) then Some []
      else option_map (cons c) (c_string rest)
  end.

Definition c_string_at (array : list byte) (offset : Z)
    : option (list byte) :=
  if (0 <=? offset) && (offset <? Z.of_nat (length array))
  then c_string (drop (Z.to_nat offset) array)
  else None.

Definition IMAGE_FILE_MACHINE_I386 : Z := 0x014C.
Definition IMAGE_FILE_MACHINE_ARM : Z := 0x01C0.
Definition IMAGE_FILE_MACHINE_ARMV7 : Z := 0x01C4.
Definition IMAGE_FILE_MACHINE_THUMB : Z := 0x01C2.
Definition IMAGE_FILE_MACHINE_IA64 : Z := 0x0200.
Definition IMAGE_FILE_MACHINE_AMD64 : Z := 0x8664.
Definition IMAGE_FILE_MACHINE_ARM64 : Z := 0xAA64.

Definition PROCESSOR_ARCHITECTURE_INTEL : Z := 0.
Definition PROCESSOR_ARCHITECTURE_ARM : Z := 5.
Definition PROCESSOR_ARCHITECTURE_IA64 : Z := 6.
Definition PROCESSOR_ARCHITECTURE_AMD64 : Z := 9.
Definition PROCESSOR_ARCHITECTURE_ARM64 : Z := 12.

(** [pe_arch_to_windows_arch(pe_arch)]. *)
Definition pe_arch_to_windows_arch (pe_arch : Z) : Z :=
  if pe_arch =? IMAGE_FILE_MACHINE_I386 then PROCESSOR_ARCHITECTURE_INTEL
  else if (pe_arch =? IMAGE_FILE_MACHINE_ARM)
          || (pe_arch =? IMAGE_FILE_MACHINE_ARMV7)
          || (pe_arch =? IMAGE_FILE_MACHINE_THUMB)
  then PROCESSOR_ARCHITECTURE_ARM
  else if pe_arch =? IMAGE_FILE_MACHINE_IA64 then PROCESSOR_ARCHITECTURE_IA64
  else if pe_arch =? IMAGE_FILE_MACHINE_AMD64
  then PROCESSOR_ARCHITECTURE_AMD64
  else if pe_arch =? IMAGE_FILE_MACHINE_ARM64
  then PROCESSOR_ARCHITECTURE_ARM64
  else -1.

(** A little-endian load of [n] bytes at [contents + off]; [None] when
    it would read outside the [size] bytes of [contents]. *)
Definition load_le (contents : list byte) (off : Z) (n : nat) : option Z :=
  if (0 <=? off) && (off + Z.of_nat n <=? Z.of_nat (length contents))
  then Some (get_le contents off n)
  else None.

(** What [set_info_from_kernel32] does with the XML document. *)
Inductive kernel32_outcome :=
  | SetArch (arch : Z)        (** [WINDOWS/ARCH] is set to [arch] *)
  | WarnArch (pe_arch : Z)    (** the architecture value is not recognized *)
  | WarnInvalid.              (** [kernel32.dll] is not a valid PE binary *)

(** [set_info_from_kernel32(ctx, contents, size)]; [None] is a load
    outside [contents]. *)
Definition set_info_from_kernel32 (contents : list byte)
    : option kernel32_outcome :=
  let size := Z.of_nat (length contents) in
  if size <? 0x40 then Some WarnInvalid
  else
    match load_le contents 0x3C 4 with
    | None => None
    | Some e_lfanew =>
        if (e_lfanew >? size) || (wrap64 (size - e_lfanew) <? 6)
           || negb (Z.land e_lfanew 3 =? 0)
        then Some WarnInvalid
        else
          match load_le contents e_lfanew 4 with
          | None => None
          | Some signature =>
              if negb (signature =? 0x00004550) then Some WarnInvalid
              else
                match load_le contents (e_lfanew + 4) 2 with
                | None => None
                | Some pe_arch =>
                    let arch := pe_arch_to_windows_arch pe_arch in
                    if arch >=? 0 then Some (SetArch arch)
                    else Some (WarnArch pe_arch)
                end
          end
    end.

End XmlWindowsInfo.
(** * Part II: properties *)

(** ** Facts about bytes and little-endian fields *)

Module BytesFacts.
Import Bytes.

Lemma u8_to_Z_range (b : byte) : 0 <= u8_to_Z b < 256.
Proof.
  unfold u8_to_Z. pose proof (Byte.to_N_bounded b). lia.
Qed.

Lemma u8_of_to (b : byte) : u8_of_Z (u8_to_Z b) = b.
Proof.
  unfold u8_of_Z, u8_to_Z.
  pose proof (Byte.to_N_bounded b) as Hb.
  rewrite Z.mod_small by lia.
  rewrite N2Z.id, Byte.of_to_N. reflexivity.
Qed.

Lemma u8_to_of (z : Z) : u8_to_Z (u8_of_Z z) = z mod 256.
Proof.
  unfold u8_of_Z, u8_to_Z.
  pose proof (Z.mod_pos_bound z 256 ltac:(lia)) as Hz.
  destruct (Byte.of_N (Z.to_N (z mod 256))) as [b|] eqn:E.
  - apply Byte.to_of_N in E. simpl. rewrite E. lia.
  - apply Byte.of_N_None_iff in E. lia.
Qed.

Lemma u8_to_Z_inj (a b : byte) : u8_to_Z a = u8_to_Z b -> a = b.
Proof.
  intros H. rewrite <- (u8_of_to a), <- (u8_of_to b). congruence.
Qed.

Lemma length_le_encode n z : length (le_encode n z) = n.
Proof. revert z; induction n; intros; simpl; auto. Qed.

Lemma le_decode_range bs : 0 <= le_decode bs < 256 ^ Z.of_nat (length bs).
Proof.
  induction bs as [|b bs IH].
  - simpl. lia.
  - cbn [le_decode length]. rewrite Nat2Z.inj_succ, Z.pow_succ_r by lia.
    pose proof (u8_to_Z_range b). lia.
Qed.

Lemma le_encode_decode bs : le_encode (length bs) (le_decode bs) = bs.
Proof.
  induction bs as [|b bs IH]; [reflexivity|].
  cbn [le_decode length le_encode].
  pose proof (u8_to_Z_range b) as Hb.
  f_equal.
  - assert (E : (u8_to_Z b + 256 * le_decode bs) mod 256 = u8_to_Z b mod 256).
    { rewrite (Z.mul_comm 256). apply Z_mod_plus_full. }
    unfold u8_of_Z. rewrite E. exact (u8_of_to b).
  - assert (E : (u8_to_Z b + 256 * le_decode bs) / 256 = le_decode bs).
    { rewrite (Z.mul_comm 256), Z.div_add by lia.
      rewrite Z.div_small by lia. lia. }
    rewrite E. exact IH.
Qed.

Lemma le_decode_encode n z : le_decode (le_encode n z) = z mod 256 ^ Z.of_nat n.
Proof.
  revert z; induction n as [|n IH]; intros z.
  - simpl. rewrite Z.mod_1_r. reflexivity.
  - cbn [le_encode le_decode]. rewrite IH, u8_to_of.
    rewrite Nat2Z.inj_succ, Z.pow_succ_r by lia.
    rewrite (Z.rem_mul_r z 256 (256 ^ Z.of_nat n)) by lia. lia.
Qed.

Lemma length_put_le buf off n z : length (put_le buf off n z) = length buf.
Proof. unfold put_le. apply length_inserts. Qed.

Lemma put_le_lookup_out buf off n z (j : nat) :
  (j < Z.to_nat off \/ Z.to_nat off + n <= j)%nat ->
  put_le buf off n z !!! j = buf !!! j.
Proof.
  unfold put_le. intros [H|H].
  - apply list_lookup_total_inserts_lt. exact H.
  - apply list_lookup_total_inserts_ge. rewrite length_le_encode. exact H.
Qed.

Lemma put_le_lookup_in buf off n z (m : nat) :
  (m < n)%nat -> (Z.to_nat off + n <= length buf)%nat ->
  put_le buf off n z !!! (Z.to_nat off + m)%nat = le_encode n z !!! m.
Proof.
  unfold put_le. intros Hm Hlen.
  rewrite list_lookup_total_inserts; rewrite ?length_le_encode; try lia.
  f_equal. lia.
Qed.

Lemma get_le_ext (X Y : list byte) off n :
  (forall m : nat, (m < n)%nat ->
     X !!! (Z.to_nat off + m)%nat = Y !!! (Z.to_nat off + m)%nat) ->
  get_le X off n = get_le Y off n.
Proof.
  intros H. unfold get_le. f_equal.
  apply map_ext_in. intros k Hk. apply in_seq in Hk. apply H. lia.
Qed.

Lemma map_lookup_seq (l : list byte) :
  map (fun k => l !!! k) (seq 0 (length l)) = l.
Proof.
  induction l as [|b l IH]; [reflexivity|].
  cbn [length seq map]. f_equal.
  rewrite <- seq_shift, map_map. exact IH.
Qed.

Lemma get_put_le buf off n z :
  (Z.to_nat off + n <= length buf)%nat ->
  get_le (put_le buf off n z) off n = z mod 256 ^ Z.of_nat n.
Proof.
  intros Hlen. rewrite <- le_decode_encode. unfold get_le. f_equal.
  rewrite <- (map_lookup_seq (le_encode n z)), length_le_encode.
  apply map_ext_in. intros k Hk. apply in_seq in Hk.
  apply put_le_lookup_in; lia.
Qed.

Lemma get_le_range buf off n : 0 <= get_le buf off n < 256 ^ Z.of_nat n.
Proof.
  unfold get_le.
  pose proof (le_decode_range (map (fun k => buf !!! (Z.to_nat off + k)%nat) (seq 0 n))) as H.
  rewrite length_map, length_seq in H. exact H.
Qed.

(** Writing back the value that was read leaves the bytes as they were. *)
Lemma le_encode_get_le buf off n (m : nat) :
  (m < n)%nat ->
  le_encode n (get_le buf off n) !!! m = buf !!! (Z.to_nat off + m)%nat.
Proof.
  intros Hm. unfold get_le.
  set (bs := map (fun k => buf !!! (Z.to_nat off + k)%nat) (seq 0 n)).
  assert (Hl : length bs = n) by (unfold bs; rewrite length_map, length_seq; reflexivity).
  rewrite <- Hl at 1. rewrite le_encode_decode.
  unfold bs. rewrite list_lookup_total_alt, list_lookup_fmap.
  rewrite lookup_seq_lt by lia. reflexivity.
Qed.

Lemma list_eq_total (X Y : list byte) :
  length X = length Y -> (forall j : nat, X !!! j = Y !!! j) -> X = Y.
Proof.
  intros Hl H. apply list_eq_same_length with (n := length X); auto.
  intros i x y Hi Hx Hy.
  pose proof (H i) as Hi'.
  rewrite (list_lookup_total_correct _ _ _ Hx) in Hi'.
  rewrite (list_lookup_total_correct _ _ _ Hy) in Hi'. exact Hi'.
Qed.

End BytesFacts.
(** ** Tables in increasing order *)

Module TableFacts.

(** Every entry is below the next one. *)
Fixpoint increasing (l : list Z) : bool :=
  match l with
  | a :: (b :: _) as rest => (a <? b) && increasing rest
  | _ => true
  end.

Lemma increasing_lookup l : increasing l = true ->
  forall i j : nat, (i < j < length l)%nat -> l !!! i < l !!! j.
Proof.
  induction l as [|a l IH]; intros H i j Hij; [cbn in Hij; lia|].
  destruct l as [|b l]; [cbn in Hij; lia|].
  cbn [increasing] in H. apply andb_true_iff in H as [Hab Hrest].
  apply Z.ltb_lt in Hab.
  destruct j as [|j]; [lia|]. cbn [length] in Hij.
  destruct i as [|i].
  - change ((a :: b :: l) !!! 0%nat) with a.
    change ((a :: b :: l) !!! S j) with ((b :: l) !!! j).
    destruct j as [|j]; [exact Hab|].
    specialize (IH Hrest 0%nat (S j) ltac:(cbn [length]; lia)).
    change ((b :: l) !!! 0%nat) with b in IH. lia.
  - change ((a :: b :: l) !!! S i) with ((b :: l) !!! i).
    change ((a :: b :: l) !!! S j) with ((b :: l) !!! j).
    apply IH; [exact Hrest|cbn [length]; lia].
Qed.

End TableFacts.

(** ** Fields that lie inside a buffer *)

Module FieldFacts.
Import Bytes BytesFacts.

Lemma length_field (buf : list byte) off (n : nat) :
  0 <= off -> off + Z.of_nat n <= Z.of_nat (length buf) ->
  length (field buf off n) = n.
Proof.
  intros H0 H1. unfold field. rewrite length_take, length_drop. lia.
Qed.

Lemma field_lookup (buf : list byte) off (n m : nat) :
  (m < n)%nat -> field buf off n !!! m = buf !!! (Z.to_nat off + m)%nat.
Proof.
  intros Hm. unfold field.
  rewrite !list_lookup_total_alt, lookup_take_lt, lookup_drop by exact Hm.
  reflexivity.
Qed.

(** The bytes of a field are the little-endian encoding of its value. *)
Lemma field_le_encode (buf : list byte) off (n : nat) :
  0 <= off -> off + Z.of_nat n <= Z.of_nat (length buf) ->
  field buf off n = le_encode n (get_le buf off n).
Proof.
  intros H0 H1.
  apply list_eq_same_length with (n := n).
  - apply length_le_encode.
  - apply length_field; assumption.
  - intros i x y Hi Hx Hy.
    apply list_lookup_total_correct in Hx, Hy.
    rewrite field_lookup in Hx by exact Hi.
    rewrite le_encode_get_le in Hy by exact Hi. congruence.
Qed.

Lemma get_le_field (buf : list byte) off (n : nat) :
  0 <= off -> off + Z.of_nat n <= Z.of_nat (length buf) ->
  get_le buf off n = le_decode (field buf off n).
Proof.
  intros H0 H1. rewrite (field_le_encode buf off n H0 H1).
  rewrite le_decode_encode. symmetry. apply Z.mod_small.
  apply get_le_range.
Qed.

End FieldFacts.

(** ** lzms-common.c: the x86 filter undoes itself *)

Module LzmsCommonFacts.
Import Bytes BytesFacts LzmsCommon.

Lemma wrap32s_small z : - 2 ^ 31 <= z < 2 ^ 31 -> wrap32s z = z.
Proof. intros H. unfold wrap32s. rewrite Z.mod_small; lia. Qed.

Lemma wrap32_add_sub n i : 0 <= n < 2 ^ 32 -> wrap32 (wrap32 (n + i) - i) = n.
Proof.
  intros H. unfold wrap32.
  rewrite Zminus_mod_idemp_l.
  replace (n + i - i) with n by lia.
  apply Z.mod_small; lia.
Qed.

Section FilterFacts.

Variable GOOD TRANS : Z.

Abbreviation cls := (lzms_may_x86_translate TRANS).
Abbreviation translation := (lzms_maybe_do_x86_translation GOOD).
Abbreviation step := (filter_step GOOD TRANS).
Abbreviation loop := (filter_loop GOOD TRANS).

Ltac cls_cases :=
  unfold lzms_may_x86_translate;
  repeat match goal with
         | |- context [Z.eqb ?a ?b] => destruct (Z.eqb_spec a b)
         end;
  cbn [orb andb].

(** The opcode length is 1, 2, 3 or 5; only lengths up to 3 translate. *)
Lemma cls_length p0 p1 p2 n m :
  cls p0 p1 p2 = (n, m) ->
  (n = 1 \/ n = 2 \/ n = 3 \/ n = 5) /\ (m <> 0 -> n <= 3).
Proof.
  cls_cases; intros E; inversion E; subst; lia.
Qed.

Lemma cls_one p0 p1 p2 m : cls p0 p1 p2 = (1, m) -> m <> 0 -> p0 = 0xe8.
Proof.
  cls_cases; intros E; inversion E; subst; try lia; congruence.
Qed.

Lemma cls_two p0 p1 p2 m : cls p0 p1 p2 = (2, m) -> p0 = 0xff /\ p1 = 0x15.
Proof.
  cls_cases; intros E; inversion E; subst; lia.
Qed.

(** The classification reads [p[1]] and [p[2]] only behind opcodes that the
    filter does not rewrite. *)
Lemma cls_ext p0 p1 p2 q1 q2 :
  (q1 = p1 \/ p0 = 0xe8) ->
  (q2 = p2 \/ p0 = 0xe8 \/ (p0 = 0xff /\ p1 = 0x15) \/ p1 = 0xe8) ->
  cls p0 q1 q2 = cls p0 p1 p2.
Proof.
  intros H1 H2.
  destruct H1 as [->|H1]; destruct H2 as [->|[H2|[[H2 H2']|H2]]]; subst;
    cls_cases; try reflexivity; try lia.
Qed.

Lemma step_unfold st (K : nat) undo :
  step st (Z.of_nat K) undo =
    let d := fs_data st in
    let '(n, m) := cls (u8_to_Z (d !!! K)) (u8_to_Z (d !!! (K + 1)%nat))
                       (u8_to_Z (d !!! (K + 2)%nat)) in
    if m =? 0 then (st, wrap32s (Z.of_nat K + n))
    else translation st (Z.of_nat K) n m undo.
Proof.
  unfold filter_step.
  replace (Z.to_nat (Z.of_nat K + 0)) with K by lia.
  replace (Z.to_nat (Z.of_nat K + 1)) with (K + 1)%nat by lia.
  replace (Z.to_nat (Z.of_nat K + 2)) with (K + 2)%nat by lia.
  reflexivity.
Qed.

(** What one forward step changes: nothing at or below [i], nothing from
    the next [i] on, and the byte at [i + 1] only behind a call opcode. *)
Lemma step_fwd_frame st (K : nat) stS i' :
  Z.of_nat K < 2 ^ 31 - 11 ->
  (K + 11 < length (fs_data st))%nat ->
  step st (Z.of_nat K) false = (stS, i') ->
  exists K' : nat, i' = Z.of_nat K' /\ (K < K' <= K + 9)%nat /\
    length (fs_data stS) = length (fs_data st) /\
    (forall j : nat, (j <= K \/ K' <= j)%nat ->
       fs_data stS !!! j = fs_data st !!! j) /\
    (fs_data stS !!! (K + 1)%nat = fs_data st !!! (K + 1)%nat \/
     u8_to_Z (fs_data st !!! K) = 0xe8).
Proof.
  intros HK Hlen. rewrite step_unfold. cbv zeta.
  destruct (cls _ _ _) as [n m] eqn:Ec.
  destruct (cls_length _ _ _ _ _ Ec) as [Hn Hm].
  destruct (Z.eqb_spec m 0) as [->|Hm0].
  - intros E. inversion E; subst. clear E.
    exists (K + Z.to_nat n)%nat. rewrite wrap32s_small by lia.
    repeat split; try lia; auto.
  - specialize (Hm Hm0).
    unfold lzms_maybe_do_x86_translation.
    rewrite (wrap32s_small (Z.of_nat K + n + 4 - 1)) by lia.
    rewrite (wrap32s_small (Z.of_nat K + n + 4 - 1 + 1)) by lia.
    intros E. inversion E; subst. clear E. cbn [fs_data].
    exists (K + Z.to_nat n + 4)%nat.
    split; [lia|]. split; [lia|].
    destruct (wrap32s _ <=? m).
    + rewrite length_put_le. split; [reflexivity|]. split.
      * intros j Hj. apply put_le_lookup_out. lia.
      * destruct (Z.eq_dec n 1) as [->|Hn1].
        { right. eapply cls_one; eauto. }
        { left. apply put_le_lookup_out. lia. }
    + auto.
Qed.

(** The undo step replays the forward step: it classifies the same opcode
    from the translated bytes, takes the same decision and puts the operand
    back. *)
Lemma step_sim st (K K' : nat) stS (X : list byte) :
  Z.of_nat K < 2 ^ 31 - 11 ->
  (K + 11 < length (fs_data st))%nat ->
  step st (Z.of_nat K) false = (stS, Z.of_nat K') ->
  length X = length (fs_data st) ->
  (forall j : nat, (K <= j <= K')%nat -> X !!! j = fs_data stS !!! j) ->
  (X !!! (K' + 1)%nat = fs_data stS !!! (K' + 1)%nat \/
   u8_to_Z (fs_data stS !!! K') = 0xe8) ->
  exists X' : list byte,
    step {| fs_data := X;
            fs_closest_target_usage := fs_closest_target_usage st;
            fs_last_target_usages := fs_last_target_usages st |}
         (Z.of_nat K) true
    = ({| fs_data := X';
          fs_closest_target_usage := fs_closest_target_usage stS;
          fs_last_target_usages := fs_last_target_usages stS |}, Z.of_nat K') /\
    length X' = length X /\
    (forall j : nat, (j < K \/ K' <= j)%nat -> X' !!! j = X !!! j) /\
    (forall j : nat, (K <= j < K')%nat -> X' !!! j = fs_data st !!! j).
Proof.
  intros HK Hlen Hstep HlX HX HX1.
  rewrite step_unfold in Hstep. rewrite step_unfold. cbv zeta in *.
  cbn [fs_data].
  destruct (cls (u8_to_Z (fs_data st !!! K)) _ _) as [n m] eqn:Ec.
  destruct (cls_length _ _ _ _ _ Ec) as [Hn Hm].
  destruct (Z.eqb_spec m 0) as [->|Hm0].
  - (* no translation at this opcode *)
    inversion Hstep; subst stS. clear Hstep.
    rewrite wrap32s_small in H1 by lia.
    assert (HK' : K' = (K + Z.to_nat n)%nat) by lia. clear H1.
    assert (Ecx : cls (u8_to_Z (X !!! K)) (u8_to_Z (X !!! (K + 1)%nat))
                      (u8_to_Z (X !!! (K + 2)%nat)) = (n, 0)).
    { rewrite <- Ec. rewrite (HX K) by lia. apply cls_ext.
      - left. rewrite (HX (K + 1)%nat) by lia. reflexivity.
      - destruct (Z.eq_dec n 1) as [->|Hn1].
        + replace (K + 2)%nat with (K' + 1)%nat by lia.
          destruct HX1 as [->|HX1].
          * left. reflexivity.
          * right. right. right.
            replace (K + 1)%nat with K' by lia. exact HX1.
        + left. rewrite (HX (K + 2)%nat) by lia. reflexivity. }
    rewrite Ecx. cbn [Z.eqb]. exists X.
    rewrite wrap32s_small by lia.
    split; [do 2 f_equal; lia|].
    split; [reflexivity|]. split; [reflexivity|].
    intros j Hj. apply HX. lia.
  - (* translation *)
    specialize (Hm Hm0).
    unfold lzms_maybe_do_x86_translation in Hstep.
    rewrite (wrap32s_small (Z.of_nat K + n + 4 - 1)) in Hstep by lia.
    rewrite (wrap32s_small (Z.of_nat K + n + 4 - 1 + 1)) in Hstep by lia.
    cbv zeta in Hstep.
    inversion Hstep as [[HstS HK']]. clear Hstep.
    assert (HK'' : K' = (K + Z.to_nat n + 4)%nat) by lia.
    set (k := Z.of_nat K + n) in *.
    assert (Hk : Z.to_nat k = (K + Z.to_nat n)%nat) by (unfold k; lia).
    set (d := fs_data st) in *.
    set (tr := wrap32s (Z.of_nat K - fs_closest_target_usage st) <=? m) in *.
    set (dS := if tr then put_le d k 4 (wrap32 (get_le d k 4 + Z.of_nat K)) else d) in *.
    assert (HdS : fs_data stS = dS) by (rewrite <- HstS; reflexivity).
    assert (HdSlow : forall j : nat, (j < K + Z.to_nat n)%nat -> dS !!! j = d !!! j).
    { intros j Hj. unfold dS. destruct tr; [|reflexivity].
      apply put_le_lookup_out. lia. }
    assert (Ecx : cls (u8_to_Z (X !!! K)) (u8_to_Z (X !!! (K + 1)%nat))
                      (u8_to_Z (X !!! (K + 2)%nat)) = (n, m)).
    { rewrite <- Ec. rewrite (HX K), HdS, HdSlow by lia. apply cls_ext.
      - destruct (Z.eq_dec n 1) as [->|Hn1].
        + right. eapply cls_one; eauto.
        + left. rewrite (HX (K + 1)%nat), HdS, HdSlow by lia. reflexivity.
      - destruct (Z.eq_dec n 1) as [->|Hn1].
        { right. left. eapply cls_one; eauto. }
        destruct (Z.eq_dec n 2) as [->|Hn2].
        { right. right. left. eapply cls_two; eauto. }
        left. rewrite (HX (K + 2)%nat), HdS, HdSlow by lia. reflexivity. }
    rewrite Ecx. destruct (Z.eqb_spec m 0) as [?|_]; [contradiction|].
    unfold lzms_maybe_do_x86_translation. cbv zeta. cbn [fs_data
      fs_closest_target_usage fs_last_target_usages].
    rewrite (wrap32s_small (Z.of_nat K + n + 4 - 1)) by lia.
    rewrite (wrap32s_small (Z.of_nat K + n + 4 - 1 + 1)) by lia.
    fold k. fold tr.
    set (X' := if tr then put_le X k 4 (wrap32 (get_le X k 4 - Z.of_nat K)) else X).
    assert (HXd : forall c : nat, (c < 4)%nat ->
              X' !!! (Z.to_nat k + c)%nat = d !!! (Z.to_nat k + c)%nat).
    { intros c Hc. unfold X'. destruct tr eqn:Etr.
      - assert (Hg : get_le X k 4 = wrap32 (get_le d k 4 + Z.of_nat K)).
        { transitivity (get_le dS k 4).
          - apply get_le_ext. intros c' Hc'. rewrite <- HdS. apply HX. lia.
          - unfold dS. rewrite get_put_le by lia. apply Z.mod_small.
            unfold wrap32. apply Z.mod_pos_bound. lia. }
        rewrite Hg, wrap32_add_sub by (apply (get_le_range d k 4)).
        rewrite put_le_lookup_in by lia.
        apply le_encode_get_le. lia.
      - rewrite HX by lia. rewrite HdS. unfold dS. reflexivity. }
    assert (Hpos : get_le X' k 2 = get_le d k 2).
    { apply get_le_ext. intros c Hc. apply HXd. lia. }
    rewrite Hpos. exists X'.
    split.
    { rewrite HK'. reflexivity. }
    assert (HlX' : length X' = length X).
    { unfold X'. destruct tr; [apply length_put_le|reflexivity]. }
    split; [exact HlX'|]. split.
    + intros j Hj. unfold X'. destruct tr; [|reflexivity].
      apply put_le_lookup_out. lia.
    + intros j Hj. destruct (Nat.lt_ge_cases j (K + Z.to_nat n)) as [Hlt|Hge].
      * transitivity (X !!! j).
        { unfold X'. destruct tr; [|reflexivity]. apply put_le_lookup_out. lia. }
        rewrite HX, HdS by lia. apply HdSlow. exact Hlt.
      * replace j with (Z.to_nat k + (j - Z.to_nat k))%nat by lia.
        apply HXd. lia.
Qed.

Section Loop.

Variable size : Z.
Hypothesis size_range : 0 <= size < 2 ^ 31.

Lemma loop_unfold fuel st i undo :
  loop fuel st size i undo =
    if i <? size - 11 then
      match fuel with
      | O => None
      | S fuel' => let '(st', i') := step st i undo in
                   loop fuel' st' size i' undo
      end
    else Some st.
Proof.
  destruct fuel; simpl; rewrite wrap32s_small by lia;
    destruct (i <? size - 11); reflexivity.
Qed.

(** The forward loop terminates: every step advances [i]. *)
Lemma loop_fwd_total fuel st (K : nat) :
  size <= Z.of_nat (length (fs_data st)) ->
  size - Z.of_nat K <= Z.of_nat fuel + 11 ->
  exists st1, loop fuel st size (Z.of_nat K) false = Some st1.
Proof.
  revert st K. induction fuel as [|fuel IH]; intros st K Hlen Hfuel;
    rewrite loop_unfold; destruct (Z.ltb_spec (Z.of_nat K) (size - 11)) as [Hlt|Hge];
    try (eexists; reflexivity); try lia.
  destruct (step st (Z.of_nat K) false) as [stS i'] eqn:Es.
  destruct (step_fwd_frame st K stS i' ltac:(lia) ltac:(lia) Es)
    as (K' & -> & HK' & HlS & _).
  apply IH; [rewrite HlS|]; lia.
Qed.

(** The forward loop started at [i] leaves the bytes up to [i] alone, and
    the byte at [i + 1] too unless [i] holds a call opcode. *)
Lemma loop_fwd_frame fuel st (K : nat) st1 :
  size <= Z.of_nat (length (fs_data st)) ->
  loop fuel st size (Z.of_nat K) false = Some st1 ->
  length (fs_data st1) = length (fs_data st) /\
  (forall j : nat, (j <= K)%nat -> fs_data st1 !!! j = fs_data st !!! j) /\
  (fs_data st1 !!! (K + 1)%nat = fs_data st !!! (K + 1)%nat \/
   u8_to_Z (fs_data st !!! K) = 0xe8).
Proof.
  revert st K. induction fuel as [|fuel IH]; intros st K Hlen;
    rewrite loop_unfold; destruct (Z.ltb_spec (Z.of_nat K) (size - 11)) as [Hlt|Hge];
    intros E; try discriminate;
    try (inversion E; subst; auto).
  clear H0.
  destruct (step st (Z.of_nat K) false) as [stS i'] eqn:Es.
  destruct (step_fwd_frame st K stS i' ltac:(lia) ltac:(lia) Es)
    as (K' & -> & HK' & HlS & Hout & Hnext).
  destruct (IH stS K' ltac:(lia) E) as (Hl1 & Hlow & _).
  split; [congruence|]. split.
  - intros j Hj. rewrite Hlow by lia. apply Hout. lia.
  - rewrite Hlow by lia. exact Hnext.
Qed.

(** Undoing the forward run, from any [i] the forward loop reached: the
    undo loop gives back the bytes the forward loop started from. *)
Lemma loop_undo_fwd fuel st (K : nat) st1 (X : list byte) :
  size <= Z.of_nat (length (fs_data st)) ->
  loop fuel st size (Z.of_nat K) false = Some st1 ->
  length X = length (fs_data st) ->
  (forall j : nat, (K <= j)%nat -> X !!! j = fs_data st1 !!! j) ->
  exists st2,
    loop fuel {| fs_data := X;
                 fs_closest_target_usage := fs_closest_target_usage st;
                 fs_last_target_usages := fs_last_target_usages st |}
         size (Z.of_nat K) true = Some st2 /\
    length (fs_data st2) = length X /\
    (forall j : nat, (j < K)%nat -> fs_data st2 !!! j = X !!! j) /\
    (forall j : nat, (K <= j)%nat -> fs_data st2 !!! j = fs_data st !!! j).
Proof.
  revert st K X. induction fuel as [|fuel IH]; intros st K X Hlen;
    rewrite !loop_unfold; destruct (Z.ltb_spec (Z.of_nat K) (size - 11)) as [Hlt|Hge];
    intros E HlX HX; try discriminate;
    try (inversion E; subst; eexists; split; [reflexivity|]; cbn [fs_data]; auto).
  destruct (step st (Z.of_nat K) false) as [stS i'] eqn:Es.
  destruct (step_fwd_frame st K stS i' ltac:(lia) ltac:(lia) Es)
    as (K' & -> & HK' & HlS & Hout & _).
  destruct (loop_fwd_frame fuel stS K' st1 ltac:(lia) E) as (Hl1 & Hlow & Hnext).
  destruct (step_sim st K K' stS X ltac:(lia) ltac:(lia) Es HlX)
    as (X' & EX & HlX' & HXout & HXin).
  { intros j Hj. rewrite HX by lia. apply Hlow. lia. }
  { destruct Hnext as [Hnext|Hnext]; [left|right; exact Hnext].
    rewrite HX by lia. exact Hnext. }
  rewrite EX.
  destruct (IH stS K' X' ltac:(lia) E ltac:(lia)) as (st2 & E2 & Hl2 & H2low & H2high).
  { intros j Hj. rewrite HXout by lia. apply HX. lia. }
  exists st2. split; [exact E2|]. split; [congruence|]. split.
  - intros j Hj. rewrite H2low by lia. apply HXout. lia.
  - intros j Hj. destruct (Nat.lt_ge_cases j K') as [Hjl|Hjg].
    + rewrite H2low by lia. apply HXin. lia.
    + rewrite H2high by lia. apply Hout. lia.
Qed.

End Loop.

(** C3 (claim): filtering with [undo = false] and then with [undo = true],
    each call starting from the initial state the function sets up itself,
    restores every byte of the buffer; both calls return.  [size] is the
    buffer's size, which the C prototype takes as an [s32]. *)
Theorem lzms_x86_filter_involution (data : list byte) (size : Z) :
  size = Z.of_nat (length data) ->
  size < 2 ^ 31 ->
  exists translated : list byte,
    lzms_x86_filter GOOD TRANS data size false = Some translated /\
    lzms_x86_filter GOOD TRANS translated size true = Some data.
Proof.
  intros Hsize Hmax. unfold lzms_x86_filter.
  set (st0 := {| fs_data := data;
                 fs_closest_target_usage := wrap32s (- TRANS - 1);
                 fs_last_target_usages :=
                   replicate (Z.to_nat 65536) (wrap32s (- GOOD - 1)) |}).
  assert (Hr : 0 <= size < 2 ^ 31) by lia.
  assert (Hl0 : size <= Z.of_nat (length (fs_data st0))) by (cbn [fs_data st0]; lia).
  destruct (loop_fwd_total size Hr (Z.to_nat size) st0 0%nat Hl0 ltac:(lia))
    as [st1 E1].
  change 0 with (Z.of_nat 0). rewrite E1. cbn [fmap option_fmap option_map].
  exists (fs_data st1). split; [reflexivity|].
  destruct (loop_fwd_frame size Hr _ _ _ _ Hl0 E1) as (Hl1 & _ & _).
  destruct (loop_undo_fwd size Hr _ _ _ _ (fs_data st1) Hl0 E1 Hl1 ltac:(auto))
    as (st2 & E2 & Hl2 & _ & H2).
  cbn [fs_closest_target_usage fs_last_target_usages st0] in E2.
  rewrite E2. cbn [fmap option_fmap option_map]. f_equal.
  apply list_eq_total.
  - rewrite Hl2, Hl1. reflexivity.
  - intros j. apply H2. lia.
Qed.

End FilterFacts.

(** Three call instructions under the constants of [wimlib/lzms.h]
    (65535 and 1023): the first two name the same target, so the operand of
    the third one is translated. *)
Definition three_calls : list byte :=
  [xe8; x10; x00; x00; x00; xe8; x0b; x00; x00; x00;
   xe8; x01; x02; x03; x04] ++ replicate 20 x90.

Example three_calls_translated :
  lzms_x86_filter 65535 1023 three_calls 35 false =
  Some ([xe8; x10; x00; x00; x00; xe8; x0b; x00; x00; x00;
         xe8; x0b; x02; x03; x04] ++ replicate 20 x90).
Proof. vm_compute. reflexivity. Qed.

Lemma lzms_x86_filter_involution_witness :
  35 = Z.of_nat (length three_calls) /\ 35 < 2 ^ 31 /\
  exists translated : list byte,
    lzms_x86_filter 65535 1023 three_calls 35 false = Some translated /\
    lzms_x86_filter 65535 1023 translated 35 true = Some three_calls.
Proof.
  split; [reflexivity|]. split; [lia|].
  apply lzms_x86_filter_involution; [reflexivity | lia].
Defined.

End LzmsCommonFacts.
(** ** lzms-common.c: slots and queues *)

Module LzmsTablesFacts.
Import Bytes LzmsTables TableFacts.

(** *** [lzms_get_slot] *)

Lemma get_slot_loop_first fuel value tab : forall (slot k : nat),
  (slot < k < length tab)%nat ->
  Z.of_nat (length tab) < 2 ^ 32 ->
  (forall j, (slot < j < k)%nat -> tab !!! j <= value) ->
  value < tab !!! k ->
  (k - slot <= fuel)%nat ->
  lzms_get_slot_loop fuel value tab (Z.of_nat slot) = Some (Z.of_nat k - 1).
Proof.
  induction fuel as [|fuel IH]; intros slot k Hk Hlen Hle Hgt Hfuel; [lia|].
  cbn [lzms_get_slot_loop].
  assert (E : wrap32 (Z.of_nat slot + 1) = Z.of_nat (S slot)).
  { unfold wrap32. rewrite Z.mod_small by lia. lia. }
  rewrite E, Nat2Z.id.
  rewrite (list_lookup_lookup_total_lt tab (S slot)) by lia.
  destruct (decide (S slot = k)) as [<-|Hne].
  - destruct (Z.leb_spec (tab !!! S slot) value) as [H|H]; [lia|].
    f_equal. lia.
  - destruct (Z.leb_spec (tab !!! S slot) value) as [H|H].
    + apply IH; try lia. intros j Hj. apply Hle. lia.
    + exfalso. specialize (Hle (S slot) ltac:(lia)). lia.
Qed.

Lemma first_below (P : nat -> bool) (n : nat) :
  (forall j, (j < n)%nat -> P j = false) \/
  exists k, (k < n)%nat /\ P k = true /\ forall j, (j < k)%nat -> P j = false.
Proof.
  induction n as [|n [IH|(k & Hk & HP & Hleast)]].
  - left. intros j Hj. lia.
  - destruct (P n) eqn:E.
    + right. exists n. split; [lia|]. split; [exact E|exact IH].
    + left. intros j Hj. destruct (decide (j = n)) as [->|Hne]; [exact E|].
      apply IH. lia.
  - right. exists k. split; [lia|]. split; assumption.
Qed.

Lemma least_index (P : nat -> bool) (n : nat) :
  P n = true -> exists k, (k <= n)%nat /\ P k = true /\
                          forall j, (j < k)%nat -> P j = false.
Proof.
  intros Hn. destruct (first_below P n) as [H|(k & Hk & HP & Hleast)].
  - exists n. split; [lia|]. split; assumption.
  - exists k. split; [lia|]. split; assumption.
Qed.

(** X4 (property): [lzms_get_slot] is a linear search from slot 0.  When
    the first base is not above the value and some base of the table is,
    it returns the slot whose base is at most the value and whose
    successor's base is above it, without reading behind the table; the
    bases of all the slots up to it are at most the value. *)
Theorem lzms_get_slot_bounds (value : Z) (slot_base_tab : list Z)
    (num_slots : Z) (n : nat) :
  Z.of_nat (length slot_base_tab) < 2 ^ 32 ->
  slot_base_tab !!! 0%nat <= value ->
  (n < length slot_base_tab)%nat -> value < slot_base_tab !!! n ->
  exists slot : nat,
    lzms_get_slot value slot_base_tab num_slots = Some (Z.of_nat slot) /\
    (slot < n)%nat /\
    slot_base_tab !!! slot <= value < slot_base_tab !!! S slot /\
    forall j, (j <= slot)%nat -> slot_base_tab !!! j <= value.
Proof.
  intros Hlen H0 Hn Hgt.
  destruct (least_index (fun j => value <? slot_base_tab !!! j) n)
    as (k & Hk & HPk & Hleast).
  { apply Z.ltb_lt. exact Hgt. }
  apply Z.ltb_lt in HPk.
  assert (Hle : forall j, (j < k)%nat -> slot_base_tab !!! j <= value).
  { intros j Hj. specialize (Hleast j Hj). apply Z.ltb_ge in Hleast. exact Hleast. }
  destruct k as [|k]; [lia|].
  exists k. split.
  { unfold lzms_get_slot.
    assert (Hmid : forall j, (0 < j < S k)%nat -> slot_base_tab !!! j <= value)
      by (intros j Hj; apply Hle; lia).
    pose proof (get_slot_loop_first (length slot_base_tab) value slot_base_tab
                  0 (S k) ltac:(lia) Hlen Hmid HPk ltac:(lia)) as E.
    change (Z.of_nat 0) with 0 in E. rewrite E. f_equal. lia. }
  split; [lia|]. split; [split; [apply Hle; lia|exact HPk]|].
  intros j Hj. apply Hle. lia.
Qed.

Lemma lzms_get_slot_bounds_witness :
  Z.of_nat (length [1; 2; 4; 8]) < 2 ^ 32 /\
  [1; 2; 4; 8] !!! 0%nat <= 5 /\
  (3 < length [1; 2; 4; 8])%nat /\ 5 < [1; 2; 4; 8] !!! 3%nat /\
  exists slot : nat,
    lzms_get_slot 5 [1; 2; 4; 8] 3 = Some (Z.of_nat slot) /\
    (slot < 3)%nat /\
    [1; 2; 4; 8] !!! slot <= 5 < [1; 2; 4; 8] !!! S slot /\
    forall j, (j <= slot)%nat -> [1; 2; 4; 8] !!! j <= 5.
Proof.
  assert (H1 : Z.of_nat (length [1; 2; 4; 8]) < 2 ^ 32) by (cbn; lia).
  assert (H2 : [1; 2; 4; 8] !!! 0%nat <= 5) by (cbn; lia).
  assert (H3 : (3 < length [1; 2; 4; 8])%nat) by (cbn; lia).
  assert (H4 : 5 < [1; 2; 4; 8] !!! 3%nat) by (cbn; lia).
  split; [exact H1|]. split; [exact H2|]. split; [exact H3|].
  split; [exact H4|].
  apply (lzms_get_slot_bounds 5 [1; 2; 4; 8] 3 3); assumption.
Defined.

(** *** The tables of [lzms_compute_slot_bases] *)

(** X5 (property): with 799 offset symbols and 54 length symbols, the
    tables [lzms_compute_slot_bases] fills have 800 and 55 entries, start
    at 1, end with the values stored last, and every entry is below the
    next one.  So [lzms_get_slot] finds, for every value from 1 up to the
    last base, the one slot whose range holds the value. *)
Theorem lzms_compute_slot_bases_tables
    (LZMS_MAX_NUM_OFFSET_SYMS LZMS_NUM_LEN_SYMS : Z) :
  LZMS_MAX_NUM_OFFSET_SYMS = 799 -> LZMS_NUM_LEN_SYMS = 54 ->
  let '(position_slot_base, length_slot_base) :=
    lzms_compute_slot_bases LZMS_MAX_NUM_OFFSET_SYMS LZMS_NUM_LEN_SYMS in
  let complete (tab : list Z) (num_slots last : Z) :=
    Z.of_nat (length tab) = num_slots + 1 /\
    tab !!! 0%nat = 1 /\ tab !!! Z.to_nat num_slots = last /\
    (forall i j : nat, (i < j < length tab)%nat -> tab !!! i < tab !!! j) /\
    forall value, 1 <= value < last ->
      exists slot : nat,
        lzms_get_slot value tab num_slots = Some (Z.of_nat slot) /\
        Z.of_nat slot < num_slots /\
        tab !!! slot <= value < tab !!! S slot in
  complete position_slot_base 799 0x7fffffff /\
  complete length_slot_base 54 0x400108ab.
Proof.
  intros -> ->.
  destruct (lzms_compute_slot_bases 799 54) as [pos len] eqn:E.
  assert (Hpos : Z.of_nat (length pos) = 800 /\ pos !!! 0%nat = 1 /\
                 pos !!! 799%nat = 0x7fffffff /\ increasing pos = true).
  { apply (f_equal fst) in E. cbn [fst] in E. subst pos.
    vm_compute. repeat split. }
  assert (Hlen : Z.of_nat (length len) = 55 /\ len !!! 0%nat = 1 /\
                 len !!! 54%nat = 0x400108ab /\ increasing len = true).
  { apply (f_equal snd) in E. cbn [snd] in E. subst len.
    vm_compute. repeat split. }
  clear E. cbv zeta.
  assert (G : forall (tab : list Z) (n : nat) last,
             Z.of_nat (length tab) = Z.of_nat n + 1 ->
             tab !!! 0%nat = 1 -> tab !!! n = last ->
             increasing tab = true -> Z.of_nat n < 2 ^ 31 ->
             Z.of_nat (length tab) = Z.of_nat n + 1 /\
             tab !!! 0%nat = 1 /\ tab !!! Z.to_nat (Z.of_nat n) = last /\
             (forall i j : nat, (i < j < length tab)%nat -> tab !!! i < tab !!! j) /\
             forall value, 1 <= value < last ->
               exists slot : nat,
                 lzms_get_slot value tab (Z.of_nat n) = Some (Z.of_nat slot) /\
                 Z.of_nat slot < Z.of_nat n /\
                 tab !!! slot <= value < tab !!! S slot).
  { intros tab n last Hl H0 Hn Hinc Hsmall.
    split; [exact Hl|]. split; [exact H0|].
    split; [rewrite Nat2Z.id; exact Hn|].
    split; [apply increasing_lookup; exact Hinc|].
    intros value [Hv1 Hv2].
    destruct (lzms_get_slot_bounds value tab (Z.of_nat n) n)
      as (slot & Es & Hs & Hr & _); try lia.
    exists slot. split; [exact Es|]. split; [lia|exact Hr]. }
  destruct Hpos as (P1 & P2 & P3 & P4), Hlen as (L1 & L2 & L3 & L4).
  split.
  - apply (G pos 799%nat); try assumption; lia.
  - apply (G len 54%nat); try assumption; lia.
Qed.

Lemma lzms_compute_slot_bases_tables_witness :
  799 = 799 /\ 54 = 54 /\
  let '(position_slot_base, length_slot_base) :=
    lzms_compute_slot_bases 799 54 in
  let complete (tab : list Z) (num_slots last : Z) :=
    Z.of_nat (length tab) = num_slots + 1 /\
    tab !!! 0%nat = 1 /\ tab !!! Z.to_nat num_slots = last /\
    (forall i j : nat, (i < j < length tab)%nat -> tab !!! i < tab !!! j) /\
    forall value, 1 <= value < last ->
      exists slot : nat,
        lzms_get_slot value tab num_slots = Some (Z.of_nat slot) /\
        Z.of_nat slot < num_slots /\
        tab !!! slot <= value < tab !!! S slot in
  complete position_slot_base 799 0x7fffffff /\
  complete length_slot_base 54 0x400108ab.
Proof.
  split; [reflexivity|]. split; [reflexivity|].
  apply (lzms_compute_slot_bases_tables 799 54); reflexivity.
Defined.

(** *** The queues of recent offsets *)

Section QueueFacts.

Variable LZMS_NUM_RECENT_OFFSETS : nat.

Abbreviation N := LZMS_NUM_RECENT_OFFSETS.

Lemma fill_lookup (f : Z -> Z) (n : nat) : forall (a : list Z) (i : nat),
  (n <= length a)%nat ->
  fold_left (fun a i => <[i := f (Z.of_nat i)]> a) (seq 0 n) a !! i =
  if decide (i < n)%nat then Some (f (Z.of_nat i)) else a !! i.
Proof.
  induction n as [|n IH]; intros a i Hlen.
  - cbn. destruct (decide (i < 0)%nat); [lia|reflexivity].
  - rewrite seq_S, fold_left_app. cbn [fold_left Nat.add].
    set (a' := fold_left _ (seq 0 n) a).
    assert (Hlen' : length a' = length a).
    { unfold a'. clear. generalize (seq 0 n). intros l. revert a.
      induction l as [|x l IHl]; intros a; [reflexivity|].
      cbn [fold_left]. rewrite IHl, length_insert. reflexivity. }
    destruct (decide (i = n)) as [->|Hne].
    + rewrite list_lookup_insert_eq by lia.
      destruct (decide (n < S n)%nat); [reflexivity|lia].
    + rewrite list_lookup_insert_ne by lia. unfold a'.
      rewrite IH by lia.
      destruct (decide (i < n)%nat), (decide (i < S n)%nat); try lia; reflexivity.
Qed.

Lemma fill_eq (f : Z -> Z) (a : list Z) :
  length a = S N ->
  fill N f a = map (fun i => f (Z.of_nat i)) (seq 0 (S N)).
Proof.
  intros Hlen. apply list_eq. intros i. unfold fill.
  rewrite Nat.add_1_r, fill_lookup by lia.
  rewrite list_lookup_fmap.
  destruct (decide (i < S N)%nat) as [Hi|Hi].
  - rewrite lookup_seq_lt by exact Hi. reflexivity.
  - rewrite lookup_seq_ge by lia. cbn. apply lookup_ge_None. lia.
Qed.

Lemma length_shift_steps (l : list nat) : forall a : list Z,
  length (fold_left (fun a i => <[S i := a !!! i]> a) l a) = length a.
Proof.
  induction l as [|x l IH]; intros a; [reflexivity|].
  cbn [fold_left]. rewrite IH, length_insert. reflexivity.
Qed.

Lemma shift_lookup (n : nat) : forall (a : list Z) (i : nat),
  (n < length a)%nat ->
  fold_left (fun a i => <[S i := a !!! i]> a) (rev (seq 0 n)) a !! i =
  if decide (1 <= i <= n)%nat then a !! (i - 1)%nat else a !! i.
Proof.
  induction n as [|n IH]; intros a i Hlen.
  - cbn. destruct (decide (1 <= i <= 0)%nat); [lia|reflexivity].
  - rewrite seq_S, rev_unit. cbn [fold_left Nat.add].
    rewrite IH by (rewrite length_insert; lia).
    destruct (decide (1 <= i <= n)%nat) as [Hi|Hi].
    + rewrite list_lookup_insert_ne by lia.
      destruct (decide (1 <= i <= S n)%nat); [reflexivity|lia].
    + destruct (decide (i = S n)) as [->|Hne].
      * rewrite list_lookup_insert_eq by lia.
        destruct (decide (1 <= S n <= S n)%nat); [|lia].
        replace (S n - 1)%nat with n by lia.
        symmetry. apply list_lookup_lookup_total_lt. lia.
      * rewrite list_lookup_insert_ne by lia.
        destruct (decide (1 <= i <= S n)%nat); [lia|reflexivity].
Qed.

(** What the shift and the store at the front leave in an array. *)
Lemma push_front (a : list Z) (x : Z) :
  length a = S N ->
  <[0%nat := x]> (shift_up N a) = x :: take N a.
Proof.
  intros Hlen. apply list_eq. intros i. unfold shift_up.
  destruct i as [|i].
  - rewrite list_lookup_insert_eq; [reflexivity|].
    rewrite length_shift_steps. lia.
  - rewrite list_lookup_insert_ne by lia.
    rewrite shift_lookup by lia.
    change ((x :: take N a) !! S i) with (take N a !! i).
    replace (S i - 1)%nat with i by lia.
    destruct (decide (1 <= S i <= N)%nat) as [Hi|Hi].
    + rewrite lookup_take_lt by lia. reflexivity.
    + rewrite lookup_take_ge by lia. apply lookup_ge_None. lia.
Qed.

(** X6 (property): [lzms_init_lru_queues] fills both queues of recent
    offsets with 1, 2, ..., [LZMS_NUM_RECENT_OFFSETS + 1], the recent
    powers with zeroes, and clears the previous and the upcoming match.
    [lzms_update_lru_queues] then changes nothing: the queues move only
    once a match has been recorded. *)
Theorem lzms_init_lru_queues_start (lru : lzms_lru_queues) :
  length (lz_recent_offsets (lru_lz lru)) = S N ->
  length (delta_recent_offsets (lru_delta lru)) = S N ->
  length (delta_recent_powers (lru_delta lru)) = S N ->
  let first := map (fun i => Z.of_nat i + 1) (seq 0 (S N)) in
  lzms_init_lru_queues N lru =
    {| lru_lz := {| lz_recent_offsets := first;
                    lz_prev_offset := 0; lz_upcoming_offset := 0 |};
       lru_delta := {| delta_recent_offsets := first;
                       delta_recent_powers := replicate (S N) 0;
                       delta_prev_offset := 0; delta_prev_power := 0;
                       delta_upcoming_offset := 0;
                       delta_upcoming_power := 0 |} |} /\
  lzms_update_lru_queues N (lzms_init_lru_queues N lru) =
    lzms_init_lru_queues N lru.
Proof.
  intros H1 H2 H3 first.
  assert (E : lzms_init_lru_queues N lru =
    {| lru_lz := {| lz_recent_offsets := first;
                    lz_prev_offset := 0; lz_upcoming_offset := 0 |};
       lru_delta := {| delta_recent_offsets := first;
                       delta_recent_powers := replicate (S N) 0;
                       delta_prev_offset := 0; delta_prev_power := 0;
                       delta_upcoming_offset := 0;
                       delta_upcoming_power := 0 |} |}).
  { unfold lzms_init_lru_queues, lzms_init_lz_lru_queues,
      lzms_init_delta_lru_queues.
    rewrite !fill_eq by assumption.
    assert (Ez : forall n s, map (fun _ : nat => 0) (seq s n) = replicate n 0).
    { induction n as [|n IH]; intros s; [reflexivity|].
      cbn [seq map replicate]. rewrite IH. reflexivity. }
    rewrite Ez. reflexivity. }
  split; [exact E|]. rewrite E. reflexivity.
Qed.

(** X7 (property): [lzms_update_lru_queues] is a delayed move to the
    front.  In each queue, when a previous match is recorded (its offset
    is not 0), its offset, and its power in the delta queue, enter at the
    front, the entries move one place back and the last one drops out;
    otherwise the queue stays.  The upcoming match then becomes the
    previous one. *)
Theorem lzms_update_lru_queues_shift (lru : lzms_lru_queues) :
  length (lz_recent_offsets (lru_lz lru)) = S N ->
  length (delta_recent_offsets (lru_delta lru)) = S N ->
  length (delta_recent_powers (lru_delta lru)) = S N ->
  let lz := lru_lz lru in
  let delta := lru_delta lru in
  let push (recorded : Z) (x : Z) (queue : list Z) :=
    if recorded =? 0 then queue else x :: take N queue in
  lzms_update_lru_queues N lru =
    {| lru_lz :=
         {| lz_recent_offsets :=
              push (lz_prev_offset lz) (lz_prev_offset lz)
                   (lz_recent_offsets lz);
            lz_prev_offset := lz_upcoming_offset lz;
            lz_upcoming_offset := lz_upcoming_offset lz |};
       lru_delta :=
         {| delta_recent_offsets :=
              push (delta_prev_offset delta) (delta_prev_offset delta)
                   (delta_recent_offsets delta);
            delta_recent_powers :=
              push (delta_prev_offset delta) (delta_prev_power delta)
                   (delta_recent_powers delta);
            delta_prev_offset := delta_upcoming_offset delta;
            delta_prev_power := delta_upcoming_power delta;
            delta_upcoming_offset := delta_upcoming_offset delta;
            delta_upcoming_power := delta_upcoming_power delta |} |}.
Proof.
  intros H1 H2 H3. cbv zeta.
  unfold lzms_update_lru_queues, lzms_update_lz_lru_queues,
    lzms_update_delta_lru_queues. cbv zeta.
  rewrite !push_front by assumption.
  destruct (lz_prev_offset (lru_lz lru) =? 0),
    (delta_prev_offset (lru_delta lru) =? 0); reflexivity.
Qed.

End QueueFacts.

(** The queues of a decoder with three recent offsets, after a match at
    offset 100 was recorded. *)
Definition sample_queues : lzms_lru_queues :=
  {| lru_lz := {| lz_recent_offsets := [1; 2; 3; 4];
                  lz_prev_offset := 100; lz_upcoming_offset := 0 |};
     lru_delta := {| delta_recent_offsets := [1; 2; 3; 4];
                     delta_recent_powers := [0; 0; 0; 0];
                     delta_prev_offset := 0; delta_prev_power := 0;
                     delta_upcoming_offset := 7;
                     delta_upcoming_power := 2 |} |}.

Lemma lzms_init_lru_queues_start_witness :
  length (lz_recent_offsets (lru_lz sample_queues)) = 4%nat /\
  length (delta_recent_offsets (lru_delta sample_queues)) = 4%nat /\
  length (delta_recent_powers (lru_delta sample_queues)) = 4%nat /\
  lz_recent_offsets (lru_lz (lzms_init_lru_queues 3 sample_queues))
    = [1; 2; 3; 4] /\
  lzms_update_lru_queues 3 (lzms_init_lru_queues 3 sample_queues) =
    lzms_init_lru_queues 3 sample_queues.
Proof.
  assert (H1 : length (lz_recent_offsets (lru_lz sample_queues)) = 4%nat)
    by reflexivity.
  assert (H2 : length (delta_recent_offsets (lru_delta sample_queues)) = 4%nat)
    by reflexivity.
  assert (H3 : length (delta_recent_powers (lru_delta sample_queues)) = 4%nat)
    by reflexivity.
  split; [exact H1|]. split; [exact H2|]. split; [exact H3|].
  destruct (lzms_init_lru_queues_start 3 sample_queues H1 H2 H3) as [E1 E2].
  split; [rewrite E1; reflexivity|exact E2].
Defined.

Lemma lzms_update_lru_queues_shift_witness :
  length (lz_recent_offsets (lru_lz sample_queues)) = 4%nat /\
  length (delta_recent_offsets (lru_delta sample_queues)) = 4%nat /\
  length (delta_recent_powers (lru_delta sample_queues)) = 4%nat /\
  lz_recent_offsets (lru_lz (lzms_update_lru_queues 3 sample_queues))
    = [100; 1; 2; 3] /\
  delta_prev_offset (lru_delta (lzms_update_lru_queues 3 sample_queues)) = 7.
Proof.
  assert (H1 : length (lz_recent_offsets (lru_lz sample_queues)) = 4%nat)
    by reflexivity.
  assert (H2 : length (delta_recent_offsets (lru_delta sample_queues)) = 4%nat)
    by reflexivity.
  assert (H3 : length (delta_recent_powers (lru_delta sample_queues)) = 4%nat)
    by reflexivity.
  split; [exact H1|]. split; [exact H2|]. split; [exact H3|].
  rewrite (lzms_update_lru_queues_shift 3 sample_queues H1 H2 H3).
  split; reflexivity.
Defined.

End LzmsTablesFacts.

(** ** dentry.c: the types given to the streams of an inode *)

Module DentryStreamFacts.
Import Bytes BytesFacts Dentry.

(** *** The assignment as the specification words it *)

Definition unnamed_with_hash (strm : wim_inode_stream) : bool :=
  negb (stream_is_named strm) && negb (is_zero_hash (_stream_hash strm)).

Definition unnamed_without_hash (strm : wim_inode_stream) : bool :=
  negb (stream_is_named strm) && is_zero_hash (_stream_hash strm).

Fixpoint count_if {A} (f : A -> bool) (l : list A) : nat :=
  match l with
  | [] => 0
  | x :: rest => (if f x then 1 else 0) + count_if f rest
  end.

(** The index of the last element that satisfies [f]. *)
Fixpoint last_index_of {A} (f : A -> bool) (l : list A) : option nat :=
  match l with
  | [] => None
  | x :: rest =>
      match last_index_of f rest with
      | Some k => Some (S k)
      | None => if f x then Some 0%nat else None
      end
  end.

(** How many unnamed streams with a nonzero hash come before stream [i]. *)
Definition earlier_unnamed_with_hash (streams : list wim_inode_stream)
    (i : nat) : nat :=
  count_if unnamed_with_hash (take i streams).

(** Encrypted inode: the first unnamed stream with a nonzero hash holds the
    raw EFSRPC data, every other stream stays untyped. *)
Definition expected_type_encrypted (streams : list wim_inode_stream)
    (i : nat) (strm : wim_inode_stream) : stream_type_t :=
  if unnamed_with_hash strm
     && (earlier_unnamed_with_hash streams i =? 0)%nat
  then STREAM_TYPE_EFSRPC_RAW_DATA
  else STREAM_TYPE_UNKNOWN.

(** Whether an unnamed data stream is found among the streams with a
    nonzero hash: the first such stream of a reparse point is its reparse
    point stream, so it takes a second one. *)
Definition unnamed_data_stream_found (reparse_point : bool)
    (streams : list wim_inode_stream) : bool :=
  let n := count_if unnamed_with_hash streams in
  if reparse_point then (2 <=? n)%nat else (1 <=? n)%nat.

(** The fallback: the unnamed stream with a zero hash that the loop
    remembers, which is the last one it sees. *)
Definition fallback_stream (streams : list wim_inode_stream) : option nat :=
  last_index_of unnamed_without_hash streams.

(** Unencrypted inode. *)
Definition expected_type_unencrypted (reparse_point : bool)
    (streams : list wim_inode_stream)
    (i : nat) (strm : wim_inode_stream) : stream_type_t :=
  if stream_is_named strm then STREAM_TYPE_DATA
  else if unnamed_with_hash strm then
    match earlier_unnamed_with_hash streams i, reparse_point with
    | 0%nat, true => STREAM_TYPE_REPARSE_POINT
    | 0%nat, false => STREAM_TYPE_DATA
    | 1%nat, true => STREAM_TYPE_DATA
    | _, _ => STREAM_TYPE_UNKNOWN
    end
  else if negb (unnamed_data_stream_found reparse_point streams)
          && match fallback_stream streams with
             | Some k => (k =? i)%nat
             | None => false
             end
  then STREAM_TYPE_DATA
  else STREAM_TYPE_UNKNOWN.

Definition expected_stream_type (inode : wim_inode)
    (i : nat) (strm : wim_inode_stream) : stream_type_t :=
  if has_attribute inode FILE_ATTRIBUTE_ENCRYPTED
  then expected_type_encrypted (i_streams inode) i strm
  else expected_type_unencrypted
         (has_attribute inode FILE_ATTRIBUTE_REPARSE_POINT)
         (i_streams inode) i strm.

(** The streams as [setup_inode_streams] has read them: none has a type. *)
Definition untyped (streams : list wim_inode_stream) : Prop :=
  Forall (fun strm => stream_type strm = STREAM_TYPE_UNKNOWN) streams.

(** *** The code assigns these types *)

Lemma set_stream_type_same strm :
  set_stream_type strm (stream_type strm) = strm.
Proof. destruct strm; reflexivity. Qed.

Lemma count_if_app {A} (f : A -> bool) l1 l2 :
  count_if f (l1 ++ l2) = (count_if f l1 + count_if f l2)%nat.
Proof. induction l1; simpl; lia. Qed.

Lemma take_app_length_plus {A} (l1 l2 : list A) k :
  take (length l1 + k) (l1 ++ l2) = l1 ++ take k l2.
Proof. induction l1; simpl; congruence. Qed.

Lemma last_index_of_app {A} (f : A -> bool) l1 l2 :
  last_index_of f (l1 ++ l2) =
    match last_index_of f l2 with
    | Some k => Some (length l1 + k)%nat
    | None => last_index_of f l1
    end.
Proof.
  induction l1 as [|x l1 IH]; simpl.
  - destruct (last_index_of f l2); reflexivity.
  - rewrite IH. destruct (last_index_of f l2); reflexivity.
Qed.

Lemma last_index_of_lt {A} (f : A -> bool) l k :
  last_index_of f l = Some k -> (k < length l)%nat.
Proof.
  revert k. induction l as [|x l IH]; simpl; intros k; [discriminate|].
  destruct (last_index_of f l) as [k'|].
  - intros [= <-]. specialize (IH k' eq_refl). lia.
  - destruct (f x); [intros [= <-]; lia | discriminate].
Qed.

Lemma earlier_app (prefix streams : list wim_inode_stream) k :
  earlier_unnamed_with_hash (prefix ++ streams) (length prefix + k) =
  (count_if unnamed_with_hash prefix
   + count_if unnamed_with_hash (take k streams))%nat.
Proof.
  unfold earlier_unnamed_with_hash.
  rewrite take_app_length_plus, count_if_app. reflexivity.
Qed.

Lemma imap_id {A} (l : list A) : imap (fun (_ : nat) (x : A) => x) l = l.
Proof.
  induction l as [|x l IH]; cbn [imap]; [reflexivity|]. f_equal. exact IH.
Qed.

Lemma encrypted_spec (prefix streams : list wim_inode_stream) :
  count_if unnamed_with_hash prefix = 0%nat ->
  untyped streams ->
  assign_stream_types_encrypted streams =
  imap (fun k strm =>
          set_stream_type strm
            (expected_type_encrypted (prefix ++ streams)
                                     (length prefix + k) strm))
       streams.
Proof.
  revert prefix. induction streams as [|strm rest IH]; intros prefix Hp Hu.
  - reflexivity.
  - inversion Hu as [|? ? Hs Hr]; subst.
    cbn [assign_stream_types_encrypted imap].
    unfold expected_type_encrypted at 1.
    rewrite earlier_app, Hp. cbn [take count_if Nat.add Nat.eqb].
    change (negb (stream_is_named strm) && negb (is_zero_hash (_stream_hash strm)))
      with (unnamed_with_hash strm).
    destruct (unnamed_with_hash strm) eqn:E; cbn [andb].
    + f_equal. rewrite <- (imap_id rest) at 1.
      apply imap_ext. intros k s Hk. cbn.
      unfold expected_type_encrypted.
      rewrite earlier_app, Hp. cbn [take count_if]. rewrite E.
      cbn [Nat.add Nat.eqb]. rewrite andb_false_r.
      assert (Hs' : stream_type s = STREAM_TYPE_UNKNOWN).
      { eapply Forall_lookup_1 in Hr; eauto. }
      rewrite <- Hs'. symmetry. apply set_stream_type_same.
    + f_equal; [rewrite <- Hs; symmetry; apply set_stream_type_same|].
      rewrite (IH (prefix ++ [strm])); auto.
      * apply imap_ext. intros k s Hk. cbn.
        rewrite length_app. simpl. rewrite <- app_assoc. simpl.
        do 2 f_equal. lia.
      * rewrite count_if_app. simpl. rewrite E, Hp. reflexivity.
Qed.

(** The type the loop of [assign_stream_types_unencrypted] gives a stream
    that [r] unnamed streams with a nonzero hash precede; the fallback comes
    after the loop. *)
Definition loop_type (reparse_point : bool) (r : nat)
    (strm : wim_inode_stream) : stream_type_t :=
  if stream_is_named strm then STREAM_TYPE_DATA
  else if unnamed_with_hash strm then
    match r, reparse_point with
    | 0%nat, true => STREAM_TYPE_REPARSE_POINT
    | 0%nat, false => STREAM_TYPE_DATA
    | 1%nat, true => STREAM_TYPE_DATA
    | _, _ => stream_type strm
    end
  else stream_type strm.

Lemma unnamed_cases strm :
  stream_is_named strm = false ->
  unnamed_with_hash strm = negb (is_zero_hash (_stream_hash strm)) /\
  unnamed_without_hash strm = is_zero_hash (_stream_hash strm).
Proof.
  intros H. unfold unnamed_with_hash, unnamed_without_hash. rewrite H.
  split; reflexivity.
Qed.

Lemma named_cases strm :
  stream_is_named strm = true ->
  unnamed_with_hash strm = false /\ unnamed_without_hash strm = false.
Proof.
  intros H. unfold unnamed_with_hash, unnamed_without_hash. rewrite H.
  split; reflexivity.
Qed.

Lemma unencrypted_loop_spec (rp : bool) (streams prefix : list wim_inode_stream)
    (zero : option nat) :
  assign_unencrypted_loop rp streams (length prefix)
    (rp && (1 <=? count_if unnamed_with_hash prefix)%nat)
    (if rp then (2 <=? count_if unnamed_with_hash prefix)%nat
     else (1 <=? count_if unnamed_with_hash prefix)%nat)
    zero
  = (imap (fun k strm =>
             set_stream_type strm
               (loop_type rp (count_if unnamed_with_hash prefix
                              + count_if unnamed_with_hash (take k streams))
                          strm))
          streams,
     unnamed_data_stream_found rp (prefix ++ streams),
     match last_index_of unnamed_without_hash streams with
     | Some k => Some (length prefix + k)%nat
     | None => zero
     end).
Proof.
  revert prefix zero.
  induction streams as [|strm rest IH]; intros prefix zero.
  - cbn [assign_unencrypted_loop imap last_index_of].
    rewrite app_nil_r. reflexivity.
  - assert (Hstep : forall z,
      assign_unencrypted_loop rp rest (S (length prefix))
        (rp && (1 <=? count_if unnamed_with_hash (prefix ++ [strm]))%nat)
        (if rp then (2 <=? count_if unnamed_with_hash (prefix ++ [strm]))%nat
         else (1 <=? count_if unnamed_with_hash (prefix ++ [strm]))%nat)
        z
      = (imap (fun k s =>
                 set_stream_type s
                   (loop_type rp (count_if unnamed_with_hash prefix
                                  + count_if unnamed_with_hash
                                      (take (S k) (strm :: rest))) s))
              rest,
         unnamed_data_stream_found rp (prefix ++ strm :: rest),
         match last_index_of unnamed_without_hash rest with
         | Some k => Some (length prefix + S k)%nat
         | None => z
         end)).
    { intros z. specialize (IH (prefix ++ [strm]) z).
      rewrite length_app in IH. cbn [length] in IH.
      rewrite Nat.add_1_r in IH. rewrite IH. clear IH.
      rewrite <- app_assoc. cbn [app]. f_equal; [f_equal|].
      - apply imap_ext. intros k s _. cbn [take count_if].
        rewrite count_if_app. cbn [count_if]. do 2 f_equal. lia.
      - destruct (last_index_of unnamed_without_hash rest); [f_equal; lia|reflexivity]. }
    rewrite count_if_app in Hstep. cbn [count_if] in Hstep.
    cbn [assign_unencrypted_loop imap last_index_of].
    unfold loop_type at 1. cbn [take count_if]. rewrite Nat.add_0_r.
    destruct (stream_is_named strm) eqn:En.
    + destruct (named_cases strm En) as [E1 E2]. rewrite E1, E2 in *.
      rewrite !Nat.add_0_r in Hstep. rewrite Hstep.
      destruct (last_index_of unnamed_without_hash rest); reflexivity.
    + destruct (unnamed_cases strm En) as [E1 E2]. rewrite E1, E2 in *.
      destruct (is_zero_hash (_stream_hash strm)) eqn:Ez; cbn [negb] in *.
      * rewrite !Nat.add_0_r in Hstep. rewrite Hstep.
        rewrite set_stream_type_same.
        destruct (last_index_of unnamed_without_hash rest);
          [reflexivity | rewrite Nat.add_0_r; reflexivity].
      * destruct rp; destruct (count_if unnamed_with_hash prefix) as [|[|c]];
          cbn [andb negb Nat.leb Nat.add] in *;
          rewrite Hstep; try rewrite set_stream_type_same;
          destruct (last_index_of unnamed_without_hash rest); reflexivity.
Qed.

Lemma last_index_of_true {A} (f : A -> bool) (l : list A) k x :
  last_index_of f l = Some k -> l !! k = Some x -> f x = true.
Proof.
  revert k. induction l as [|y l IH]; intros k; simpl; [discriminate|].
  destruct (last_index_of f l) as [k'|] eqn:E.
  - intros [= <-]. simpl. apply IH. reflexivity.
  - destruct (f y) eqn:Ef; [|discriminate].
    intros [= <-]. simpl. congruence.
Qed.

Lemma unencrypted_spec (inode : wim_inode) :
  untyped (i_streams inode) ->
  assign_stream_types_unencrypted inode =
  imap (fun i strm =>
          set_stream_type strm
            (expected_type_unencrypted
               (has_attribute inode FILE_ATTRIBUTE_REPARSE_POINT)
               (i_streams inode) i strm))
       (i_streams inode).
Proof.
  intros Hu. unfold assign_stream_types_unencrypted.
  set (rp := has_attribute inode FILE_ATTRIBUTE_REPARSE_POINT).
  set (streams := i_streams inode) in *.
  pose proof (unencrypted_loop_spec rp streams [] None) as Hloop.
  cbn [length count_if Nat.leb andb app Nat.add] in Hloop.
  rewrite andb_false_r in Hloop.
  replace (if rp then false else false) with false in Hloop by (destruct rp; reflexivity).
  rewrite Hloop. clear Hloop.
  assert (Hmain : forall j s, streams !! j = Some s ->
            (stream_is_named s = true \/ unnamed_with_hash s = true) ->
            loop_type rp (count_if unnamed_with_hash (take j streams)) s =
            expected_type_unencrypted rp streams j s).
  { intros j s Hj Hs. unfold loop_type, expected_type_unencrypted,
      earlier_unnamed_with_hash.
    assert (Hty : stream_type s = STREAM_TYPE_UNKNOWN).
    { eapply Forall_lookup_1 in Hu; eauto. }
    rewrite Hty.
    destruct (stream_is_named s); [reflexivity|].
    destruct (unnamed_with_hash s); [reflexivity|].
    destruct Hs; discriminate. }
  assert (Hzero : forall j s, streams !! j = Some s ->
            stream_is_named s = false -> unnamed_with_hash s = false ->
            loop_type rp (count_if unnamed_with_hash (take j streams)) s =
              STREAM_TYPE_UNKNOWN /\
            expected_type_unencrypted rp streams j s =
              if negb (unnamed_data_stream_found rp streams)
                 && match fallback_stream streams with
                    | Some k => (k =? j)%nat
                    | None => false
                    end
              then STREAM_TYPE_DATA else STREAM_TYPE_UNKNOWN).
  { intros j s Hj Hn Hw. unfold loop_type, expected_type_unencrypted.
    rewrite Hn, Hw. split; [|reflexivity].
    eapply Forall_lookup_1 in Hu; eauto. }
  apply list_eq. intros j.
  rewrite list_lookup_imap.
  destruct (streams !! j) as [s|] eqn:Hj; cbn [fmap option_fmap option_map].
  2:{ assert (Hnone : imap (fun k strm =>
                 set_stream_type strm
                   (loop_type rp (count_if unnamed_with_hash (take k streams)) strm))
                streams !! j = None).
      { rewrite list_lookup_imap, Hj. reflexivity. }
      fold (fallback_stream streams).
      destruct (fallback_stream streams) as [i|]; [|exact Hnone].
      destruct (negb (unnamed_data_stream_found rp streams)); [|exact Hnone].
      destruct (decide (i = j)) as [->|Hne].
      - rewrite list_lookup_alter_eq, Hnone. reflexivity.
      - rewrite list_lookup_alter_ne by exact Hne. exact Hnone. }
  assert (Hsome : imap (fun k strm =>
                 set_stream_type strm
                   (loop_type rp (count_if unnamed_with_hash (take k streams)) strm))
                streams !! j =
            Some (set_stream_type s
                    (loop_type rp (count_if unnamed_with_hash (take j streams)) s))).
  { rewrite list_lookup_imap, Hj. reflexivity. }
  fold (fallback_stream streams).
  destruct (stream_is_named s) eqn:En.
  { rewrite <- (Hmain j s Hj (or_introl En)).
    destruct (fallback_stream streams) as [i|] eqn:Ef; [|exact Hsome].
    destruct (negb (unnamed_data_stream_found rp streams)); [|exact Hsome].
    destruct (decide (i = j)) as [->|Hne].
    - unfold fallback_stream in Ef.
      pose proof (last_index_of_true _ _ _ _ Ef Hj) as Ht.
      destruct (named_cases s En) as [_ E2]. congruence.
    - rewrite list_lookup_alter_ne by exact Hne. exact Hsome. }
  destruct (unnamed_with_hash s) eqn:Ew.
  { rewrite <- (Hmain j s Hj (or_intror Ew)).
    destruct (fallback_stream streams) as [i|] eqn:Ef; [|exact Hsome].
    destruct (negb (unnamed_data_stream_found rp streams)); [|exact Hsome].
    destruct (decide (i = j)) as [->|Hne].
    - unfold fallback_stream in Ef.
      pose proof (last_index_of_true _ _ _ _ Ef Hj) as Ht.
      destruct (unnamed_cases s En) as [E1 E2].
      rewrite E1 in Ew. rewrite E2 in Ht. rewrite Ht in Ew. discriminate.
    - rewrite list_lookup_alter_ne by exact Hne. exact Hsome. }
  destruct (Hzero j s Hj En Ew) as [Hl He]. rewrite He. rewrite Hl in Hsome.
  destruct (fallback_stream streams) as [i|] eqn:Ef.
  2:{ rewrite andb_false_r. exact Hsome. }
  destruct (negb (unnamed_data_stream_found rp streams)); cbn [andb].
  2:{ exact Hsome. }
  destruct (Nat.eqb_spec i j) as [->|Hne].
  - rewrite list_lookup_alter_eq, Hsome. reflexivity.
  - rewrite list_lookup_alter_ne by exact Hne. exact Hsome.
Qed.

(** C5 (claim): the types the streams of an inode get once they are read.
    Encrypted inode: the first unnamed stream with a nonzero hash becomes
    the EFSRPC raw data stream and all others stay untyped.  Unencrypted
    inode: named streams are data streams; the first unnamed stream with a
    nonzero hash is the reparse point stream if the inode is a reparse
    point; the next one (or the first one otherwise) is the unnamed data
    stream; if there is none, the remembered unnamed stream with a zero
    hash is the unnamed data stream; all others stay untyped. *)
Theorem assign_stream_types_spec (inode : wim_inode) :
  untyped (i_streams inode) ->
  i_streams (assign_stream_types inode) =
  imap (fun i strm => set_stream_type strm (expected_stream_type inode i strm))
       (i_streams inode).
Proof.
  intros Hu. unfold assign_stream_types, expected_stream_type.
  destruct (has_attribute inode FILE_ATTRIBUTE_ENCRYPTED).
  - cbn [set_streams i_streams].
    rewrite (encrypted_spec [] (i_streams inode)) by auto. reflexivity.
  - cbn [set_streams i_streams]. apply unencrypted_spec. exact Hu.
Qed.

(** The streams [setup_inode_streams] hands to the assignment are untyped. *)
Lemma read_extra_stream_entries_untyped buf p end_ i n streams p' :
  read_extra_stream_entries buf p end_ i n = Ok (streams, p') ->
  untyped streams.
Proof.
  revert p i streams p'. induction n as [|n IH]; intros p i streams p'; simpl.
  - intros [= <- <-]. constructor.
  - repeat (match goal with
            | |- context [if ?c then _ else _] => destruct c
            end; try discriminate);
    destruct (read_extra_stream_entries _ _ _ _ n) as [[ss q]|] eqn:E;
    try discriminate; intros [= <- <-];
    (constructor; [reflexivity | eapply IH; eauto]).
Qed.

Lemma setup_inode_streams_untyped buf p end_ inode n hash inode' size :
  setup_inode_streams buf p end_ inode n hash = Ok (inode', size) ->
  exists raw, untyped raw /\
    inode' = assign_stream_types (set_streams inode raw).
Proof.
  unfold setup_inode_streams.
  destruct (read_extra_stream_entries _ _ _ _ _) as [[ss q]|] eqn:E;
    [|discriminate].
  intros [= <- <-]. eexists. split; [|reflexivity].
  constructor; [reflexivity|].
  eapply read_extra_stream_entries_untyped; eauto.
Qed.

(** A reparse point with two unnamed streams that have a hash, a named
    stream and an unnamed stream without a hash, as read from disk. *)
Definition sample_hash (b : byte) : list byte := replicate 20 b.

Definition sample_stream (name : option (list byte)) (hash : list byte)
    (id : Z) : wim_inode_stream :=
  {| stream_name := name; _stream_hash := hash;
     stream_type := STREAM_TYPE_UNKNOWN; stream_id := id |}.

Definition sample_reparse_inode : wim_inode :=
  set_streams
    {| i_attributes := FILE_ATTRIBUTE_REPARSE_POINT;
       i_security_id := -1; i_creation_time := 0; i_last_access_time := 0;
       i_last_write_time := 0; i_ino := 0; i_nlink := 1;
       i_rp_unknown_1 := 0; i_reparse_tag := 0xA000000C;
       i_rp_unknown_2 := 0; i_not_rpfixed := 1;
       i_streams := []; i_extra := [] |}
    [sample_stream None (sample_hash x01) 0;
     sample_stream None zero_hash 1;
     sample_stream None (sample_hash x02) 2;
     sample_stream (Some [x61; x00]) (sample_hash x03) 3;
     sample_stream None (sample_hash x04) 4].

Example sample_reparse_inode_types :
  map stream_type (i_streams (assign_stream_types sample_reparse_inode)) =
  [STREAM_TYPE_REPARSE_POINT; STREAM_TYPE_UNKNOWN; STREAM_TYPE_DATA;
   STREAM_TYPE_DATA; STREAM_TYPE_UNKNOWN].
Proof. vm_compute. reflexivity. Qed.

Lemma assign_stream_types_spec_witness :
  untyped (i_streams sample_reparse_inode) /\
  i_streams (assign_stream_types sample_reparse_inode) =
  imap (fun i strm =>
          set_stream_type strm
            (expected_stream_type sample_reparse_inode i strm))
       (i_streams sample_reparse_inode).
Proof.
  assert (H : untyped (i_streams sample_reparse_inode)).
  { repeat constructor. }
  split; [exact H|]. apply assign_stream_types_spec. exact H.
Defined.

End DentryStreamFacts.
(** ** dentry.c: the bytes [write_dentry] writes *)

Module DentryWriteFacts.
Import Bytes BytesFacts Dentry.

(** *** Alignment *)

(** The next multiple of 8. *)
Definition up8 (x : Z) : Z := x + (- x) mod 8.

Lemma up8_bounds x : x <= up8 x < x + 8 /\ up8 x mod 8 = 0.
Proof.
  unfold up8. pose proof (Z.mod_pos_bound (- x) 8 ltac:(lia)) as H.
  split; [lia|].
  rewrite Zplus_mod_idemp_r. replace (x + - x) with 0 by lia. reflexivity.
Qed.

Lemma up8_aligned x : x mod 8 = 0 -> up8 x = x.
Proof.
  intros H. unfold up8.
  rewrite Z.mod_opp_l_z by lia. lia.
Qed.

Lemma up8_add_aligned p x : p mod 8 = 0 -> (- (p + x)) mod 8 = (- x) mod 8.
Proof.
  intros H. replace (- (p + x)) with (- x + (- (p / 8)) * 8).
  - apply Z_mod_plus_full.
  - pose proof (Z_div_mod_eq_full p 8). lia.
Qed.

Lemma align8_div x : 0 <= x -> x + 7 < 2 ^ 64 -> align8 x = (x + 7) / 8 * 8.
Proof.
  intros H0 H1. unfold align8, wrap64. rewrite Z.mod_small by lia.
  rewrite <- Z.ldiff_land. change 7 with (Z.ones 3) at 2.
  rewrite Z.ldiff_ones_r by lia.
  rewrite Z.shiftl_mul_pow2, Z.shiftr_div_pow2 by lia. reflexivity.
Qed.

Lemma align8_up8 x : 0 <= x -> up8 x < 2 ^ 64 -> align8 x = up8 x.
Proof.
  intros H0 H1. destruct (up8_bounds x) as [Hb Hm].
  assert (Hx : x + 7 < 2 ^ 64).
  { pose proof (Z_div_mod_eq_full (up8 x) 8).
    change (2 ^ 64) with (2305843009213693952 * 8) in *. lia. }
  rewrite align8_div by lia.
  pose proof (Z_div_mod_eq_full (up8 x) 8) as E. rewrite Hm in E.
  assert (Hq : (x + 7) / 8 = up8 x / 8).
  { symmetry. apply Z.div_unique with (r := x + 7 - up8 x); [left|]; lia. }
  rewrite Hq. lia.
Qed.

(** *** Lengths of the pieces *)

Lemma length_pad8 x : Z.of_nat (length (pad8 x)) = (- x) mod 8.
Proof.
  unfold pad8. rewrite length_replicate.
  pose proof (Z.mod_pos_bound (- x) 8 ltac:(lia)). lia.
Qed.

Lemma length_mempcpy src n : 0 <= n -> Z.of_nat (length (mempcpy src n)) = n.
Proof. intros H. unfold mempcpy. rewrite length_resize. lia. Qed.

Lemma length_disk_dentry_bytes disk : length (disk_dentry_bytes disk) = 102%nat.
Proof.
  unfold disk_dentry_bytes.
  rewrite !length_app, !length_le_encode, !length_resize. reflexivity.
Qed.

Lemma utf16le_len_bytes_nonneg name : 0 <= utf16le_len_bytes name.
Proof.
  assert (H : forall n name, (length name <= n)%nat -> 0 <= utf16le_len_bytes name).
  { clear name. induction n as [|n IH]; intros name Hn.
    - destruct name; [simpl; lia | simpl in Hn; lia].
    - destruct name as [|lo [|hi rest]]; simpl; try lia.
      destruct (_ && _); [lia|].
      specialize (IH rest ltac:(simpl in Hn; lia)). lia. }
  apply (H (length name)). lia.
Qed.

(** The size of an extra stream entry with the given name. *)
Definition entry_length (name : option (list byte)) : Z :=
  up8 (WIM_EXTRA_STREAM_ENTRY_DISK_SIZE
       + match name with
         | Some name => utf16le_len_bytes name + 2
         | None => 0
         end).

Lemma length_write_extra_stream_entry p name hash :
  p mod 8 = 0 ->
  Z.of_nat (length (write_extra_stream_entry p name hash)) = entry_length name.
Proof.
  intros Hp. unfold write_extra_stream_entry, entry_length.
  cbv zeta.
  rewrite !length_app, !length_le_encode, !length_resize.
  rewrite !Nat2Z.inj_add, length_pad8.
  rewrite ?length_app, ?length_le_encode, ?length_resize.
  rewrite up8_add_aligned by exact Hp.
  unfold WIM_EXTRA_STREAM_ENTRY_DISK_SIZE, up8.
  destruct name as [name|]; cbn [default].
  - pose proof (utf16le_len_bytes_nonneg name) as Hn.
    destruct (Z.eqb_spec (utf16le_len_bytes name) 0) as [E|E]; cbn [negb].
    + rewrite E. reflexivity.
    + rewrite length_mempcpy by lia.
      replace (8 + (Z.of_nat 8 + (Z.of_nat 20 + (Z.of_nat 2 + (utf16le_len_bytes name + 2)))))
        with (38 + (utf16le_len_bytes name + 2)) by lia.
      lia.
  - reflexivity.
Qed.

Lemma entry_length_bounds name :
  40 <= entry_length name /\ entry_length name mod 8 = 0.
Proof.
  unfold entry_length, WIM_EXTRA_STREAM_ENTRY_DISK_SIZE.
  destruct (up8_bounds (38 + match name with
                             | Some name => utf16le_len_bytes name + 2
                             | None => 0
                             end)) as [Hb Hm].
  split; [|exact Hm].
  destruct name as [name|].
  - pose proof (utf16le_len_bytes_nonneg name). lia.
  - vm_compute. discriminate.
Qed.

(** *** The extra stream entries *)

Definition is_reparse_point_stream (strm : wim_inode_stream) : bool :=
  bool_decide (stream_type strm = STREAM_TYPE_REPARSE_POINT).

Definition named_data_streams (streams : list wim_inode_stream)
    : list wim_inode_stream :=
  List.filter stream_is_named_data_stream streams.

Definition reparse_point_streams (streams : list wim_inode_stream)
    : list wim_inode_stream :=
  List.filter is_reparse_point_stream streams.

Fixpoint named_entries_length (streams : list wim_inode_stream) : Z :=
  match streams with
  | [] => 0
  | strm :: rest =>
      (if stream_is_named_data_stream strm
       then entry_length (stream_name strm) else 0)
      + named_entries_length rest
  end.

Lemma named_entries_length_bounds streams :
  0 <= named_entries_length streams /\ named_entries_length streams mod 8 = 0.
Proof.
  induction streams as [|strm rest [IH0 IH8]]; simpl; [split; [lia|reflexivity]|].
  destruct (stream_is_named_data_stream strm).
  - destruct (entry_length_bounds (stream_name strm)) as [Hb Hm].
    split; [lia|]. rewrite Z.add_mod, Hm, IH8 by lia. reflexivity.
  - split; [lia|exact IH8].
Qed.

(** The entries of the named data streams, one after the other in the
    order of the streams. *)
Fixpoint named_entries (streams : list wim_inode_stream) (p : Z)
    : list byte :=
  match streams with
  | [] => []
  | strm :: rest =>
      let entry := write_extra_stream_entry p (stream_name strm)
                                            (stream_hash strm) in
      entry ++ named_entries rest (p + Z.of_nat (length entry))
  end.

Lemma write_named_data_streams_spec streams p :
  write_named_data_streams streams p =
  (named_entries (named_data_streams streams) p,
   Z.of_nat (length (named_data_streams streams))).
Proof.
  unfold named_data_streams.
  revert p. induction streams as [|strm rest IH]; intros p.
  - reflexivity.
  - cbn [write_named_data_streams List.filter].
    destruct (stream_is_named_data_stream strm).
    + rewrite IH. cbn [named_entries length]. f_equal. lia.
    + apply IH.
Qed.

Lemma length_named_entries streams p :
  p mod 8 = 0 ->
  Z.of_nat (length (named_entries (named_data_streams streams) p)) =
  named_entries_length streams.
Proof.
  unfold named_data_streams.
  revert p. induction streams as [|strm rest IH]; intros p Hp.
  - reflexivity.
  - cbn [List.filter named_entries_length].
    destruct (stream_is_named_data_stream strm).
    + cbn [named_entries]. rewrite length_app, Nat2Z.inj_add.
      pose proof (length_write_extra_stream_entry p (stream_name strm)
                    (stream_hash strm) Hp) as He.
      rewrite IH, He; [reflexivity|].
      rewrite He. destruct (entry_length_bounds (stream_name strm)) as [_ Hm].
      rewrite Z.add_mod, Hp, Hm by lia. reflexivity.
    + rewrite IH by exact Hp. lia.
Qed.

(** The hash of the last stream that satisfies [f], [dflt] if there is
    none. *)
Fixpoint last_hash (f : wim_inode_stream -> bool)
    (streams : list wim_inode_stream) (dflt : list byte) : list byte :=
  match streams with
  | [] => dflt
  | strm :: rest =>
      last_hash f rest (if f strm then stream_hash strm else dflt)
  end.

Definition is_unnamed_data_stream (strm : wim_inode_stream) : bool :=
  bool_decide (stream_type strm = STREAM_TYPE_DATA)
  && negb (stream_is_named strm).

Lemma scan_streams_spec streams hn hr uh rh :
  scan_streams streams hn hr uh rh =
  (hn || existsb stream_is_named_data_stream streams,
   hr || existsb is_reparse_point_stream streams,
   last_hash is_unnamed_data_stream streams uh,
   last_hash is_reparse_point_stream streams rh).
Proof.
  revert hn hr uh rh. induction streams as [|strm rest IH]; intros hn hr uh rh.
  - simpl. rewrite !orb_false_r. reflexivity.
  - cbn [scan_streams existsb last_hash].
    unfold stream_is_named_data_stream, is_reparse_point_stream,
      is_unnamed_data_stream.
    destruct (stream_type strm) eqn:Et;
      [ rewrite (bool_decide_true (_ = STREAM_TYPE_DATA)) by reflexivity
      | rewrite (bool_decide_false (_ = STREAM_TYPE_DATA)) by discriminate
      | rewrite (bool_decide_false (_ = STREAM_TYPE_DATA)) by discriminate
      | rewrite (bool_decide_false (_ = STREAM_TYPE_DATA)) by discriminate ];
      [ rewrite (bool_decide_false (_ = STREAM_TYPE_REPARSE_POINT)) by discriminate
      | rewrite (bool_decide_true (_ = STREAM_TYPE_REPARSE_POINT)) by reflexivity
      | rewrite (bool_decide_false (_ = STREAM_TYPE_REPARSE_POINT)) by discriminate
      | rewrite (bool_decide_false (_ = STREAM_TYPE_REPARSE_POINT)) by discriminate ];
      cbn [andb orb negb];
      try destruct (stream_is_named strm); cbn [andb orb negb];
      rewrite IH, ?orb_true_r, ?orb_false_r; reflexivity.
Qed.

Lemma out_length_streams_spec streams len hn hr :
  0 <= len -> len + named_entries_length streams < 2 ^ 64 ->
  out_length_streams streams len hn hr =
  (len + named_entries_length streams,
   hn || existsb stream_is_named_data_stream streams,
   hr || existsb is_reparse_point_stream streams).
Proof.
  revert len hn hr. induction streams as [|strm rest IH]; intros len hn hr H0 Hmax.
  - simpl. rewrite !orb_false_r. do 2 f_equal. lia.
  - cbn [out_length_streams existsb named_entries_length] in *.
    destruct (named_entries_length_bounds rest) as [Hr0 _].
    destruct (stream_is_named_data_stream strm) eqn:En.
    + destruct (entry_length_bounds (stream_name strm)) as [He _].
      assert (Hs : stream_out_total_length strm = entry_length (stream_name strm)).
      { unfold stream_out_total_length, entry_length.
        assert (Hn : match stream_name strm with
                     | Some name => WIM_EXTRA_STREAM_ENTRY_DISK_SIZE
                                    + (utf16le_len_bytes name + 2)
                     | None => WIM_EXTRA_STREAM_ENTRY_DISK_SIZE
                     end = WIM_EXTRA_STREAM_ENTRY_DISK_SIZE
                           + match stream_name strm with
                             | Some name => utf16le_len_bytes name + 2
                             | None => 0
                             end).
        { destruct (stream_name strm); lia. }
        cbv zeta. rewrite Hn. apply align8_up8.
        - unfold WIM_EXTRA_STREAM_ENTRY_DISK_SIZE.
          destruct (stream_name strm) as [name|]; [|lia].
          pose proof (utf16le_len_bytes_nonneg name). lia.
        - unfold entry_length in He, Hmax. lia. }
      rewrite Hs. unfold wrap64. rewrite Z.mod_small by lia.
      assert (Hrp : is_reparse_point_stream strm = false).
      { unfold stream_is_named_data_stream in En.
        apply andb_true_iff in En as [Ed _]. apply bool_decide_eq_true in Ed.
        unfold is_reparse_point_stream. rewrite Ed.
        apply bool_decide_false. discriminate. }
      rewrite IH by lia. rewrite orb_true_r, Hrp. cbn [orb].
      do 2 f_equal. lia.
    + unfold is_reparse_point_stream at 1.
      destruct (bool_decide (stream_type strm = STREAM_TYPE_REPARSE_POINT));
        rewrite IH by lia; cbn [orb]; rewrite ?orb_true_r;
        do 2 f_equal; lia.
Qed.

(** *** The dentry record *)

(** A byte count that fits the 16-bit field the C struct stores it in. *)
Definition u16 (z : Z) : Prop := 0 <= z < 2 ^ 16.

Definition names_u16 (dentry : wim_dentry) : Prop :=
  u16 (file_name_nbytes dentry) /\ u16 (short_name_nbytes dentry).

(** The bytes of the dentry itself, up to the end of the tagged items: the
    value of its [length] field. *)
Definition record_length (dentry : wim_dentry) : Z :=
  let len := up8 (dentry_min_len_with_names (file_name_nbytes dentry)
                                            (short_name_nbytes dentry)) in
  let i_extra_size := Z.of_nat (length (i_extra (d_inode dentry))) in
  if negb (i_extra_size =? 0) then up8 (len + i_extra_size) else len.

(** The bytes of the extra stream entries that follow it. *)
Definition entries_length (inode : wim_inode) : Z :=
  let streams := i_streams inode in
  if has_attribute inode FILE_ATTRIBUTE_ENCRYPTED then 0
  else if existsb is_reparse_point_stream streams
          || existsb stream_is_named_data_stream streams
  then (if existsb is_reparse_point_stream streams then 40 else 0) + 40
       + named_entries_length streams
  else 0.

Lemma min_len_u16 fn sn :
  u16 fn -> u16 sn ->
  dentry_min_len_with_names fn sn =
  102 + (if negb (fn =? 0) then fn + 2 else 0)
      + (if negb (sn =? 0) then sn + 2 else 0).
Proof.
  unfold u16, dentry_min_len_with_names, WIM_DENTRY_DISK_SIZE, wrap32.
  intros Hf Hs. cbv zeta.
  rewrite !Z.mod_small by lia.
  destruct (fn =? 0), (sn =? 0); cbn [negb]; lia.
Qed.

Lemma record_length_bounds dentry :
  names_u16 dentry ->
  102 <= record_length dentry /\ record_length dentry mod 8 = 0.
Proof.
  intros [Hf Hs]. unfold record_length. cbv zeta.
  rewrite (min_len_u16 _ _ Hf Hs).
  set (m := 102 + _ + _).
  assert (Hm : 102 <= m).
  { unfold m, u16 in *. destruct (_ =? 0), (_ =? 0); cbn [negb]; lia. }
  destruct (up8_bounds m) as [Hb H8].
  destruct (negb (Z.of_nat (length (i_extra (d_inode dentry))) =? 0));
    [|split; [lia|exact H8]].
  destruct (up8_bounds (up8 m + Z.of_nat (length (i_extra (d_inode dentry)))))
    as [Hb' H8'].
  split; [lia|exact H8'].
Qed.

Lemma length_names_and_extra dentry p :
  p mod 8 = 0 -> names_u16 dentry ->
  WIM_DENTRY_DISK_SIZE
  + Z.of_nat (length (write_dentry_names_and_extra dentry p))
  = record_length dentry.
Proof.
  intros Hp [Hf Hs]. unfold record_length, write_dentry_names_and_extra.
  cbv zeta. rewrite (min_len_u16 _ _ Hf Hs).
  unfold dentry_has_long_name, dentry_has_short_name, WIM_DENTRY_DISK_SIZE.
  set (long := if negb (file_name_nbytes dentry =? 0) then _ else _).
  set (short := if negb (short_name_nbytes dentry =? 0) then _ else _).
  assert (Hl : Z.of_nat (length long) =
               if negb (file_name_nbytes dentry =? 0)
               then file_name_nbytes dentry + 2 else 0).
  { unfold long. destruct (negb (file_name_nbytes dentry =? 0)); [|reflexivity].
    unfold u16 in Hf. unfold wrap32.
    rewrite Z.mod_small by lia. apply length_mempcpy. lia. }
  assert (Hsh : Z.of_nat (length short) =
               if negb (short_name_nbytes dentry =? 0)
               then short_name_nbytes dentry + 2 else 0).
  { unfold short. destruct (negb (short_name_nbytes dentry =? 0)); [|reflexivity].
    unfold u16 in Hs. unfold wrap32.
    rewrite Z.mod_small by lia. apply length_mempcpy. lia. }
  rewrite <- Hl, <- Hsh.
  assert (Hnames : 102 + Z.of_nat (length ((long ++ short) ++
             pad8 (p + 102 + Z.of_nat (length (long ++ short))))) =
           up8 (102 + Z.of_nat (length long) + Z.of_nat (length short))).
  { rewrite length_app, Nat2Z.inj_add, length_pad8.
    rewrite <- Z.add_assoc, up8_add_aligned by exact Hp.
    rewrite length_app, Nat2Z.inj_add. unfold up8.
    replace (102 + (Z.of_nat (length long) + Z.of_nat (length short)))
      with (102 + Z.of_nat (length long) + Z.of_nat (length short)) by lia.
    lia. }
  destruct (negb (Z.of_nat (length (i_extra (d_inode dentry))) =? 0)).
  - rewrite <- Hnames.
    set (names := (long ++ short) ++ pad8 _) in *.
    rewrite length_app, Nat2Z.inj_add, length_pad8.
    rewrite <- Z.add_assoc, up8_add_aligned by exact Hp.
    rewrite length_app, Nat2Z.inj_add. unfold up8.
    replace (102 + (Z.of_nat (length names)
                    + Z.of_nat (length (i_extra (d_inode dentry)))))
      with (102 + Z.of_nat (length names)
            + Z.of_nat (length (i_extra (d_inode dentry)))) by lia.
    lia.
  - exact Hnames.
Qed.

(** An extra stream entry as it is written at an 8-byte aligned place. *)
Definition extra_stream_entry (name : option (list byte)) (hash : list byte)
    : list byte :=
  write_extra_stream_entry 0 name hash.

Lemma write_extra_stream_entry_aligned p name hash :
  p mod 8 = 0 ->
  write_extra_stream_entry p name hash = extra_stream_entry name hash.
Proof.
  intros Hp. unfold extra_stream_entry, write_extra_stream_entry. cbv zeta.
  unfold pad8. rewrite up8_add_aligned by exact Hp.
  rewrite (up8_add_aligned 0) by reflexivity. reflexivity.
Qed.

Lemma named_entries_aligned streams p :
  p mod 8 = 0 ->
  named_entries streams p =
  concat (map (fun strm => extra_stream_entry (stream_name strm)
                                              (stream_hash strm))
              streams).
Proof.
  revert p. induction streams as [|strm rest IH]; intros p Hp.
  - reflexivity.
  - cbn [named_entries map concat].
    pose proof (length_write_extra_stream_entry p (stream_name strm)
                  (stream_hash strm) Hp) as He.
    rewrite IH.
    + rewrite write_extra_stream_entry_aligned by exact Hp. reflexivity.
    + rewrite He. destruct (entry_length_bounds (stream_name strm)) as [_ Hm].
      rewrite Z.add_mod, Hp, Hm by lia. reflexivity.
Qed.

Lemma aligned_add a b : a mod 8 = 0 -> b mod 8 = 0 -> (a + b) mod 8 = 0.
Proof. intros Ha Hb. rewrite Z.add_mod, Ha, Hb by lia. reflexivity. Qed.

Lemma aligned_entry p name hash :
  p mod 8 = 0 ->
  (p + Z.of_nat (length (extra_stream_entry name hash))) mod 8 = 0.
Proof.
  intros Hp. apply aligned_add; [exact Hp|].
  unfold extra_stream_entry.
  rewrite length_write_extra_stream_entry by reflexivity.
  apply entry_length_bounds.
Qed.

(** The stream part of [write_dentry] for an unencrypted inode, with the
    flags and hashes of the first loop spelled out. *)
Lemma write_dentry_streams_unencrypted inode p :
  p mod 8 = 0 ->
  has_attribute inode FILE_ATTRIBUTE_ENCRYPTED = false ->
  let streams := i_streams inode in
  let have_reparse_point_stream := existsb is_reparse_point_stream streams in
  let have_named_data_stream := existsb stream_is_named_data_stream streams in
  write_dentry_streams inode p =
  if have_reparse_point_stream || have_named_data_stream then
    (zero_hash,
     (if have_reparse_point_stream then 1 else 0) + 1
     + Z.of_nat (length (named_data_streams streams)),
     (if have_reparse_point_stream
      then extra_stream_entry None
             (last_hash is_reparse_point_stream streams [])
      else [])
     ++ extra_stream_entry None
          (last_hash is_unnamed_data_stream streams zero_hash)
     ++ concat (map (fun strm => extra_stream_entry (stream_name strm)
                                                    (stream_hash strm))
                    (named_data_streams streams)))
  else (last_hash is_unnamed_data_stream streams zero_hash, 0, []).
Proof.
  intros Hp Henc. cbv zeta. unfold write_dentry_streams. rewrite Henc.
  rewrite scan_streams_spec. cbn [orb].
  destruct (existsb is_reparse_point_stream (i_streams inode)) eqn:Hr;
    destruct (existsb stream_is_named_data_stream (i_streams inode)) eqn:Hn;
    cbn [orb]; try reflexivity.
  - rewrite write_named_data_streams_spec.
    rewrite (write_extra_stream_entry_aligned p) by exact Hp.
    rewrite write_extra_stream_entry_aligned by (apply aligned_entry; exact Hp).
    rewrite named_entries_aligned
      by (apply aligned_entry; apply aligned_entry; exact Hp).
    reflexivity.
  - rewrite write_named_data_streams_spec.
    rewrite (write_extra_stream_entry_aligned p) by exact Hp.
    rewrite write_extra_stream_entry_aligned by (apply aligned_entry; exact Hp).
    rewrite named_entries_aligned
      by (apply aligned_entry; apply aligned_entry; exact Hp).
    reflexivity.
  - rewrite write_named_data_streams_spec.
    cbn [length app]. rewrite Z.add_0_r.
    rewrite (write_extra_stream_entry_aligned p) by exact Hp.
    rewrite named_entries_aligned by (apply aligned_entry; exact Hp).
    reflexivity.
Qed.

Lemma named_entries_length_none streams :
  existsb stream_is_named_data_stream streams = false ->
  named_entries_length streams = 0.
Proof.
  induction streams as [|strm rest IH]; cbn [existsb named_entries_length].
  - reflexivity.
  - intros H. apply orb_false_iff in H as [H1 H2].
    rewrite H1, IH by exact H2. reflexivity.
Qed.

Lemma length_extra_stream_entry_unnamed hash :
  Z.of_nat (length (extra_stream_entry None hash)) = 40.
Proof.
  unfold extra_stream_entry.
  rewrite length_write_extra_stream_entry by reflexivity. reflexivity.
Qed.

Lemma length_concat_named_entries streams :
  Z.of_nat (length (concat (map (fun strm =>
                extra_stream_entry (stream_name strm) (stream_hash strm))
              (named_data_streams streams)))) =
  named_entries_length streams.
Proof.
  rewrite <- (named_entries_aligned _ 0) by reflexivity.
  apply length_named_entries. reflexivity.
Qed.

Lemma entries_length_nonneg inode : 0 <= entries_length inode.
Proof.
  unfold entries_length.
  destruct (named_entries_length_bounds (i_streams inode)) as [H _].
  repeat match goal with |- context [if ?c then _ else _] => destruct c end;
    lia.
Qed.

(** The bytes of [write_dentry]: the fixed-length struct, the rest of the
    dentry up to where its [length] field says it ends, and the extra
    stream entries. *)
Lemma write_dentry_split dentry p :
  p mod 8 = 0 -> names_u16 dentry ->
  exists disk variable_part default_hash num_extra_streams entries,
    write_dentry dentry p = disk_dentry_bytes disk ++ variable_part ++ entries /\
    write_dentry_streams (d_inode dentry) (p + record_length dentry)
      = (default_hash, num_extra_streams, entries) /\
    disk_length disk = record_length dentry /\
    disk_default_hash disk = default_hash /\
    disk_num_extra_streams disk = num_extra_streams /\
    102 + Z.of_nat (length variable_part) = record_length dentry /\
    Z.of_nat (length entries) = entries_length (d_inode dentry).
Proof.
  intros Hp Hn. unfold write_dentry. cbv zeta.
  rewrite (length_names_and_extra dentry p Hp Hn).
  destruct (record_length_bounds dentry Hn) as [Hr0 Hr8].
  assert (Hpr : (p + record_length dentry) mod 8 = 0)
    by (apply aligned_add; assumption).
  destruct (write_dentry_streams (d_inode dentry) (p + record_length dentry))
    as [[default_hash num] entries] eqn:Es.
  eexists _, _, default_hash, num, entries.
  split; [reflexivity|]. split; [reflexivity|].
  cbn [disk_length disk_default_hash disk_num_extra_streams].
  split; [reflexivity|]. split; [reflexivity|]. split; [reflexivity|].
  split; [apply (length_names_and_extra dentry p Hp Hn)|].
  unfold entries_length.
  destruct (has_attribute (d_inode dentry) FILE_ATTRIBUTE_ENCRYPTED) eqn:Henc.
  - unfold write_dentry_streams in Es. rewrite Henc in Es.
    inversion Es; subst. reflexivity.
  - rewrite (write_dentry_streams_unencrypted _ _ Hpr Henc) in Es.
    cbv zeta in Es.
    destruct (existsb is_reparse_point_stream (i_streams (d_inode dentry)));
      destruct (existsb stream_is_named_data_stream (i_streams (d_inode dentry)));
      cbn [orb] in Es |- *;
      pose proof (f_equal snd Es) as E3; cbn [snd] in E3; rewrite <- E3;
      rewrite ?length_app, ?Nat2Z.inj_add, ?length_extra_stream_entry_unnamed,
        ?length_concat_named_entries; try reflexivity; cbn [length]; lia.
Qed.

Lemma dentry_out_total_length_exact dentry :
  names_u16 dentry ->
  record_length dentry + entries_length (d_inode dentry) < 2 ^ 64 ->
  dentry_out_total_length dentry =
  record_length dentry + entries_length (d_inode dentry).
Proof.
  intros Hn Hmax.
  pose proof (entries_length_nonneg (d_inode dentry)) as He0.
  destruct (record_length_bounds dentry Hn) as [Hr0 _].
  assert (Hrec : (let len := align8 (dentry_min_len_with_names
                       (file_name_nbytes dentry) (short_name_nbytes dentry)) in
           if negb (Z.of_nat (length (i_extra (d_inode dentry))) =? 0)
           then align8 (wrap64 (len + Z.of_nat (length (i_extra (d_inode dentry)))))
           else len) = record_length dentry).
  { unfold record_length in *. cbv zeta in *.
    destruct Hn as [Hf Hs].
    rewrite (min_len_u16 _ _ Hf Hs) in *.
    set (m := 102 + _ + _) in *.
    assert (Hm : 102 <= m).
    { unfold m, u16 in *.
      destruct (file_name_nbytes dentry =? 0), (short_name_nbytes dentry =? 0);
        cbn [negb]; lia. }
    destruct (up8_bounds m) as [Hb _].
    destruct (negb (Z.of_nat (length (i_extra (d_inode dentry))) =? 0)).
    - destruct (up8_bounds (up8 m + Z.of_nat (length (i_extra (d_inode dentry)))))
        as [Hb' _].
      rewrite (align8_up8 m) by lia.
      unfold wrap64. rewrite Z.mod_small by lia.
      apply align8_up8; lia.
    - apply align8_up8; lia. }
  unfold dentry_out_total_length. cbv zeta in Hrec |- *. rewrite Hrec.
  unfold entries_length in *.
  destruct (has_attribute (d_inode dentry) FILE_ATTRIBUTE_ENCRYPTED);
    cbn [negb]; [lia|].
  destruct (named_entries_length_bounds (i_streams (d_inode dentry))) as [Hne0 _].
  assert (Hmax' : record_length dentry
                  + named_entries_length (i_streams (d_inode dentry)) < 2 ^ 64).
  { destruct (existsb stream_is_named_data_stream (i_streams (d_inode dentry))) eqn:En.
    - rewrite orb_true_r in Hmax.
      destruct (existsb is_reparse_point_stream (i_streams (d_inode dentry))); lia.
    - rewrite (named_entries_length_none _ En). lia. }
  rewrite out_length_streams_spec by lia. cbn [orb].
  change (align8 WIM_EXTRA_STREAM_ENTRY_DISK_SIZE) with 40.
  destruct (existsb stream_is_named_data_stream (i_streams (d_inode dentry))) eqn:En;
    destruct (existsb is_reparse_point_stream (i_streams (d_inode dentry))) eqn:Er;
    cbn [orb] in *; unfold wrap64;
    rewrite ?(Z.mod_small (record_length dentry
                + named_entries_length (i_streams (d_inode dentry)) + 40))
      by lia;
    rewrite ?Z.mod_small by lia;
    rewrite ?(named_entries_length_none _ En); lia.
Qed.

(** *** Reading the fields back out of the bytes *)

Lemma field_skip (a l : list byte) off n (m : nat) :
  length a = m -> Z.of_nat m <= off ->
  field (a ++ l) off n = field l (off - Z.of_nat m) n.
Proof.
  intros Ha Hoff. unfold field. f_equal.
  replace (Z.to_nat off) with (length a + Z.to_nat (off - Z.of_nat m))%nat by lia.
  apply drop_app_add.
Qed.

Lemma field_here (a l : list byte) (n : nat) :
  length a = n -> field (a ++ l) 0 n = a.
Proof.
  intros Ha. unfold field. change (Z.to_nat 0) with 0%nat. rewrite drop_0.
  apply take_app_length'. symmetry. exact Ha.
Qed.

Lemma get_le_skip (a l : list byte) off n (m : nat) :
  length a = m -> Z.of_nat m <= off ->
  get_le (a ++ l) off n = get_le l (off - Z.of_nat m) n.
Proof.
  intros Ha Hoff. unfold get_le. f_equal. apply map_ext. intros k.
  rewrite lookup_total_app_r by lia. f_equal. lia.
Qed.

Lemma get_le_here (a l : list byte) (n : nat) :
  length a = n -> get_le (a ++ l) 0 n = le_decode a.
Proof.
  intros Ha. unfold get_le. f_equal. change (Z.to_nat 0) with 0%nat.
  cbn [Nat.add].
  transitivity (map (fun k => a !!! k) (seq 0 (length a)));
    [|apply map_lookup_seq].
  rewrite Ha. apply map_ext_in. intros k Hk. apply in_seq in Hk.
  apply lookup_total_app_l. lia.
Qed.

Ltac skip_field m :=
  first [ rewrite (get_le_skip _ _ _ _ m)
            by (rewrite ?length_le_encode, ?length_resize; try reflexivity; lia)
        | rewrite (field_skip _ _ _ _ m)
            by (rewrite ?length_le_encode, ?length_resize; try reflexivity; lia) ].

Lemma disk_dentry_length_field disk rest :
  get_le (disk_dentry_bytes disk ++ rest) 0 8 = wrap64 (disk_length disk).
Proof.
  unfold disk_dentry_bytes. rewrite <- !app_assoc.
  rewrite get_le_here by apply length_le_encode.
  apply (le_decode_encode 8).
Qed.

Lemma disk_dentry_default_hash_field disk rest :
  field (disk_dentry_bytes disk ++ rest) 64 20 =
  resize 20 x00 (disk_default_hash disk).
Proof.
  unfold disk_dentry_bytes. rewrite <- !app_assoc.
  skip_field 8%nat. skip_field 4%nat. skip_field 4%nat.
  do 6 skip_field 8%nat.
  apply field_here. apply length_resize.
Qed.

Lemma disk_dentry_num_extra_streams_field disk rest :
  get_le (disk_dentry_bytes disk ++ rest) 96 2 =
  wrap16 (disk_num_extra_streams disk).
Proof.
  unfold disk_dentry_bytes. rewrite <- !app_assoc.
  skip_field 8%nat. skip_field 4%nat. skip_field 4%nat.
  do 6 skip_field 8%nat. skip_field 20%nat. skip_field 12%nat.
  rewrite get_le_here by apply length_le_encode.
  apply (le_decode_encode 2).
Qed.

Lemma reparse_point_streams_count streams :
  Z.of_nat (length (reparse_point_streams streams)) `min` 1 =
  if existsb is_reparse_point_stream streams then 1 else 0.
Proof.
  unfold reparse_point_streams.
  induction streams as [|strm rest IH];
    cbn [List.filter existsb]; [reflexivity|].
  destruct (is_reparse_point_stream strm); cbn [orb length]; [lia|exact IH].
Qed.

(** *** C10 and C4 *)

(** C10 (claim): the number of bytes [write_dentry] produces is
    [dentry_out_total_length].  [write_dentry] asserts that [p] is 8-byte
    aligned; the name lengths are the 16-bit fields of the dentry; the
    byte count fits the [size_t] that [dentry_out_total_length] returns. *)
Theorem write_dentry_length_is_out_total_length (dentry : wim_dentry) (p : Z) :
  p mod 8 = 0 ->
  names_u16 dentry ->
  Z.of_nat (length (write_dentry dentry p)) < 2 ^ 64 ->
  Z.of_nat (length (write_dentry dentry p)) = dentry_out_total_length dentry.
Proof.
  intros Hp Hn Hmax.
  destruct (write_dentry_split dentry p Hp Hn)
    as (disk & var & dh & num & entries & Eout & _ & _ & _ & _ & Hvar & Hent).
  assert (Hlen : Z.of_nat (length (write_dentry dentry p)) =
                 record_length dentry + entries_length (d_inode dentry)).
  { rewrite Eout, !length_app, length_disk_dentry_bytes, !Nat2Z.inj_add. lia. }
  rewrite dentry_out_total_length_exact; [exact Hlen | exact Hn | lia].
Qed.

(** What the bytes [out] written for [dentry] hold for its streams: the
    [length] field, the [default_hash] field at offset 64, the
    [num_extra_streams] field at offset 96, and the bytes behind the
    dentry. *)
Definition extra_streams_layout (dentry : wim_dentry) (out : list byte)
    : Prop :=
  let streams := i_streams (d_inode dentry) in
  let have_reparse_point_stream := existsb is_reparse_point_stream streams in
  let have_named_data_stream := existsb stream_is_named_data_stream streams in
  let unnamed_data_hash := last_hash is_unnamed_data_stream streams zero_hash in
  let entries := drop (Z.to_nat (record_length dentry)) out in
  get_le out 0 8 = wrap64 (record_length dentry) /\
  if have_reparse_point_stream || have_named_data_stream
  then
    field out 64 20 = zero_hash /\
    get_le out 96 2 =
      wrap16 ((if have_reparse_point_stream then 1 else 0) + 1
              + Z.of_nat (length (named_data_streams streams))) /\
    entries =
      (if have_reparse_point_stream
       then extra_stream_entry None
              (last_hash is_reparse_point_stream streams [])
       else [])
      ++ extra_stream_entry None unnamed_data_hash
      ++ concat (map (fun strm => extra_stream_entry (stream_name strm)
                                                     (stream_hash strm))
                     (named_data_streams streams))
  else
    field out 64 20 = resize 20 x00 unnamed_data_hash /\
    get_le out 96 2 = 0 /\
    entries = [].

(** C4 (claim): what [write_dentry] writes for the streams of an
    unencrypted inode.  With a reparse point stream or a named data stream:
    the [default_hash] field is zero, and behind the dentry come the entry
    of the reparse point stream if there is one, the entry of the unnamed
    data stream (with a zero hash if the inode has none), and one entry per
    named data stream in the order of [i_streams]; [num_extra_streams]
    counts them.  With neither: [default_hash] is the hash of the unnamed
    data stream, [num_extra_streams] is 0 and no entry follows. *)
Theorem write_dentry_extra_streams (dentry : wim_dentry) (p : Z) :
  p mod 8 = 0 ->
  names_u16 dentry ->
  has_attribute (d_inode dentry) FILE_ATTRIBUTE_ENCRYPTED = false ->
  extra_streams_layout dentry (write_dentry dentry p).
Proof.
  intros Hp Hn Henc. unfold extra_streams_layout. cbv zeta.
  destruct (record_length_bounds dentry Hn) as [Hr0 Hr8].
  assert (Hpr : (p + record_length dentry) mod 8 = 0)
    by (apply aligned_add; assumption).
  destruct (write_dentry_split dentry p Hp Hn)
    as (disk & var & dh & num & entries & Eout & Es & Hdl & Hdh & Hdn & Hvar & _).
  rewrite Eout, disk_dentry_length_field, disk_dentry_default_hash_field,
    disk_dentry_num_extra_streams_field, Hdl, Hdh, Hdn.
  split; [reflexivity|].
  assert (Hdrop : drop (Z.to_nat (record_length dentry))
                       (disk_dentry_bytes disk ++ var ++ entries) = entries).
  { rewrite app_assoc. apply drop_app_length'.
    rewrite length_app, length_disk_dentry_bytes. lia. }
  rewrite Hdrop.
  rewrite (write_dentry_streams_unencrypted _ _ Hpr Henc) in Es. cbv zeta in Es.
  destruct (existsb is_reparse_point_stream (i_streams (d_inode dentry)));
    destruct (existsb stream_is_named_data_stream (i_streams (d_inode dentry)));
    cbn [orb] in Es |- *;
    pose proof (f_equal snd Es) as E3;
    pose proof (f_equal (fun x => fst (fst x)) Es) as E1;
    pose proof (f_equal (fun x => snd (fst x)) Es) as E2;
    cbn [fst snd] in E1, E2, E3; rewrite <- E1, <- E2, <- E3;
    repeat split; reflexivity.
Qed.

(** A file [a] with a reparse point stream, an unnamed data stream and the
    named data stream [s], and the same file without the first and the
    last. *)
Definition sample_inode (attributes : Z) (streams : list wim_inode_stream)
    : wim_inode :=
  {| i_attributes := attributes;
     i_security_id := -1; i_creation_time := 0; i_last_access_time := 0;
     i_last_write_time := 0; i_ino := 0; i_nlink := 1;
     i_rp_unknown_1 := 0; i_reparse_tag := 0xA000000C;
     i_rp_unknown_2 := 0; i_not_rpfixed := 1;
     i_streams := streams; i_extra := [] |}.

Definition sample_typed_stream (name : option (list byte)) (b : byte)
    (type : stream_type_t) (id : Z) : wim_inode_stream :=
  {| stream_name := name; _stream_hash := replicate 20 b;
     stream_type := type; stream_id := id |}.

Definition sample_dentry (inode : wim_inode) : wim_dentry :=
  {| d_inode := inode;
     file_name := [x61; x00]; file_name_nbytes := 2;
     short_name := []; short_name_nbytes := 0;
     subdir_offset := 0 |}.

Definition sample_with_extra_streams : wim_dentry :=
  sample_dentry
    (sample_inode FILE_ATTRIBUTE_REPARSE_POINT
       [sample_typed_stream None x01 STREAM_TYPE_REPARSE_POINT 0;
        sample_typed_stream None x02 STREAM_TYPE_DATA 1;
        sample_typed_stream (Some [x73; x00]) x03 STREAM_TYPE_DATA 2]).

Definition sample_plain : wim_dentry :=
  sample_dentry
    (sample_inode 0x20 [sample_typed_stream None x02 STREAM_TYPE_DATA 0]).

Example sample_with_extra_streams_sizes :
  length (write_dentry sample_with_extra_streams 0) = 240%nat /\
  dentry_out_total_length sample_with_extra_streams = 240 /\
  get_le (write_dentry sample_with_extra_streams 0) 96 2 = 3.
Proof. vm_compute. repeat split. Qed.

Example sample_plain_sizes :
  length (write_dentry sample_plain 0) = 112%nat /\
  dentry_out_total_length sample_plain = 112 /\
  field (write_dentry sample_plain 0) 64 20 = replicate 20 x02.
Proof. vm_compute. repeat split. Qed.

Lemma write_dentry_length_is_out_total_length_witness :
  0 mod 8 = 0 /\ names_u16 sample_with_extra_streams /\
  Z.of_nat (length (write_dentry sample_with_extra_streams 0)) < 2 ^ 64 /\
  Z.of_nat (length (write_dentry sample_with_extra_streams 0)) =
  dentry_out_total_length sample_with_extra_streams.
Proof.
  assert (H8 : 0 mod 8 = 0) by reflexivity.
  assert (Hn : names_u16 sample_with_extra_streams).
  { unfold names_u16, u16. simpl. lia. }
  assert (Hmax : Z.of_nat (length (write_dentry sample_with_extra_streams 0))
                 < 2 ^ 64).
  { vm_compute. reflexivity. }
  split; [exact H8|]. split; [exact Hn|]. split; [exact Hmax|].
  apply write_dentry_length_is_out_total_length; assumption.
Defined.

Lemma write_dentry_extra_streams_witness :
  0 mod 8 = 0 /\ names_u16 sample_with_extra_streams /\
  has_attribute (d_inode sample_with_extra_streams) FILE_ATTRIBUTE_ENCRYPTED
    = false /\
  extra_streams_layout sample_with_extra_streams
                       (write_dentry sample_with_extra_streams 0).
Proof.
  assert (H8 : 0 mod 8 = 0) by reflexivity.
  assert (Hn : names_u16 sample_with_extra_streams).
  { unfold names_u16, u16. simpl. lia. }
  assert (He : has_attribute (d_inode sample_with_extra_streams)
                             FILE_ATTRIBUTE_ENCRYPTED = false).
  { reflexivity. }
  split; [exact H8|]. split; [exact Hn|]. split; [exact He|].
  apply write_dentry_extra_streams; assumption.
Defined.

End DentryWriteFacts.
(** ** dentry.c: path lookup *)

Module DentryLookupFacts.
Import Bytes Dentry.

Section LookupFacts.

Variable WIM_PATH_SEPARATOR : Z.
Variable upcase : Z -> Z.
Variable default_ignore_case : bool.
Variable case_type : CASE_SENSITIVITY_TYPE.

Hypothesis separator_nonzero : WIM_PATH_SEPARATOR <> 0.

Abbreviation sep := WIM_PATH_SEPARATOR.
Abbreviation child_of dir name :=
  (get_dentry_child_with_utf16le_name upcase default_ignore_case
     dir name case_type).
Abbreviation lookup root path :=
  (get_dentry WIM_PATH_SEPARATOR upcase default_ignore_case
     root path case_type).
Abbreviation loop fuel cur path :=
  (get_dentry_loop WIM_PATH_SEPARATOR upcase default_ignore_case
     fuel cur path case_type).

Definition is_directory (t : dentry_tree) : bool :=
  dentry_is_directory (root_dentry t).

(** *** Path resolution as the specification words it *)

(** The components of a path: the maximal runs of code units without a
    separator. *)
Fixpoint components (path : list Z) : list (list Z) :=
  match path with
  | [] => []
  | c :: rest =>
      if c =? sep then components rest
      else
        match rest with
        | [] => [[c]]
        | c' :: _ =>
            if c' =? sep then [c] :: components rest
            else
              match components rest with
              | name :: names => (c :: name) :: names
              | [] => [[c]]
              end
        end
  end.

(** Whether the path ends with a separator. *)
Fixpoint ends_with_separator (path : list Z) : bool :=
  match path with
  | [] => false
  | [c] => c =? sep
  | _ :: rest => ends_with_separator rest
  end.

(** Component by component from [cur]: the current node has to be a
    directory, and the component has to be found in it; separators behind
    the last component make the same demand on the final node. *)
Fixpoint walk (cur : dentry_tree) (names : list (list Z)) (trailing : bool)
    : lookup_result :=
  match names with
  | [] =>
      if trailing && negb (is_directory cur) then Null ENOTDIR else Found cur
  | name :: rest =>
      if negb (is_directory cur) then Null ENOTDIR
      else
        match child_of cur name with
        | None => Null ENOENT
        | Some child => walk child rest trailing
        end
  end.

(** The dentry a list of components leads to from [cur], through
    directories only. *)
Fixpoint resolves (cur : dentry_tree) (names : list (list Z))
    : option dentry_tree :=
  match names with
  | [] => Some cur
  | name :: rest =>
      if is_directory cur then
        match child_of cur name with
        | Some child => resolves child rest
        | None => None
        end
      else None
  end.

(** *** The loop of [get_dentry_utf16le] walks the components *)

Definition no_zero (path : list Z) : Prop := Forall (fun c => c <> 0) path.

Lemma skip_separators_length path :
  (length (skip_separators sep path) <= length path)%nat.
Proof.
  induction path as [|c rest IH]; simpl; [lia|].
  destruct (c =? sep); simpl; lia.
Qed.

Lemma skip_separators_head path :
  match skip_separators sep path with
  | [] => True
  | c :: _ => c <> sep
  end.
Proof.
  induction path as [|c rest IH]; simpl; [exact I|].
  destruct (Z.eqb_spec c sep); [exact IH|assumption].
Qed.

Lemma skip_separators_no_zero path :
  no_zero path -> no_zero (skip_separators sep path).
Proof.
  induction 1 as [|c rest Hc Hr IH]; simpl; [constructor|].
  destruct (c =? sep); [exact IH|constructor; assumption].
Qed.

Lemma components_skip path :
  components (skip_separators sep path) = components path.
Proof.
  induction path as [|c rest IH]; [reflexivity|].
  cbn [skip_separators]. destruct (Z.eqb_spec c sep) as [->|Hc].
  - rewrite IH. cbn [components]. rewrite Z.eqb_refl. reflexivity.
  - reflexivity.
Qed.

Lemma ends_with_separator_skip path :
  skip_separators sep path <> [] ->
  ends_with_separator (skip_separators sep path) = ends_with_separator path.
Proof.
  induction path as [|c rest IH]; [reflexivity|].
  cbn [skip_separators]. destruct (Z.eqb_spec c sep) as [->|Hc]; [|reflexivity].
  intros Hne. rewrite IH by exact Hne.
  destruct rest as [|c' rest']; [contradiction|reflexivity].
Qed.

Lemma only_separators path :
  skip_separators sep path = [] ->
  components path = [] /\
  ends_with_separator path = negb (bool_decide (path = [])).
Proof.
  induction path as [|c rest IH]; [intros _; split; reflexivity|].
  cbn [skip_separators components].
  destruct (Z.eqb_spec c sep) as [->|Hc]; [|discriminate].
  intros H. destruct (IH H) as [IH1 IH2]. split; [exact IH1|].
  rewrite bool_decide_false by discriminate. cbn [negb].
  destruct rest as [|c' rest']; [cbn; apply Z.eqb_refl|].
  cbn [ends_with_separator] in *. rewrite IH2.
  rewrite bool_decide_false by discriminate. reflexivity.
Qed.

(** The scan of a component: what is passed over and what is left. *)
Lemma scan_name_spec (c : Z) (q : list Z) :
  c <> sep -> no_zero q ->
  let '(name, name_end) := scan_name sep q in
  components (c :: q) = (c :: name) :: components name_end /\
  ends_with_separator (c :: q) = ends_with_separator name_end /\
  (length name_end <= length q)%nat /\
  no_zero name_end.
Proof.
  intros Hc Hq. revert c Hc.
  induction Hq as [|c' rest Hc' Hrest IH]; intros c Hc.
  - cbn [scan_name components ends_with_separator].
    destruct (Z.eqb_spec c sep); [contradiction|].
    repeat split; auto. constructor.
  - cbn [scan_name].
    destruct (Z.eqb_spec c' sep) as [->|Hne]; cbn [negb andb].
    + cbn [components ends_with_separator].
      destruct (Z.eqb_spec c sep); [contradiction|]. rewrite Z.eqb_refl.
      repeat split; auto. constructor; assumption.
    + destruct (Z.eqb_spec c' 0); [contradiction|]. cbn [negb].
      specialize (IH c' Hne).
      destruct (scan_name sep rest) as [name name_end].
      destruct IH as (IH1 & IH2 & IH3 & IH4).
      change (components (c :: c' :: rest)) with
        (if c =? sep then components (c' :: rest)
         else if c' =? sep then [c] :: components (c' :: rest)
         else match components (c' :: rest) with
              | name :: names => (c :: name) :: names
              | [] => [[c]]
              end).
      destruct (Z.eqb_spec c sep); [contradiction|].
      destruct (Z.eqb_spec c' sep); [contradiction|].
      rewrite IH1.
      change (ends_with_separator (c :: c' :: rest))
        with (ends_with_separator (c' :: rest)).
      repeat split; auto. simpl. lia.
Qed.

Lemma components_nil path :
  components path = [] -> skip_separators sep path = [].
Proof.
  induction path as [|c rest IH]; [reflexivity|].
  cbn [components skip_separators].
  destruct (Z.eqb_spec c sep); [exact IH|].
  destruct rest as [|c' rest']; [discriminate|].
  destruct (c' =? sep); [discriminate|].
  destruct (components (c' :: rest')); discriminate.
Qed.

Lemma loop_null fuel path :
  loop (S fuel) None path = Some (Null ENOENT).
Proof. reflexivity. Qed.

(** The refinement: with fuel above the length of the path, the loop
    returns what the walk over the components returns. *)
Lemma loop_is_walk fuel cur path :
  no_zero path -> (length path < fuel)%nat ->
  loop fuel (Some cur) path =
  Some (walk cur (components path) (ends_with_separator path)).
Proof.
  revert cur path. induction fuel as [|fuel IH]; intros cur path Hz Hf; [lia|].
  cbn [get_dentry_loop].
  destruct path as [|c rest].
  - cbn. reflexivity.
  - inversion Hz as [|? ? Hc Hrest]; subst.
    cbn [deref hd]. destruct (Z.eqb_spec c 0); [contradiction|]. cbn [negb andb].
    fold (is_directory cur).
    destruct (is_directory cur) eqn:Hd; cbn [negb].
    2:{ destruct (components (c :: rest)) eqn:Ec; cbn [walk]; rewrite Hd;
          cbn [negb]; [|reflexivity].
        apply components_nil in Ec. apply only_separators in Ec as [_ Et].
        rewrite Et, bool_decide_false by discriminate. reflexivity. }
    destruct (skip_separators sep (c :: rest)) as [|c1 q] eqn:Es.
    + cbn [deref hd Z.eqb].
      apply only_separators in Es as [Ec Et]. rewrite Ec, Et.
      rewrite bool_decide_false by discriminate.
      cbn [walk negb andb]. rewrite Hd. reflexivity.
    + assert (Hhd := skip_separators_head (c :: rest)). rewrite Es in Hhd.
      pose proof (skip_separators_no_zero _ Hz) as Hz'. rewrite Es in Hz'.
      inversion Hz' as [|? ? Hc1 Hq]; subst.
      cbn [deref hd tl]. destruct (Z.eqb_spec c1 0); [contradiction|].
      pose proof (scan_name_spec c1 q Hhd Hq) as Hsc.
      destruct (scan_name sep q) as [name name_end].
      destruct Hsc as (Hsc1 & Hsc2 & Hsc3 & Hsc4).
      rewrite <- (components_skip (c :: rest)), Es, Hsc1.
      rewrite <- (ends_with_separator_skip (c :: rest))
        by (rewrite Es; discriminate).
      rewrite Es, Hsc2. cbn [walk]. rewrite Hd. cbn [negb].
      pose proof (skip_separators_length (c :: rest)) as Hlen.
      rewrite Es in Hlen. cbn [length] in Hlen, Hf.
      destruct (child_of cur (c1 :: name)) as [child|].
      * apply IH; [exact Hsc4|lia].
      * destruct fuel; [lia|reflexivity].
Qed.

Lemma get_dentry_is_walk root path :
  no_zero path ->
  lookup (Some root) path =
  Some (walk root (components path) (ends_with_separator path)).
Proof.
  intros Hz. unfold get_dentry, get_dentry_utf16le.
  apply loop_is_walk; [exact Hz|lia].
Qed.

(** *** When the walk fails *)

Lemma walk_notdir cur names trailing :
  walk cur names trailing = Null ENOTDIR <->
  exists (i : nat) d,
    (i <= length names)%nat /\
    ((i < length names)%nat \/ trailing = true) /\
    resolves cur (take i names) = Some d /\
    is_directory d = false.
Proof.
  revert cur. induction names as [|name rest IH]; intros cur.
  - cbn [walk length]. split.
    + destruct trailing; cbn [andb]; [|discriminate].
      destruct (is_directory cur) eqn:Hd; cbn [negb]; [discriminate|].
      intros _. exists 0%nat, cur. cbn. repeat split; auto.
    + intros (i & d & Hi & Ht & Hr & Hd).
      assert (Ei : i = 0%nat) by lia. subst i. cbn in Hr. injection Hr as <-.
      destruct Ht as [Ht | ->]; [lia|]. rewrite Hd. reflexivity.
  - cbn [walk length]. split.
    + destruct (is_directory cur) eqn:Hd; cbn [negb].
      * destruct (child_of cur name) as [child|] eqn:Ec; [|discriminate].
        intros H. apply IH in H as (i & d & Hi & Ht & Hr & Hdd).
        exists (S i), d. cbn [take resolves]. rewrite Hd, Ec.
        split; [lia|]. split; [|split; assumption].
        destruct Ht as [Ht|Ht]; [left; lia|right; exact Ht].
      * intros _. exists 0%nat, cur. cbn.
        split; [lia|]. split; [left; lia|]. split; [reflexivity|exact Hd].
    + intros (i & d & Hi & Ht & Hr & Hdd).
      destruct i as [|i].
      * cbn in Hr. injection Hr as <-. rewrite Hdd. reflexivity.
      * cbn [take resolves] in Hr.
        destruct (is_directory cur); [|discriminate]. cbn [negb].
        destruct (child_of cur name) as [child|]; [|discriminate].
        apply IH. exists i, d.
        split; [lia|]. split; [|split; assumption].
        destruct Ht as [Ht|Ht]; [left; lia|right; exact Ht].
Qed.

Lemma walk_noent cur names trailing :
  walk cur names trailing = Null ENOENT <->
  exists (i : nat) dir name,
    names !! i = Some name /\
    resolves cur (take i names) = Some dir /\
    is_directory dir = true /\
    child_of dir name = None.
Proof.
  revert cur. induction names as [|name rest IH]; intros cur.
  - cbn [walk]. split.
    + destruct (trailing && negb (is_directory cur)); discriminate.
    + intros (i & dir & nm & Hn & _). rewrite lookup_nil in Hn. discriminate.
  - cbn [walk]. split.
    + destruct (is_directory cur) eqn:Hd; cbn [negb]; [|discriminate].
      destruct (child_of cur name) as [child|] eqn:Ec.
      * intros H. apply IH in H as (i & dir & nm & Hn & Hr & Hdd & Hc).
        exists (S i), dir, nm. cbn [take resolves]. rewrite Hd, Ec.
        repeat split; auto.
      * intros _. exists 0%nat, cur, name. cbn. repeat split; auto.
    + intros (i & dir & nm & Hn & Hr & Hdd & Hc).
      destruct i as [|i].
      * cbn in Hn, Hr. injection Hn as <-. injection Hr as <-.
        rewrite Hdd, Hc. reflexivity.
      * cbn [take resolves] in Hr. cbn in Hn.
        destruct (is_directory cur); [|discriminate]. cbn [negb].
        destruct (child_of cur name) as [child|]; [|discriminate].
        apply IH. exists i, dir, nm. repeat split; auto.
Qed.

(** What the claim says of a lookup from [root]:
    - separators at the head of the path are ignored, and the empty path
      is the root;
    - the lookup fails with [ENOTDIR] exactly when one of the components,
      with path text behind it (more components, or separators only),
      leads to a dentry that is not a directory;
    - the lookup fails with [ENOENT] when a component is not found in the
      directory the components before it lead to. *)
Definition path_resolution_law (root : dentry_tree) (path : list Z) : Prop :=
  let names := components path in
  lookup (Some root) (sep :: path) = lookup (Some root) path /\
  lookup (Some root) [] = Some (Found root) /\
  (lookup (Some root) path = Some (Null ENOTDIR) <->
   exists (i : nat) d,
     (1 <= i <= length names)%nat /\
     ((i < length names)%nat \/ ends_with_separator path = true) /\
     resolves root (take i names) = Some d /\
     is_directory d = false) /\
  (forall (i : nat) dir name,
     names !! i = Some name ->
     resolves root (take i names) = Some dir ->
     is_directory dir = true ->
     child_of dir name = None ->
     lookup (Some root) path = Some (Null ENOENT)).

(** C8 (claim): path lookup from a root directory, for a path that is a C
    string (no zero code unit before its end). *)
Theorem get_dentry_path_resolution (root : dentry_tree) (path : list Z) :
  no_zero path ->
  is_directory root = true ->
  path_resolution_law root path.
Proof.
  intros Hz Hroot. unfold path_resolution_law. cbv zeta.
  assert (Hz' : no_zero (sep :: path)) by (constructor; assumption).
  rewrite !get_dentry_is_walk by (assumption || constructor).
  split; [|split; [|split]].
  - f_equal. cbn [components]. rewrite Z.eqb_refl.
    destruct path as [|c rest]; [|reflexivity].
    cbn [components ends_with_separator walk]. rewrite Hroot.
    rewrite andb_false_r. reflexivity.
  - cbn. reflexivity.
  - split.
    + intros H. injection H as H. apply walk_notdir in H
        as (i & d & Hi & Ht & Hr & Hd).
      exists i, d. split; [|split; [exact Ht|split; assumption]].
      destruct i; [|lia]. cbn in Hr. injection Hr as <-. congruence.
    + intros (i & d & Hi & Ht & Hr & Hd). f_equal. apply walk_notdir.
      exists i, d. split; [lia|]. split; [exact Ht|split; assumption].
  - intros i dir name Hn Hr Hd Hc. f_equal. apply walk_noent.
    exists i, dir, name. repeat split; auto.
Qed.

End LookupFacts.

(** A root directory with the file [a] and the empty directory [d]; paths
    are written with [/]. *)
Definition sample_node (name : list byte) (attributes : Z)
    (children : list dentry_tree) : dentry_tree :=
  Node {| d_inode := {| i_attributes := attributes;
                        i_security_id := -1; i_creation_time := 0;
                        i_last_access_time := 0; i_last_write_time := 0;
                        i_ino := 0; i_nlink := 1; i_rp_unknown_1 := 0;
                        i_reparse_tag := 0; i_rp_unknown_2 := 0;
                        i_not_rpfixed := 1; i_streams := [];
                        i_extra := [] |};
          file_name := name;
          file_name_nbytes := Z.of_nat (length name);
          short_name := []; short_name_nbytes := 0;
          subdir_offset := 0 |}
       children.

Definition sample_root : dentry_tree :=
  sample_node [] FILE_ATTRIBUTE_DIRECTORY
    [sample_node [x61; x00] 0x20 [];
     sample_node [x64; x00] FILE_ATTRIBUTE_DIRECTORY []].

Definition sample_lookup (path : list Z) : option lookup_result :=
  get_dentry 0x2f (fun c => c) false (Some sample_root) path
             WIMLIB_CASE_SENSITIVE.

Example sample_lookups :
  sample_lookup [0x2f; 0x2f; 0x64; 0x2f] =
    Some (Found (sample_node [x64; x00] FILE_ATTRIBUTE_DIRECTORY [])) /\
  sample_lookup [0x61] = Some (Found (sample_node [x61; x00] 0x20 [])) /\
  sample_lookup [0x61; 0x2f] = Some (Null ENOTDIR) /\
  sample_lookup [0x61; 0x2f; 0x62] = Some (Null ENOTDIR) /\
  sample_lookup [0x64; 0x2f; 0x62] = Some (Null ENOENT) /\
  sample_lookup [0x62] = Some (Null ENOENT).
Proof. vm_compute. repeat split. Qed.

Lemma get_dentry_path_resolution_witness :
  0x2f <> 0 /\ no_zero [0x61; 0x2f] /\ is_directory sample_root = true /\
  path_resolution_law 0x2f (fun c => c) false WIMLIB_CASE_SENSITIVE
                      sample_root [0x61; 0x2f].
Proof.
  assert (Hs : 0x2f <> 0) by lia.
  assert (Hz : no_zero [0x61; 0x2f]) by (repeat constructor; lia).
  assert (Hd : is_directory sample_root = true) by reflexivity.
  split; [exact Hs|]. split; [exact Hz|]. split; [exact Hd|].
  apply get_dentry_path_resolution; assumption.
Defined.

End DentryLookupFacts.
(** ** xml_windows.c: the system root that is chosen *)

Module XmlWindowsFacts.
Import Bytes Dentry XmlWindows.

Section SystemRootFacts.

Variable upcase : Z -> Z.
Variable default_ignore_case : bool.
Variable xml_document : Type.
Variable do_set_windows_specific_info :
  xml_document -> dentry_tree ->
  option dentry_tree -> option dentry_tree -> option dentry_tree ->
  Z * xml_document.

Abbreviation get_child := (GET_CHILD upcase default_ignore_case).
Abbreviation named_windows := (is_default_systemroot upcase).
Abbreviation step := (consider upcase default_ignore_case).
Abbreviation set_info :=
  (set_windows_specific_info upcase default_ignore_case xml_document
     do_set_windows_specific_info).

(** *** The choice as the specification words it *)

Definition is_subdirectory (d : dentry_tree) : bool :=
  dentry_is_directory (root_dentry d).

(** The files looked for under [System32]: [kernel32.dll],
    [config/SOFTWARE] and [config/SYSTEM]. *)
Definition kernel32_under (system32 : dentry_tree) : option dentry_tree :=
  get_child system32 kernel32_name.

Definition config_file_under (system32 : dentry_tree) (name : list Z)
    : option dentry_tree :=
  match get_child system32 config_name with
  | Some config => get_child config name
  | None => None
  end.

(** The score of a top-level directory: how many of the three files are
    found under its [System32]. *)
Definition windows_score (d : dentry_tree) : Z :=
  match get_child d system32_name with
  | Some system32 =>
      found (kernel32_under system32)
      + found (config_file_under system32 software_name)
      + found (config_file_under system32 system_name)
  | None => 0
  end.

Lemma found_range p : 0 <= found p <= 1.
Proof. destruct p; simpl; lia. Qed.

Lemma windows_score_range d : 0 <= windows_score d <= 3.
Proof.
  unfold windows_score. destruct (get_child d system32_name); [|lia].
  pose proof (found_range (kernel32_under d0)).
  pose proof (found_range (config_file_under d0 software_name)).
  pose proof (found_range (config_file_under d0 system_name)).
  lia.
Qed.

(** *** The loop keeps a best directory *)

#[local] Ltac in_app :=
  apply elem_of_app;
  first [left; assumption | right; apply list_elem_of_singleton; reflexivity].

(** What holds of the variables of the loop once the directories of
    [seen] are behind it. *)
Definition chosen (seen : list dentry_tree) (b : best) : Prop :=
  0 <= best_score b /\
  (forall d, d ∈ seen -> is_subdirectory d = true ->
             windows_score d <= best_score b) /\
  (0 < best_score b ->
   exists systemroot system32,
     best_systemroot b = Some systemroot /\
     systemroot ∈ seen /\
     is_subdirectory systemroot = true /\
     windows_score systemroot = best_score b /\
     get_child systemroot system32_name = Some system32 /\
     best_kernel32 b = kernel32_under system32 /\
     best_software b = config_file_under system32 software_name /\
     best_system b = config_file_under system32 system_name /\
     ((exists d, d ∈ seen /\ is_subdirectory d = true /\
                 windows_score d = best_score b /\ named_windows d = true) ->
      named_windows systemroot = true)).

Lemma chosen_step seen b d :
  chosen seen b -> chosen (seen ++ [d]) (step b d).
Proof.
  intros (H0 & Hmax & Hbest).
  assert (Hkeep : (is_subdirectory d = true ->
                   windows_score d <= best_score b /\
                   (windows_score d = best_score b -> 0 < best_score b ->
                    named_windows d = false)) ->
                  chosen (seen ++ [d]) b).
  { intros Hd. split; [exact H0|]. split.
    - intros d' Hin Hdir. apply elem_of_app in Hin as [Hin|Hin].
      + apply Hmax; assumption.
      + apply list_elem_of_singleton in Hin. subst d'. apply Hd. exact Hdir.
    - intros Hpos.
      destruct (Hbest Hpos) as (s & s32 & Hs & Hin & Hdir & Hsc & H32 & Hk & Hso & Hsy & Hpref).
      exists s, s32. repeat (split; [first [assumption|in_app]|]).
      intros (d' & Hin' & Hdir' & Hsc' & Hw').
      apply Hpref. exists d'. repeat split; try assumption.
      apply elem_of_app in Hin' as [Hin'|Hin']; [exact Hin'|].
      apply list_elem_of_singleton in Hin'. subst d'.
      destruct (Hd Hdir') as [_ Hn]. rewrite (Hn Hsc' Hpos) in Hw'. discriminate. }
  unfold consider. fold (is_subdirectory d).
  destruct (is_subdirectory d) eqn:Hdir; cbn [negb];
    [|apply Hkeep; intros; discriminate].
  fold (get_child d system32_name).
  destruct (get_child d system32_name) as [system32|] eqn:H32.
  2:{ apply Hkeep. intros _. unfold windows_score. rewrite H32.
      split; [lia|]. intros <-. lia. }
  fold (get_child system32 kernel32_name) (get_child system32 config_name).
  fold (kernel32_under system32).
  change (match get_child system32 config_name with
          | Some config => GET_CHILD upcase default_ignore_case config software_name
          | None => None
          end) with (config_file_under system32 software_name).
  change (match get_child system32 config_name with
          | Some config => GET_CHILD upcase default_ignore_case config system_name
          | None => None
          end) with (config_file_under system32 system_name).
  assert (Hscore : windows_score d =
                   found (kernel32_under system32)
                   + found (config_file_under system32 software_name)
                   + found (config_file_under system32 system_name)).
  { unfold windows_score. rewrite H32. reflexivity. }
  rewrite <- Hscore.
  destruct (Z.geb_spec (windows_score d) (best_score b)) as [Hge|Hlt].
  2:{ apply Hkeep. intros _. split; [lia|]. intros E. lia. }
  destruct (Z.gtb_spec (windows_score d) (best_score b)) as [Hgt|Hle];
    cbn [orb].
  - (* a higher score *)
    split; [cbn; lia|]. split.
    + intros d' Hin Hdir'. cbn [best_score].
      apply elem_of_app in Hin as [Hin|Hin].
      * specialize (Hmax d' Hin Hdir'). lia.
      * apply list_elem_of_singleton in Hin. subst d'. lia.
    + cbn [best_score best_systemroot best_kernel32 best_software best_system].
      intros Hpos. exists d, system32.
      repeat (split; [first [reflexivity|assumption|in_app]|]).
      intros (d' & Hin' & Hdir' & Hsc' & Hw').
      apply elem_of_app in Hin' as [Hin'|Hin'].
      * specialize (Hmax d' Hin' Hdir'). lia.
      * apply list_elem_of_singleton in Hin'. subst d'. exact Hw'.
  - destruct (named_windows d) eqn:Hw.
    + (* the same score, and the name is Windows *)
      split; [cbn; lia|]. split.
      * intros d' Hin Hdir'. cbn [best_score].
        apply elem_of_app in Hin as [Hin|Hin].
        -- specialize (Hmax d' Hin Hdir'). lia.
        -- apply list_elem_of_singleton in Hin. subst d'. lia.
      * cbn [best_score best_systemroot best_kernel32 best_software best_system].
        intros Hpos. exists d, system32.
        repeat (split; [first [reflexivity|assumption|in_app]|]).
        intros _. exact Hw.
    + apply Hkeep. intros _. split; [lia|]. intros _ _. reflexivity.
Qed.

Lemma chosen_fold l seen b :
  chosen seen b -> chosen (seen ++ l) (fold_left step l b).
Proof.
  revert seen b. induction l as [|d l IH]; intros seen b H.
  - rewrite app_nil_r. exact H.
  - cbn [fold_left]. replace (seen ++ d :: l) with ((seen ++ [d]) ++ l)
      by (rewrite <- app_assoc; reflexivity).
    apply IH. apply chosen_step. exact H.
Qed.

(** C9 (claim): [set_windows_specific_info] scores the top-level
    directories of the image by the files found under their [System32]
    (case-insensitively): 0 to 3.  With no score above 0 it returns 0 and
    leaves the XML document alone.  Otherwise it hands
    [do_set_windows_specific_info] a directory with the highest score,
    one named [Windows] (case-insensitively) if such a directory reaches
    that score, together with the files found under it. *)
Theorem set_windows_specific_info_choice (root : dentry_tree)
    (xml : xml_document) :
  let top_level d := d ∈ tree_children root /\ is_subdirectory d = true in
  (forall d, top_level d -> 0 <= windows_score d <= 3) /\
  ((forall d, top_level d -> windows_score d = 0) ->
   set_info (Some root) xml = (0, xml)) /\
  ((exists d, top_level d /\ windows_score d <> 0) ->
   exists systemroot system32,
     top_level systemroot /\
     (forall d, top_level d -> windows_score d <= windows_score systemroot) /\
     ((exists d, top_level d /\ windows_score d = windows_score systemroot /\
                 named_windows d = true) ->
      named_windows systemroot = true) /\
     get_child systemroot system32_name = Some system32 /\
     set_info (Some root) xml =
       do_set_windows_specific_info xml systemroot
         (kernel32_under system32)
         (config_file_under system32 software_name)
         (config_file_under system32 system_name)).
Proof.
  cbv zeta.
  set (b0 := {| best_score := 0; best_systemroot := None;
                best_kernel32 := None; best_software := None;
                best_system := None |}).
  assert (H0 : chosen [] b0).
  { split; [cbn; lia|]. split.
    - intros d Hin. apply elem_of_nil in Hin. contradiction.
    - cbn. lia. }
  pose proof (chosen_fold (tree_children root) [] b0 H0) as Hc.
  cbn [app] in Hc. destruct Hc as (Hb0 & Hmax & Hbest).
  split; [intros d _; apply windows_score_range|]. split.
  - intros Hzero. unfold set_windows_specific_info. fold b0.
    destruct (Z.eqb_spec (best_score (fold_left step (tree_children root) b0)) 0)
      as [E|E]; [reflexivity|].
    destruct (Hbest ltac:(lia)) as (s & s32 & Hs & Hin & Hdir & Hsc & _).
    rewrite (Hzero s (conj Hin Hdir)) in Hsc. congruence.
  - intros (d & [Hin Hdir] & Hnz).
    pose proof (windows_score_range d) as Hr.
    pose proof (Hmax d Hin Hdir) as Hle.
    destruct (Hbest ltac:(lia))
      as (s & s32 & Hs & Hins & Hdirs & Hsc & H32 & Hk & Hso & Hsy & Hpref).
    exists s, s32. split; [split; assumption|]. split.
    { intros d' [Hin' Hdir']. rewrite Hsc. apply Hmax; assumption. }
    split.
    { intros (d' & [Hin' Hdir'] & Hsc' & Hw'). apply Hpref.
      exists d'. repeat split; try assumption. congruence. }
    split; [exact H32|].
    unfold set_windows_specific_info. fold b0.
    destruct (Z.eqb_spec (best_score (fold_left step (tree_children root) b0)) 0)
      as [E|E]; [lia|].
    rewrite Hs, Hk, Hso, Hsy. reflexivity.
Qed.

End SystemRootFacts.

(** The scenario S6 with a second directory: [WINDOWS] holds
    [System32/kernel32.dll], [Other] holds it too and comes first. *)
Definition named_node (name : list byte) (attributes : Z)
    (children : list dentry_tree) : dentry_tree :=
  Node {| d_inode := {| i_attributes := attributes;
                        i_security_id := -1; i_creation_time := 0;
                        i_last_access_time := 0; i_last_write_time := 0;
                        i_ino := 0; i_nlink := 1; i_rp_unknown_1 := 0;
                        i_reparse_tag := 0; i_rp_unknown_2 := 0;
                        i_not_rpfixed := 1; i_streams := [];
                        i_extra := [] |};
          file_name := name;
          file_name_nbytes := Z.of_nat (length name);
          short_name := []; short_name_nbytes := 0;
          subdir_offset := 0 |}
       children.

Definition utf16le (units : list Z) : list byte :=
  concat (map (le_encode 2) units).

(** Upper case for the letters [a] to [z]. *)
Definition ascii_upcase (c : Z) : Z :=
  if (0x61 <=? c) && (c <=? 0x7a) then c - 0x20 else c.

Definition with_kernel32 (name : list Z) : dentry_tree :=
  named_node (utf16le name) FILE_ATTRIBUTE_DIRECTORY
    [named_node (utf16le system32_name) FILE_ATTRIBUTE_DIRECTORY
       [named_node (utf16le kernel32_name) 0x20 []]].

Definition s6_root : dentry_tree :=
  named_node [] FILE_ATTRIBUTE_DIRECTORY
    [with_kernel32 [0x4f; 0x74; 0x68; 0x65; 0x72];
     with_kernel32 [0x57; 0x49; 0x4e; 0x44; 0x4f; 0x57; 0x53]].

Example s6_choice :
  set_windows_specific_info ascii_upcase false (list dentry_tree)
    (fun xml systemroot _ _ _ => (0, systemroot :: xml)) (Some s6_root) []
  = (0, [with_kernel32 [0x57; 0x49; 0x4e; 0x44; 0x4f; 0x57; 0x53]]).
Proof. vm_compute. reflexivity. Qed.

End XmlWindowsFacts.
(** ** dentry.c: the order of a walk *)

Module DentryTreeFacts.
Import Bytes Dentry DentryTree BytesFacts DentryWriteFacts.

Lemma dentry_tree_forall_ind (P : dentry_tree -> Prop) :
  (forall d children, Forall P children -> P (Node d children)) ->
  forall t, P t.
Proof.
  intros H. fix IH 1. intros [d children]. apply H.
  induction children as [|c cs IHcs]; constructor; [apply IH | exact IHcs].
Qed.

(** The dentries of a tree, a parent before what is linked under it. *)
Fixpoint preorder (t : dentry_tree) : list dentry_tree :=
  match t with
  | Node _ children => t :: concat (map preorder children)
  end.

(** The dentries of a tree, a parent after what is linked under it. *)
Fixpoint postorder (t : dentry_tree) : list wim_dentry :=
  match t with
  | Node d children => concat (map postorder children) ++ [d]
  end.

Section Order.

Variable arg_t : Type.

(** The calls [visitor(x, arg)] for the elements of a list, one after the
    other, up to the first that returns a nonzero value. *)
Fixpoint visit_each {X : Type} (visitor : X -> arg_t -> Z * wim_dentry * arg_t)
    (l : list X) (arg : arg_t) : Z * arg_t :=
  match l with
  | [] => (0, arg)
  | x :: rest =>
      let '(ret, _, arg) := visitor x arg in
      if negb (ret =? 0) then (ret, arg) else visit_each visitor rest arg
  end.

Lemma visit_each_app {X : Type} (visitor : X -> arg_t -> Z * wim_dentry * arg_t)
    l1 l2 arg :
  visit_each visitor (l1 ++ l2) arg =
  let '(ret, arg') := visit_each visitor l1 arg in
  if negb (ret =? 0) then (ret, arg') else visit_each visitor l2 arg'.
Proof.
  revert arg. induction l1 as [|x l1 IH]; intros arg; cbn [app visit_each].
  - reflexivity.
  - destruct (visitor x arg) as [[ret d] arg1].
    destruct (negb (ret =? 0)) eqn:E; [rewrite E; reflexivity|apply IH].
Qed.

(** What a walk returns, without the tree. *)
Definition outcome {T : Type} (r : Z * T * arg_t) : Z * arg_t :=
  (fst (fst r), snd r).

Section Preorder.

Variable visitor : dentry_tree -> arg_t -> Z * wim_dentry * arg_t.

(** The loop [for_dentry_child] of [do_for_dentry_in_tree]. *)
Fixpoint for_dentry_child (children : list dentry_tree) (arg : arg_t)
    : Z * list dentry_tree * arg_t :=
  match children with
  | [] => (0, [], arg)
  | child :: rest =>
      let '(ret, child, arg) := do_for_dentry_in_tree visitor child arg in
      if negb (ret =? 0) then (ret, child :: rest, arg)
      else
        let '(ret, rest, arg) := for_dentry_child rest arg in
        (ret, child :: rest, arg)
  end.

Lemma do_for_dentry_in_tree_unfold d children arg :
  do_for_dentry_in_tree visitor (Node d children) arg =
  let '(ret, d', arg) := visitor (Node d children) arg in
  if negb (ret =? 0) then (ret, Node d' children, arg)
  else
    let '(ret, children, arg) := for_dentry_child children arg in
    (ret, Node d' children, arg).
Proof.
  cbn [do_for_dentry_in_tree].
  destruct (visitor (Node d children) arg) as [[ret d'] arg1].
  destruct (negb (ret =? 0)); [reflexivity|].
  assert (E : forall cs a,
    (fix for_dentry_child (children : list dentry_tree) (arg : arg_t)
         : Z * list dentry_tree * arg_t :=
       match children with
       | [] => (0, [], arg)
       | child :: rest =>
           let '(ret, child, arg) := do_for_dentry_in_tree visitor child arg in
           if negb (ret =? 0) then (ret, child :: rest, arg)
           else
             let '(ret, rest, arg) := for_dentry_child rest arg in
             (ret, child :: rest, arg)
       end) cs a = for_dentry_child cs a).
  { induction cs as [|c cs IHc]; intros a; [reflexivity|].
    cbn [for_dentry_child]. destruct (do_for_dentry_in_tree visitor c a) as [[r c'] a'].
    destruct (negb (r =? 0)); [reflexivity|]. rewrite IHc. reflexivity. }
  rewrite E. reflexivity.
Qed.

Lemma preorder_outcome t : forall arg,
  outcome (do_for_dentry_in_tree visitor t arg) =
  visit_each visitor (preorder t) arg.
Proof.
  induction t as [d children IH] using dentry_tree_forall_ind. intros arg.
  rewrite do_for_dentry_in_tree_unfold. cbn [preorder visit_each].
  destruct (visitor (Node d children) arg) as [[ret d'] arg1].
  destruct (negb (ret =? 0)) eqn:Eret; [reflexivity|].
  assert (E : outcome (for_dentry_child children arg1) =
              visit_each visitor (concat (map preorder children)) arg1).
  { clear arg Eret. revert arg1.
    induction IH as [|c cs Hc _ IHcs]; intros arg1; [reflexivity|].
    cbn [for_dentry_child map concat]. rewrite visit_each_app, <- Hc.
    destruct (do_for_dentry_in_tree visitor c arg1) as [[r c'] a'].
    unfold outcome at 2. cbn [fst snd].
    destruct (negb (r =? 0)) eqn:Er; [reflexivity|].
    specialize (IHcs a').
    destruct (for_dentry_child cs a') as [[r2 cs'] a2].
    exact IHcs. }
  rewrite <- E.
  destruct (for_dentry_child children arg1) as [[r cs'] a']. reflexivity.
Qed.

End Preorder.

Section Postorder.

(** A visitor that looks at the dentry alone. *)
Variable visitor : wim_dentry -> arg_t -> Z * wim_dentry * arg_t.

Abbreviation on_dentry := (fun t : dentry_tree => visitor (root_dentry t)).

(** The loop [for_dentry_child_postorder] of
    [do_for_dentry_in_tree_depth]. *)
Fixpoint for_dentry_child_postorder (children : list dentry_tree)
    (arg : arg_t) : Z * list dentry_tree * arg_t :=
  match children with
  | [] => (0, [], arg)
  | child :: rest =>
      let '(ret, child, arg) :=
        do_for_dentry_in_tree_depth on_dentry child arg in
      if negb (ret =? 0) then (ret, child :: rest, arg)
      else
        let '(ret, rest, arg) := for_dentry_child_postorder rest arg in
        (ret, child :: rest, arg)
  end.

Lemma do_for_dentry_in_tree_depth_unfold d children arg :
  do_for_dentry_in_tree_depth on_dentry (Node d children) arg =
  let '(ret, children, arg) := for_dentry_child_postorder children arg in
  if negb (ret =? 0) then (ret, Node d children, arg)
  else
    let '(ret, d', arg) := visitor d arg in
    (ret, Node d' children, arg).
Proof.
  cbn [do_for_dentry_in_tree_depth].
  assert (E : forall cs a,
    (fix for_dentry_child_postorder (children : list dentry_tree)
         (arg : arg_t) : Z * list dentry_tree * arg_t :=
       match children with
       | [] => (0, [], arg)
       | child :: rest =>
           let '(ret, child, arg) :=
             do_for_dentry_in_tree_depth on_dentry child arg in
           if negb (ret =? 0) then (ret, child :: rest, arg)
           else
             let '(ret, rest, arg) := for_dentry_child_postorder rest arg in
             (ret, child :: rest, arg)
       end) cs a = for_dentry_child_postorder cs a).
  { induction cs as [|c cs IHc]; intros a; [reflexivity|].
    cbn [for_dentry_child_postorder].
    destruct (do_for_dentry_in_tree_depth on_dentry c a) as [[r c'] a'].
    destruct (negb (r =? 0)); [reflexivity|]. rewrite IHc. reflexivity. }
  rewrite E. destruct (for_dentry_child_postorder children arg) as [[r cs'] a'].
  destruct (negb (r =? 0)); reflexivity.
Qed.

Lemma postorder_outcome t : forall arg,
  outcome (do_for_dentry_in_tree_depth on_dentry t arg) =
  visit_each visitor (postorder t) arg.
Proof.
  induction t as [d children IH] using dentry_tree_forall_ind. intros arg.
  rewrite do_for_dentry_in_tree_depth_unfold. cbn [postorder].
  rewrite visit_each_app.
  assert (E : outcome (for_dentry_child_postorder children arg) =
              visit_each visitor (concat (map postorder children)) arg).
  { clear d. revert arg.
    induction IH as [|c cs Hc _ IHcs]; intros arg; [reflexivity|].
    cbn [for_dentry_child_postorder map concat].
    rewrite visit_each_app, <- Hc.
    destruct (do_for_dentry_in_tree_depth on_dentry c arg) as [[r c'] a'].
    unfold outcome at 2. cbn [fst snd].
    destruct (negb (r =? 0)) eqn:Er; [reflexivity|].
    specialize (IHcs a').
    destruct (for_dentry_child_postorder cs a') as [[r2 cs'] a2].
    exact IHcs. }
  rewrite <- E.
  destruct (for_dentry_child_postorder children arg) as [[r cs'] a'].
  unfold outcome at 2. cbn [fst snd].
  destruct (negb (r =? 0)) eqn:Er; [reflexivity|].
  cbn [visit_each]. destruct (visitor d a') as [[r' d'] a''].
  destruct (Z.eqb_spec r' 0) as [->|Hr]; reflexivity.
Qed.

End Postorder.

End Order.

Arguments outcome {arg_t T} r.
Arguments visit_each {arg_t X} visitor l arg.
Arguments for_dentry_child {arg_t} visitor children arg.
Arguments do_for_dentry_in_tree_unfold {arg_t} visitor d children arg.

(** X1 (property): [for_dentry_in_tree] calls the visitor on the dentries
    of the tree parent first, siblings in the order of the directory
    index, and stops at the first call that returns a nonzero value: the
    value it returns and what it leaves behind [arg] are those of the
    calls made one after the other on the pre-order listing.  On the empty
    tree it returns 0 and makes no call. *)
Theorem for_dentry_in_tree_preorder (arg_t : Type)
    (visitor : dentry_tree -> arg_t -> Z * wim_dentry * arg_t)
    (root : option dentry_tree) (arg : arg_t) :
  outcome (for_dentry_in_tree visitor root arg) =
  match root with
  | Some root => visit_each visitor (preorder root) arg
  | None => (0, arg)
  end.
Proof.
  destruct root as [root|]; [|reflexivity].
  rewrite <- preorder_outcome. unfold for_dentry_in_tree.
  destruct (do_for_dentry_in_tree visitor root arg) as [[r t] a]. reflexivity.
Qed.


(** ** dentry.c: where [write_dentry_tree] puts the directories *)

Lemma pad8_shift p x : p mod 8 = 0 -> pad8 (p + x) = pad8 x.
Proof. intros Hp. unfold pad8. rewrite up8_add_aligned by exact Hp. reflexivity. Qed.

Lemma write_extra_stream_entry_shift p x name hash :
  p mod 8 = 0 ->
  write_extra_stream_entry (p + x) name hash = write_extra_stream_entry x name hash.
Proof.
  intros Hp. unfold write_extra_stream_entry. cbv zeta.
  rewrite <- !(Z.add_assoc p), !(pad8_shift p) by exact Hp. reflexivity.
Qed.

Lemma write_named_data_streams_shift streams p x :
  p mod 8 = 0 ->
  write_named_data_streams streams (p + x) = write_named_data_streams streams x.
Proof.
  intros Hp. revert x. induction streams as [|strm rest IH]; intros x.
  - reflexivity.
  - cbn [write_named_data_streams].
    destruct (stream_is_named_data_stream strm); [|apply IH].
    rewrite write_extra_stream_entry_shift by exact Hp.
    rewrite <- Z.add_assoc, IH. reflexivity.
Qed.

Lemma write_dentry_streams_shift inode p x :
  p mod 8 = 0 ->
  write_dentry_streams inode (p + x) = write_dentry_streams inode x.
Proof.
  intros Hp. unfold write_dentry_streams.
  destruct (has_attribute inode FILE_ATTRIBUTE_ENCRYPTED); [reflexivity|].
  destruct (scan_streams _ _ _ _ _) as [[[hn hr] uh] rh].
  destruct (hr || hn); [|reflexivity]. cbv zeta.
  rewrite <- ?(Z.add_assoc p).
  rewrite ?(write_extra_stream_entry_shift p) by exact Hp.
  rewrite <- ?(Z.add_assoc p).
  rewrite ?(write_extra_stream_entry_shift p) by exact Hp.
  rewrite <- ?(Z.add_assoc p).
  rewrite (write_named_data_streams_shift _ p) by exact Hp.
  reflexivity.
Qed.

Lemma write_dentry_names_and_extra_shift dentry p :
  p mod 8 = 0 ->
  write_dentry_names_and_extra dentry p = write_dentry_names_and_extra dentry 0.
Proof.
  intros Hp. unfold write_dentry_names_and_extra. cbv zeta.
  rewrite !Z.add_0_l, <- !(Z.add_assoc p), !(pad8_shift p) by exact Hp.
  reflexivity.
Qed.

(** The bytes of a dentry do not depend on the 8-byte aligned place they
    are written at. *)
Lemma write_dentry_aligned dentry p :
  p mod 8 = 0 -> write_dentry dentry p = write_dentry dentry 0.
Proof.
  intros Hp. unfold write_dentry. cbv zeta.
  rewrite (write_dentry_names_and_extra_shift dentry p Hp).
  rewrite write_dentry_streams_shift by exact Hp.
  rewrite Z.add_0_l. reflexivity.
Qed.

(** The bytes [write_dentry] takes for a dentry. *)
Definition out_length (d : wim_dentry) : Z :=
  record_length d + entries_length (d_inode d).

Lemma entries_length_aligned inode : entries_length inode mod 8 = 0.
Proof.
  unfold entries_length.
  destruct (named_entries_length_bounds (i_streams inode)) as [_ H8].
  repeat match goal with |- context [if ?c then _ else _] => destruct c end;
    try reflexivity;
    rewrite Z.add_mod, H8 by lia; reflexivity.
Qed.

Lemma out_length_bounds d :
  names_u16 d -> 102 <= out_length d /\ out_length d mod 8 = 0.
Proof.
  intros Hn. unfold out_length.
  destruct (record_length_bounds d Hn) as [H0 H8].
  pose proof (entries_length_nonneg (d_inode d)).
  split; [lia|]. apply aligned_add; [exact H8|apply entries_length_aligned].
Qed.

Lemma length_write_dentry d p :
  p mod 8 = 0 -> names_u16 d ->
  Z.of_nat (length (write_dentry d p)) = out_length d.
Proof.
  intros Hp Hn.
  destruct (write_dentry_split d p Hp Hn)
    as (disk & var & dh & num & entries & Eout & _ & _ & _ & _ & Hvar & Hent).
  rewrite Eout, !length_app, length_disk_dentry_bytes, !Nat2Z.inj_add.
  unfold out_length. lia.
Qed.

(** The bytes of the dentries linked under a directory. *)
Definition children_length (children : list dentry_tree) : Z :=
  fold_right (fun c acc => out_length (root_dentry c) + acc) 0 children.

(** The bytes a directory takes for what is linked under it, with the
    end-of-directory entry. *)
Definition block_length (t : dentry_tree) : Z :=
  if dentry_is_directory (root_dentry t)
  then children_length (tree_children t) + 8 else 0.

(** The bytes taken by the directories of a tree. *)
Fixpoint walk_length (t : dentry_tree) : Z :=
  match t with
  | Node d children =>
      block_length (Node d children)
      + fold_right Z.add 0 (map walk_length children)
  end.

(** What a directory holds on disk: the dentries linked under it and the
    end-of-directory entry. *)
Definition block (t : dentry_tree) : list byte :=
  concat (map (fun c => write_dentry (root_dentry c) 0) (tree_children t))
  ++ le_encode 8 0.

(** The byte counts of the names fit their 16-bit fields, in the whole
    tree. *)
Definition names_fit (t : dentry_tree) : Prop :=
  Forall (fun n => names_u16 (root_dentry n)) (preorder t).

(** [bytes] start at offset [o] of the metadata resource: every directory
    of [t] has its block at its [subdir_offset], and [subdir_offset] is 0
    for what is not a directory. *)
Definition laid_out_at (o : Z) (bytes : list byte) (D : dentry_tree) : Prop :=
  if dentry_is_directory (root_dentry D) then
    exists before after,
      bytes = before ++ block D ++ after /\
      Z.of_nat (length before) = subdir_offset (root_dentry D) - o
  else subdir_offset (root_dentry D) = 0.

Lemma Forall_concat_map {A B} (P : B -> Prop) (f : A -> list B) l :
  Forall P (concat (map f l)) <-> Forall (fun x => Forall P (f x)) l.
Proof.
  induction l as [|x l IH]; cbn [map concat].
  - split; constructor.
  - rewrite Forall_app, Forall_cons_iff, IH. reflexivity.
Qed.

Lemma names_fit_node d children :
  names_fit (Node d children) <-> names_u16 d /\ Forall names_fit children.
Proof.
  unfold names_fit. cbn [preorder]. rewrite Forall_cons_iff, Forall_concat_map.
  reflexivity.
Qed.

Lemma children_length_bounds children :
  Forall (fun c => names_u16 (root_dentry c)) children ->
  0 <= children_length children /\ children_length children mod 8 = 0.
Proof.
  induction 1 as [|c cs Hc _ [IH0 IH8]]; cbn [children_length fold_right].
  - split; [lia|reflexivity].
  - destruct (out_length_bounds _ Hc) as [H0 H8].
    fold (children_length cs). split; [lia|]. apply aligned_add; assumption.
Qed.

Lemma names_fit_root t : names_fit t -> names_u16 (root_dentry t).
Proof. destruct t as [d cs]. rewrite names_fit_node. intros [H _]. exact H. Qed.

Lemma names_fit_children cs :
  Forall names_fit cs -> Forall (fun c => names_u16 (root_dentry c)) cs.
Proof. apply List.Forall_impl. intros c. apply names_fit_root. Qed.

Lemma block_length_bounds t :
  names_fit t -> 0 <= block_length t /\ block_length t mod 8 = 0.
Proof.
  destruct t as [d cs]. rewrite names_fit_node. intros [Hd Hcs].
  unfold block_length. cbn [root_dentry tree_children].
  destruct (dentry_is_directory d); [|split; [lia|reflexivity]].
  destruct (children_length_bounds cs) as [H0 H8].
  { apply names_fit_children. exact Hcs. }
  split; [lia|]. apply aligned_add; [exact H8|reflexivity].
Qed.

Lemma walk_length_bounds t :
  names_fit t -> 0 <= walk_length t /\ walk_length t mod 8 = 0.
Proof.
  induction t as [d children IH] using dentry_tree_forall_ind. intros Hfit.
  destruct (block_length_bounds _ Hfit) as [Hb0 Hb8].
  apply names_fit_node in Hfit as [Hd Hcs].
  cbn [walk_length].
  assert (H : 0 <= fold_right Z.add 0 (map walk_length children) /\
              fold_right Z.add 0 (map walk_length children) mod 8 = 0).
  { clear Hb0 Hb8 Hd. induction IH as [|c cs Hc _ IHcs]; cbn [map fold_right].
    - split; [lia|reflexivity].
    - apply Forall_cons_iff in Hcs as [Hfc Hfcs].
      destruct (Hc Hfc) as [? ?], (IHcs Hfcs) as [? ?].
      split; [lia|]. apply aligned_add; assumption. }
  destruct H as [H0 H8]. split; [lia|]. apply aligned_add; assumption.
Qed.

Lemma walk_lengths_bounds cs :
  Forall names_fit cs ->
  0 <= fold_right Z.add 0 (map walk_length cs) /\
  fold_right Z.add 0 (map walk_length cs) mod 8 = 0.
Proof.
  induction 1 as [|x l Hx _ [IH0 IH8]]; cbn [map fold_right].
  - split; [lia|reflexivity].
  - destruct (walk_length_bounds x Hx) as [H0 H8].
    split; [lia|]. apply aligned_add; assumption.
Qed.

(** The loop of [dentry_calculate_subdir_offset]. *)
Lemma calculate_children children o :
  Forall (fun c => names_u16 (root_dentry c)) children ->
  0 <= o -> o + children_length children < 2 ^ 64 ->
  fold_left (fun offset child =>
               wrap64 (offset + dentry_out_total_length (root_dentry child)))
            children o
  = o + children_length children.
Proof.
  intros H. revert o.
  induction H as [|c cs Hc Hcs IH]; intros o Ho Hmax;
    cbn [fold_left children_length fold_right] in *.
  - lia.
  - fold (children_length cs) in *.
    destruct (out_length_bounds _ Hc) as [H0 _].
    destruct (children_length_bounds cs Hcs) as [Hc0 _].
    rewrite dentry_out_total_length_exact by (try exact Hc; unfold out_length in *; lia).
    fold (out_length (root_dentry c)).
    unfold wrap64. rewrite Z.mod_small by lia.
    rewrite IH by lia. lia.
Qed.

(** The loop of [write_dir_dentries]. *)
Lemma write_children children p out :
  Forall (fun c => names_u16 (root_dentry c)) children ->
  p mod 8 = 0 ->
  fold_left (fun '(p, out) child =>
               let bytes := write_dentry (root_dentry child) p in
               (p + Z.of_nat (length bytes), out ++ bytes))
            children (p, out)
  = (p + children_length children,
     out ++ concat (map (fun c => write_dentry (root_dentry c) 0) children)).
Proof.
  intros H. revert p out.
  induction H as [|c cs Hc Hcs IH]; intros p out Hp;
    cbn [fold_left children_length fold_right map concat].
  - rewrite Z.add_0_r, app_nil_r. reflexivity.
  - fold (children_length cs). cbv zeta.
    rewrite (length_write_dentry _ p Hp Hc).
    destruct (out_length_bounds _ Hc) as [_ H8].
    rewrite IH by (apply aligned_add; assumption).
    rewrite (write_dentry_aligned _ p Hp), <- app_assoc.
    f_equal. lia.
Qed.

Lemma length_block t :
  names_fit t -> dentry_is_directory (root_dentry t) = true ->
  Z.of_nat (length (block t)) = block_length t.
Proof.
  intros Hfit Hdir. unfold block, block_length. rewrite Hdir.
  destruct t as [d cs]. apply names_fit_node in Hfit as [_ Hcs].
  cbn [tree_children].
  assert (H : Forall (fun c => names_u16 (root_dentry c)) cs).
  { apply names_fit_children. exact Hcs. }
  rewrite length_app, Nat2Z.inj_add, length_le_encode.
  assert (E : Z.of_nat (length (concat (map (fun c => write_dentry (root_dentry c) 0) cs)))
              = children_length cs).
  { clear Hcs Hdir. induction H as [|c cs' Hc _ IH]; [reflexivity|].
    cbn [map concat children_length fold_right]. fold (children_length cs').
    rewrite length_app, Nat2Z.inj_add, IH.
    rewrite (length_write_dentry _ 0 eq_refl Hc). reflexivity. }
  rewrite E. reflexivity.
Qed.

(** [t'] is [t] with another [subdir_offset] in its dentry. *)
Definition same_but_offset (t t' : dentry_tree) : Prop :=
  root_dentry t' =
  set_subdir_offset (root_dentry t) (subdir_offset (root_dentry t')).

Lemma same_but_offset_out_length t t' :
  same_but_offset t t' ->
  out_length (root_dentry t') = out_length (root_dentry t).
Proof. unfold same_but_offset. intros ->. reflexivity. Qed.

Lemma same_but_offset_names t t' :
  same_but_offset t t' -> names_u16 (root_dentry t) ->
  names_u16 (root_dentry t').
Proof. unfold same_but_offset. intros ->. exact id. Qed.

Lemma same_but_offset_children cs cs' :
  Forall2 same_but_offset cs cs' ->
  Forall (fun c => names_u16 (root_dentry c)) cs ->
  children_length cs' = children_length cs /\
  Forall (fun c => names_u16 (root_dentry c)) cs'.
Proof.
  induction 1 as [|c c' cs cs' Hc _ IH]; intros Hn.
  - split; [reflexivity|constructor].
  - apply Forall_cons_iff in Hn as [Hn1 Hn2]. destruct (IH Hn2) as [El Hn'].
    split.
    + cbn [children_length fold_right]. fold (children_length cs) (children_length cs').
      rewrite El, (same_but_offset_out_length _ _ Hc). reflexivity.
    + constructor; [exact (same_but_offset_names _ _ Hc Hn1)|exact Hn'].
Qed.

Lemma laid_out_at_more o b1 b2 D :
  laid_out_at o b1 D -> laid_out_at o (b1 ++ b2) D.
Proof.
  unfold laid_out_at. destruct (dentry_is_directory (root_dentry D)); [|exact id].
  intros (before & after & -> & Hlen).
  exists before, (after ++ b2). split; [|exact Hlen].
  rewrite <- !app_assoc. reflexivity.
Qed.

Lemma laid_out_at_later o b1 b2 D :
  laid_out_at (o + Z.of_nat (length b1)) b2 D -> laid_out_at o (b1 ++ b2) D.
Proof.
  unfold laid_out_at. destruct (dentry_is_directory (root_dentry D)); [|exact id].
  intros (before & after & -> & Hlen).
  exists (b1 ++ before), after. split.
  - rewrite <- !app_assoc. reflexivity.
  - rewrite length_app, Nat2Z.inj_add. lia.
Qed.

(** The two walks over [t], one after the other: the offsets are set from
    [o] on, then the tree is written at [o]. *)
Definition walks_agree (t : dentry_tree) : Prop :=
  forall o,
    names_fit t -> 0 < o -> o mod 8 = 0 -> o + walk_length t < 2 ^ 64 ->
    exists t' bytes,
      do_for_dentry_in_tree dentry_calculate_subdir_offset t o
        = (0, t', o + walk_length t) /\
      same_but_offset t t' /\
      (forall out,
         outcome (do_for_dentry_in_tree write_dir_dentries t' (o, out))
         = (0, (o + walk_length t, out ++ bytes))) /\
      Z.of_nat (length bytes) = walk_length t /\
      Forall (laid_out_at o bytes) (preorder t').

Lemma children_walks_agree cs :
  Forall walks_agree cs ->
  forall o,
    Forall names_fit cs -> 0 < o -> o mod 8 = 0 ->
    o + fold_right Z.add 0 (map walk_length cs) < 2 ^ 64 ->
    exists cs' bytes,
      for_dentry_child dentry_calculate_subdir_offset cs o
        = (0, cs', o + fold_right Z.add 0 (map walk_length cs)) /\
      Forall2 same_but_offset cs cs' /\
      (forall out,
         outcome (for_dentry_child write_dir_dentries cs' (o, out))
         = (0, (o + fold_right Z.add 0 (map walk_length cs), out ++ bytes))) /\
      Z.of_nat (length bytes) = fold_right Z.add 0 (map walk_length cs) /\
      Forall (laid_out_at o bytes) (concat (map preorder cs')).
Proof.
  induction 1 as [|c cs Hc _ IH]; intros o Hfit Ho Ho8 Hmax.
  - exists [], []. cbn. rewrite Z.add_0_r.
    split; [reflexivity|]. split; [constructor|].
    split; [intros out; rewrite app_nil_r; reflexivity|].
    split; [reflexivity|constructor].
  - apply Forall_cons_iff in Hfit as [Hfc Hfcs].
    cbn [map fold_right] in Hmax |- *.
    set (rest := fold_right Z.add 0 (map walk_length cs)) in *.
    destruct (walk_length_bounds c Hfc) as [Hw0 Hw8].
    destruct (walk_lengths_bounds cs Hfcs) as [Hr0 Hr8].
    fold rest in Hr0, Hr8.
    assert (Hm1 : o + walk_length c < 2 ^ 64) by lia.
    assert (Ho' : 0 < o + walk_length c) by lia.
    assert (Ho8' : (o + walk_length c) mod 8 = 0)
      by (apply aligned_add; assumption).
    assert (Hm2 : o + walk_length c + rest < 2 ^ 64) by lia.
    destruct (Hc o Hfc Ho Ho8 Hm1)
      as (c' & b1 & Ecalc & Hsame & Ewr & Hlen1 & Hlay1).
    destruct (IH (o + walk_length c) Hfcs Ho' Ho8' Hm2)
      as (cs' & b2 & Ecalcs & Hsames & Ewrs & Hlen2 & Hlay2).
    exists (c' :: cs'), (b1 ++ b2).
    split.
    { cbn [for_dentry_child]. rewrite Ecalc. cbn [Z.eqb negb].
      rewrite Ecalcs, Z.add_assoc. reflexivity. }
    split; [constructor; assumption|].
    split.
    { intros out. cbn [for_dentry_child].
      specialize (Ewr out). specialize (Ewrs (out ++ b1)).
      destruct (do_for_dentry_in_tree write_dir_dentries c' (o, out))
        as [[r c''] a].
      unfold outcome in Ewr. cbn [fst snd] in Ewr.
      injection Ewr as -> ->. cbn [Z.eqb negb].
      destruct (for_dentry_child write_dir_dentries cs' (o + walk_length c, out ++ b1))
        as [[r2 cs''] a2].
      unfold outcome in Ewrs |- *. cbn [fst snd] in Ewrs |- *.
      injection Ewrs as -> ->. rewrite <- app_assoc, Z.add_assoc. reflexivity. }
    split; [rewrite length_app, Nat2Z.inj_add; lia|].
    cbn [map concat]. apply Forall_app. split.
    + eapply List.Forall_impl; [|exact Hlay1]. intros D. apply laid_out_at_more.
    + eapply List.Forall_impl; [|exact Hlay2]. intros D HD.
      apply laid_out_at_later. rewrite Hlen1. exact HD.
Qed.

Lemma length_children_bytes cs :
  Forall (fun c => names_u16 (root_dentry c)) cs ->
  Z.of_nat (length (concat (map (fun c => write_dentry (root_dentry c) 0) cs)))
  = children_length cs.
Proof.
  induction 1 as [|c l Hc _ IHl]; [reflexivity|].
  cbn [map concat children_length fold_right]. fold (children_length l).
  rewrite length_app, Nat2Z.inj_add, IHl.
  rewrite (length_write_dentry _ 0 eq_refl Hc). reflexivity.
Qed.

Lemma walks_agree_all t : walks_agree t.
Proof.
  induction t as [d cs IH] using dentry_tree_forall_ind.
  intros o Hfit Ho Ho8 Hmax.
  pose proof (block_length_bounds _ Hfit) as [Hb0 Hb8].
  apply names_fit_node in Hfit as [Hd Hcs].
  pose proof (names_fit_children _ Hcs) as Hcn.
  cbn [walk_length] in Hmax |- *.
  set (rest := fold_right Z.add 0 (map walk_length cs)) in *.
  destruct (walk_lengths_bounds cs Hcs) as [Hr0 Hr8].
  fold rest in Hr0, Hr8.
  set (dir := dentry_is_directory d).
  set (d1 := set_subdir_offset d (if dir then o else 0)).
  assert (Ecalc : dentry_calculate_subdir_offset (Node d cs) o
                  = (0, d1, o + block_length (Node d cs))).
  { unfold dentry_calculate_subdir_offset, block_length, d1, dir.
    cbn [root_dentry tree_children].
    destruct (dentry_is_directory d) eqn:Hdir.
    - unfold block_length in Hb0, Hmax. cbn [root_dentry tree_children] in Hb0, Hmax.
      rewrite Hdir in Hb0, Hmax.
      destruct (children_length_bounds cs Hcn) as [Hc0 _].
      rewrite calculate_children by (try assumption; lia).
      unfold wrap64. rewrite Z.mod_small by lia. f_equal. lia.
    - f_equal. lia. }
  assert (Ho' : 0 < o + block_length (Node d cs)) by lia.
  assert (Ho8' : (o + block_length (Node d cs)) mod 8 = 0)
    by (apply aligned_add; assumption).
  assert (Hm2 : o + block_length (Node d cs) + rest < 2 ^ 64) by lia.
  destruct (children_walks_agree cs IH (o + block_length (Node d cs))
              Hcs Ho' Ho8' Hm2)
    as (cs' & b2 & Ecalcs & Hsames & Ewrs & Hlen2 & Hlay2).
  destruct (same_but_offset_children _ _ Hsames Hcn) as [Elen Hcn'].
  set (blk := if dir then block (Node d1 cs') else []).
  exists (Node d1 cs'), (blk ++ b2).
  split.
  { rewrite do_for_dentry_in_tree_unfold, Ecalc. cbn [Z.eqb negb].
    rewrite Ecalcs, Z.add_assoc. reflexivity. }
  split; [reflexivity|].
  assert (Ewr : forall out, write_dir_dentries (Node d1 cs') (o, out)
                = (0, d1, (o + block_length (Node d cs), out ++ blk))).
  { intros out. unfold blk, write_dir_dentries, block_length, block.
    cbn [root_dentry tree_children].
    change (subdir_offset d1) with (if dir then o else 0).
    change (dentry_is_directory d) with dir.
    destruct dir.
    - destruct (Z.eqb_spec o 0) as [E|_]; [lia|]. cbn [negb].
      rewrite write_children by assumption.
      rewrite Elen, <- app_assoc, Z.add_assoc. reflexivity.
    - cbn [Z.eqb negb]. rewrite Z.add_0_r, app_nil_r. reflexivity. }
  assert (Hblen : Z.of_nat (length blk) = block_length (Node d cs)).
  { unfold blk, block_length, block. cbn [root_dentry tree_children].
    change (dentry_is_directory d) with dir. destruct dir; [|reflexivity].
    rewrite length_app, Nat2Z.inj_add, length_le_encode.
    rewrite (length_children_bytes _ Hcn'), Elen. reflexivity. }
  split.
  { intros out. rewrite do_for_dentry_in_tree_unfold, Ewr. cbn [Z.eqb negb].
    specialize (Ewrs (out ++ blk)).
    destruct (for_dentry_child write_dir_dentries cs'
                (o + block_length (Node d cs), out ++ blk)) as [[r cs''] a].
    unfold outcome in Ewrs |- *. cbn [fst snd] in Ewrs |- *.
    injection Ewrs as -> ->. rewrite <- app_assoc, Z.add_assoc. reflexivity. }
  split; [rewrite length_app, Nat2Z.inj_add; lia|].
  cbn [preorder]. constructor.
  - unfold laid_out_at. cbn [root_dentry].
    change (dentry_is_directory d1) with dir.
    change (subdir_offset d1) with (if dir then o else 0).
    unfold blk. destruct dir; [|reflexivity].
    exists [], b2. split; [reflexivity|]. cbn [length]. lia.
  - eapply List.Forall_impl; [|exact Hlay2]. intros D HD.
    apply laid_out_at_later. rewrite Hblen. exact HD.
Qed.

(** X3 (property): [calculate_subdir_offsets] and [write_dentry_tree]
    agree.  The root is written at the 8-byte aligned offset [p] of the
    metadata resource, and the offsets are calculated from the first
    offset behind the root and its end-of-directory entry.  Then the
    final [*subdir_offset_p] is the pointer [write_dentry_tree] returns,
    so the size obtained from the first is the size the second fills;
    the output starts with the root and 8 zero bytes; every directory of
    the tree has the dentries linked under it, followed by 8 zero bytes,
    at its [subdir_offset]; and the [subdir_offset] of what is not a
    directory is 0. *)
Theorem write_dentry_tree_layout (root : dentry_tree) (p : Z) :
  0 <= p -> p mod 8 = 0 -> names_fit root ->
  p + out_length (root_dentry root) + 8 + walk_length root < 2 ^ 64 ->
  exists root' out,
    calculate_subdir_offsets (Some root)
      (p + dentry_out_total_length (root_dentry root) + 8)
      = (Some root', p + Z.of_nat (length out)) /\
    write_dentry_tree root' p = (out, p + Z.of_nat (length out)) /\
    (exists rest,
       out = write_dentry (root_dentry root') 0 ++ le_encode 8 0 ++ rest) /\
    Forall (laid_out_at p out) (preorder root').
Proof.
  intros Hp Hp8 Hfit Hmax.
  pose proof (names_fit_root _ Hfit) as Hd.
  destruct (out_length_bounds _ Hd) as [Hl0 Hl8].
  destruct (walk_length_bounds _ Hfit) as [Hw0 Hw8].
  rewrite dentry_out_total_length_exact
    by (try exact Hd; unfold out_length in *; lia).
  fold (out_length (root_dentry root)).
  set (first := p + out_length (root_dentry root) + 8).
  assert (Hf0 : 0 < first) by (unfold first; lia).
  assert (Hf8 : first mod 8 = 0).
  { unfold first. apply aligned_add; [apply aligned_add; assumption|reflexivity]. }
  assert (Hfm : first + walk_length root < 2 ^ 64) by (unfold first; lia).
  destruct (walks_agree_all root first Hfit Hf0 Hf8 Hfm)
    as (root' & bytes & Ecalc & Hsame & Ewr & Hlen & Hlay).
  pose proof (same_but_offset_names _ _ Hsame Hd) as Hd'.
  pose proof (length_write_dentry _ p Hp8 Hd') as Hlen0.
  rewrite (same_but_offset_out_length _ _ Hsame) in Hlen0.
  set (head := write_dentry (root_dentry root') 0 ++ le_encode 8 0).
  assert (Hhead : Z.of_nat (length head) = out_length (root_dentry root) + 8).
  { unfold head. rewrite length_app, Nat2Z.inj_add, length_le_encode.
    rewrite <- (write_dentry_aligned _ p Hp8), Hlen0. reflexivity. }
  exists root', (head ++ bytes).
  assert (Elen : p + Z.of_nat (length (head ++ bytes)) = first + walk_length root).
  { rewrite length_app, Nat2Z.inj_add, Hhead, Hlen. unfold first. lia. }
  split.
  { unfold calculate_subdir_offsets, for_dentry_in_tree.
    rewrite Ecalc, Elen. reflexivity. }
  split.
  { unfold write_dentry_tree, for_dentry_in_tree. cbv zeta.
    rewrite Hlen0, (write_dentry_aligned _ p Hp8).
    specialize (Ewr head). fold head. fold first.
    destruct (do_for_dentry_in_tree write_dir_dentries root' (first, head))
      as [[r t] [p' out']].
    unfold outcome in Ewr. cbn [fst snd] in Ewr.
    injection Ewr as -> -> ->. rewrite Elen. reflexivity. }
  split.
  { exists bytes. unfold head. rewrite <- app_assoc. reflexivity. }
  eapply List.Forall_impl; [|exact Hlay]. intros D HD.
  apply laid_out_at_later. rewrite Hhead.
  replace (p + (out_length (root_dentry root) + 8)) with first
    by (unfold first; lia).
  exact HD.
Qed.

(** A root with a file [a] and a directory [b], which holds a file [a]. *)
Definition sample_file : dentry_tree :=
  Node (sample_dentry
          (sample_inode 0x20 [sample_typed_stream None x02 STREAM_TYPE_DATA 0]))
       [].

Definition sample_directory (name : list byte) (children : list dentry_tree)
    : dentry_tree :=
  Node {| d_inode := sample_inode FILE_ATTRIBUTE_DIRECTORY [];
          file_name := name;
          file_name_nbytes := Z.of_nat (length name);
          short_name := []; short_name_nbytes := 0;
          subdir_offset := 0 |}
       children.

Definition sample_tree : dentry_tree :=
  sample_directory []
    [sample_file; sample_directory [x62; x00] [sample_file]].

Example sample_tree_offsets :
  map (fun n => subdir_offset (root_dentry n))
      (match fst (calculate_subdir_offsets (Some sample_tree) 112) with
       | Some root' => preorder root'
       | None => []
       end)
  = [112; 0; 344; 0] /\
  snd (calculate_subdir_offsets (Some sample_tree) 112) = 464.
Proof. vm_compute. split; reflexivity. Qed.

Lemma write_dentry_tree_layout_witness :
  0 <= 0 /\ 0 mod 8 = 0 /\ names_fit sample_tree /\
  0 + out_length (root_dentry sample_tree) + 8 + walk_length sample_tree
    < 2 ^ 64 /\
  exists root' out,
    calculate_subdir_offsets (Some sample_tree)
      (0 + dentry_out_total_length (root_dentry sample_tree) + 8)
      = (Some root', 0 + Z.of_nat (length out)) /\
    write_dentry_tree root' 0 = (out, 0 + Z.of_nat (length out)) /\
    (exists rest,
       out = write_dentry (root_dentry root') 0 ++ le_encode 8 0 ++ rest) /\
    Forall (laid_out_at 0 out) (preorder root').
Proof.
  assert (H0 : 0 <= 0) by lia.
  assert (H8 : 0 mod 8 = 0) by reflexivity.
  assert (Hn : names_fit sample_tree).
  { unfold names_fit. cbn [sample_tree sample_directory sample_file preorder
                           map concat app].
    repeat constructor; cbn; lia. }
  assert (Hmax : 0 + out_length (root_dentry sample_tree) + 8
                 + walk_length sample_tree < 2 ^ 64).
  { vm_compute. reflexivity. }
  split; [exact H0|]. split; [exact H8|]. split; [exact Hn|].
  split; [exact Hmax|].
  apply write_dentry_tree_layout; assumption.
Defined.

End DentryTreeFacts.

(** ** dentry.c: what [read_dentry] accepts *)

Module DentryReadFacts.
Import Bytes BytesFacts Dentry DentryWriteFacts.

Lemma align8_floor x : align8 x = wrap64 (x + 7) / 8 * 8.
Proof.
  unfold align8.
  assert (H : 0 <= wrap64 (x + 7)) by (apply Z.mod_pos_bound; lia).
  rewrite <- Z.ldiff_land. change 7 with (Z.ones 3) at 2.
  rewrite Z.ldiff_ones_r by lia.
  rewrite Z.shiftl_mul_pow2, Z.shiftr_div_pow2 by lia. reflexivity.
Qed.

Lemma align8_range x : 0 <= align8 x < 2 ^ 64 /\ align8 x mod 8 = 0.
Proof.
  rewrite align8_floor.
  pose proof (Z.mod_pos_bound (x + 7) (2 ^ 64) ltac:(lia)) as H.
  fold (wrap64 (x + 7)) in H.
  pose proof (Z_div_mod_eq_full (wrap64 (x + 7)) 8) as E.
  pose proof (Z.mod_pos_bound (wrap64 (x + 7)) 8 ltac:(lia)) as Hm.
  split; [lia|]. apply Z.mod_mul. lia.
Qed.

(** The entries read behind a dentry lie between [p] and [end_], and each
    takes a multiple of 8 bytes. *)
Lemma read_extra_stream_entries_bounds buf end_ : forall n p i streams p',
  read_extra_stream_entries buf p end_ i n = Ok (streams, p') ->
  length streams = n /\ p <= p' /\ (p' - p) mod 8 = 0 /\
  (n <> 0%nat -> p' <= end_).
Proof.
  induction n as [|n IH]; intros p i streams p'; cbn [read_extra_stream_entries].
  - intros [= <- <-]. rewrite Z.sub_diag. repeat split; first [lia|reflexivity].
  - destruct (end_ - p <? WIM_EXTRA_STREAM_ENTRY_DISK_SIZE) eqn:E1;
      [discriminate|].
    cbv zeta. set (len := align8 (get_le buf p 8)).
    destruct ((len <? WIM_EXTRA_STREAM_ENTRY_DISK_SIZE) || (len >? end_ - p))
      eqn:E2; [discriminate|].
    apply orb_false_iff in E2 as [E2 E3].
    apply Z.ltb_ge in E1, E2. rewrite Z.gtb_ltb in E3. apply Z.ltb_ge in E3.
    match goal with
    | |- match ?nm with Ok _ => _ | Err _ => _ end = _ -> _ =>
        destruct nm as [name|]; [|discriminate]
    end.
    destruct (read_extra_stream_entries buf (p + len) end_ (i + 1) n)
      as [[ss q]|] eqn:Er; [|discriminate].
    intros [= <- <-].
    destruct (IH _ _ _ _ Er) as (Hl & Hp & H8 & Hend).
    destruct (align8_range (get_le buf p 8)) as [_ Hlen8]. fold len in Hlen8.
    unfold WIM_EXTRA_STREAM_ENTRY_DISK_SIZE in *.
    split; [cbn [length]; lia|]. split; [lia|]. split.
    + replace (q - p) with ((q - (p + len)) + len) by lia.
      apply aligned_add; assumption.
    + intros _. destruct n as [|n'].
      * cbn [read_extra_stream_entries] in Er. injection Er as <- <-. lia.
      * apply Hend. discriminate.
Qed.

Lemma length_assign_unencrypted_loop rp : forall streams i frp fud z,
  length (fst (fst (assign_unencrypted_loop rp streams i frp fud z)))
  = length streams.
Proof.
  induction streams as [|strm rest IH]; intros i frp fud z; [reflexivity|].
  cbn [assign_unencrypted_loop].
  repeat match goal with
         | |- context [if ?c then _ else _] => destruct c
         end;
    match goal with
    | |- context [assign_unencrypted_loop rp rest ?a ?b ?c ?d] =>
        specialize (IH a b c d);
        destruct (assign_unencrypted_loop rp rest a b c d) as [[l f] o]
    end; cbn [fst length] in *; rewrite IH; reflexivity.
Qed.

(** The assignment of the stream types keeps the streams in place. *)
Lemma length_assign_stream_types inode :
  length (i_streams (assign_stream_types inode)) = length (i_streams inode).
Proof.
  unfold assign_stream_types.
  destruct (has_attribute inode FILE_ATTRIBUTE_ENCRYPTED);
    cbn [set_streams i_streams].
  - induction (i_streams inode) as [|s l IHl]; [reflexivity|].
    cbn [assign_stream_types_encrypted].
    destruct (_ && _); cbn [length]; [reflexivity|]. rewrite IHl. reflexivity.
  - unfold assign_stream_types_unencrypted.
    pose proof (length_assign_unencrypted_loop
                  (has_attribute inode FILE_ATTRIBUTE_REPARSE_POINT)
                  (i_streams inode) 0 false false None) as H.
    destruct (assign_unencrypted_loop _ _ _ _ _ _) as [[l f] o].
    cbn [fst] in H.
    destruct o as [k|]; [|exact H].
    destruct (negb f); [|exact H].
    rewrite length_alter. exact H.
Qed.

Lemma read_extra_stream_entries_err buf end_ e : forall n p i,
  read_extra_stream_entries buf p end_ i n = Err e ->
  e = WIMLIB_ERR_INVALID_METADATA_RESOURCE.
Proof.
  induction n as [|n IH]; intros p i; cbn [read_extra_stream_entries];
    [discriminate|].
  cbv zeta.
  destruct (end_ - p <? WIM_EXTRA_STREAM_ENTRY_DISK_SIZE);
    [intros [= <-]; reflexivity|].
  destruct (_ || _); [intros [= <-]; reflexivity|].
  match goal with
  | |- match ?nm with Ok _ => _ | Err _ => _ end = _ -> _ =>
      assert (Hn : forall e', nm = Err e' ->
                              e' = WIMLIB_ERR_INVALID_METADATA_RESOURCE);
      [|destruct nm as [name|e'] eqn:En]
  end.
  { intros e'. repeat (match goal with
                       | |- (if ?c then _ else _) = _ -> _ => destruct c
                       end); intros [= <-] || discriminate; reflexivity. }
  - destruct (read_extra_stream_entries _ _ _ _ n) as [[ss q]|e''] eqn:Er;
      [discriminate|]. intros [= <-]. eapply IH. exact Er.
  - intros [= <-]. apply Hn. reflexivity.
Qed.

(** X8 (property): a dentry that [read_dentry] returns lies inside the
    buffer and moves the offset forward.  The offset of the next dentry is
    at least 104 bytes further, at most the length of the buffer, and a
    multiple of 8 bytes away; the byte counts of both names are even and
    the names have that many bytes; the inode has one stream more than
    the dentry announces extra stream entries, at most 65536.  At the end
    of a directory the 8 bytes of the length field lie inside the
    buffer. *)
Theorem read_dentry_in_bounds (buf : list byte) (offset : Z) :
  0 <= offset ->
  match read_dentry buf offset with
  | Ok (Some (dentry, next)) =>
      offset + 104 <= next <= Z.of_nat (length buf) /\
      (next - offset) mod 8 = 0 /\
      Z.even (file_name_nbytes dentry) = true /\
      Z.even (short_name_nbytes dentry) = true /\
      Z.of_nat (length (file_name dentry)) = file_name_nbytes dentry /\
      Z.of_nat (length (short_name dentry)) = short_name_nbytes dentry /\
      1 <= Z.of_nat (length (i_streams (d_inode dentry))) <= 65536
  | Ok None => offset + 8 <= Z.of_nat (length buf)
  | Err e => e = WIMLIB_ERR_INVALID_METADATA_RESOURCE
  end.
Proof.
  intros Ho. unfold read_dentry. cbv zeta.
  set (buf_len := Z.of_nat (length buf)).
  assert (Hwrap : forall x, 0 <= x < 2 ^ 64 ->
            (wrap64 (offset + x) >? buf_len) || (wrap64 (offset + x) <? offset)
              = false ->
            offset + x <= buf_len).
  { intros x Hx H. apply orb_false_iff in H as [H1 H2].
    rewrite Z.gtb_ltb in H1. apply Z.ltb_ge in H1, H2.
    unfold wrap64 in *.
    pose proof (Z.mod_pos_bound (offset + x) (2 ^ 64) ltac:(lia)) as Hm.
    destruct (Z_lt_le_dec (offset + x) (2 ^ 64)) as [Hs|Hb].
    - rewrite Z.mod_small in H1 by lia. exact H1.
    - exfalso.
      assert (Hoff : offset < 2 ^ 64) by lia.
      assert (E : (offset + x) mod 2 ^ 64 = offset + x - 2 ^ 64).
      { symmetry. apply Z.mod_unique with (q := 1); lia. }
      lia. }
  destruct ((wrap64 (offset + 8) >? buf_len) || (wrap64 (offset + 8) <? offset))
    eqn:E1; [reflexivity|].
  pose proof (Hwrap 8 ltac:(lia) E1) as H8.
  set (len := align8 (get_le buf offset 8)).
  destruct (align8_range (get_le buf offset 8)) as [Hlr Hl8]. fold len in Hlr, Hl8.
  destruct (Z.leb_spec len 8) as [Hle|Hgt]; [exact H8|].
  destruct (Z.ltb_spec len WIM_DENTRY_DISK_SIZE) as [Hlt|Hge]; [reflexivity|].
  destruct ((wrap64 (offset + len) >? buf_len) || (wrap64 (offset + len) <? offset))
    eqn:E2; [reflexivity|].
  pose proof (Hwrap len Hlr E2) as Hend.
  set (sn := get_le buf (offset + 98) 2).
  set (fn := get_le buf (offset + 100) 2).
  destruct (Z.eqb_spec (Z.lor (Z.land sn 1) (Z.land fn 1)) 0) as [Eodd|Eodd];
    cbn [negb]; [|reflexivity].
  apply Z.lor_eq_0_iff in Eodd as [Esn Efn].
  destruct (Z.ltb_spec len (dentry_min_len_with_names fn sn)) as [Hsmall|Hfit];
    [reflexivity|].
  match goal with
  | |- match match ?s with Ok _ => _ | Err _ => _ end with _ => _ end =>
      destruct s as [[inode entries_size]|e] eqn:Es
  end.
  2:{ unfold setup_inode_streams in Es.
      destruct (read_extra_stream_entries _ _ _ _ _) as [[ss q]|e'] eqn:Er;
        [discriminate|].
      injection Es as <-. eapply read_extra_stream_entries_err. exact Er. }
  pose proof (get_le_range buf (offset + 98) 2) as Hsn. fold sn in Hsn.
  pose proof (get_le_range buf (offset + 100) 2) as Hfn. fold fn in Hfn.
  pose proof (get_le_range buf (offset + 96) 2) as Hnum.
  change (256 ^ Z.of_nat 2) with (2 ^ 16) in *.
  assert (Hmin : dentry_min_len_with_names fn sn =
                 102 + (if negb (fn =? 0) then fn + 2 else 0)
                     + (if negb (sn =? 0) then sn + 2 else 0)).
  { apply min_len_u16; assumption. }
  unfold WIM_DENTRY_DISK_SIZE in *.
  assert (Heven : forall z, Z.land z 1 = 0 -> Z.even z = true).
  { intros z Hz. change 1 with (Z.ones 1) in Hz.
    rewrite Z.land_ones in Hz by lia. change (2 ^ 1) with 2 in Hz.
    rewrite Zmod_even in Hz. destruct (Z.even z); [reflexivity|discriminate]. }
  unfold setup_inode_streams in Es.
  destruct (read_extra_stream_entries buf (offset + len) buf_len 1
              (Z.to_nat (get_le buf (offset + 96) 2))) as [[ss q]|] eqn:Er;
    [|discriminate].
  injection Es as <- <-.
  destruct (read_extra_stream_entries_bounds _ _ _ _ _ _ _ Er)
    as (Hss & Hq & Hq8 & Hqe).
  cbn [file_name file_name_nbytes short_name short_name_nbytes d_inode].
  assert (Hnext : offset + len + (q - (offset + len)) <= buf_len).
  { destruct (Z.to_nat (get_le buf (offset + 96) 2)) as [|k] eqn:Ek.
    - cbn [read_extra_stream_entries] in Er. injection Er as <- <-. lia.
    - specialize (Hqe ltac:(discriminate)). lia. }
  assert (Hlen104 : 104 <= len).
  { pose proof (Z_div_mod_eq_full len 8). lia. }
  split; [lia|]. split.
  { replace (offset + len + (q - (offset + len)) - offset)
      with (len + (q - (offset + len))) by lia.
    apply aligned_add; assumption. }
  split; [apply Heven; exact Efn|]. split; [apply Heven; exact Esn|].
  assert (Hfield : forall p n, 0 <= p -> 0 <= n -> p + n <= buf_len ->
            Z.of_nat (length (field buf p (Z.to_nat n))) = n).
  { intros p n Hp Hn Hpn. unfold field.
    rewrite length_take, length_drop. unfold buf_len in Hpn. lia. }
  split.
  { destruct (Z.eqb_spec fn 0) as [->|Hf]; cbn [negb]; [reflexivity|].
    apply Hfield; try lia. cbn [negb] in Hmin.
    destruct (negb (sn =? 0)); lia. }
  split.
  { destruct (Z.eqb_spec sn 0) as [->|Hs]; cbn [negb]; [reflexivity|].
    cbn [negb] in Hmin.
    destruct (Z.eqb_spec fn 0) as [Ef|Ef]; cbn [negb] in Hmin |- *;
      apply Hfield; lia. }
  rewrite length_assign_stream_types. cbn [set_streams i_streams length].
  lia.
Qed.



(** The root of an image without files, followed by the end of its
    directory. *)
Definition sample_root_bytes : list byte :=
  write_dentry
    {| d_inode := sample_inode FILE_ATTRIBUTE_DIRECTORY [];
       file_name := []; file_name_nbytes := 0;
       short_name := []; short_name_nbytes := 0;
       subdir_offset := 104 |} 0
  ++ le_encode 8 0.

Example sample_root_bytes_read :
  (exists dentry, read_dentry sample_root_bytes 0 = Ok (Some (dentry, 104))) /\
  read_dentry sample_root_bytes 104 = Ok None /\
  read_dentry sample_root_bytes 112
    = Err WIMLIB_ERR_INVALID_METADATA_RESOURCE.
Proof. vm_compute. split; [eexists; reflexivity|split; reflexivity]. Qed.

Lemma read_dentry_in_bounds_witness :
  0 <= 0 /\
  match read_dentry sample_root_bytes 0 with
  | Ok (Some (dentry, next)) =>
      0 + 104 <= next <= Z.of_nat (length sample_root_bytes) /\
      (next - 0) mod 8 = 0 /\
      Z.even (file_name_nbytes dentry) = true /\
      Z.even (short_name_nbytes dentry) = true /\
      Z.of_nat (length (file_name dentry)) = file_name_nbytes dentry /\
      Z.of_nat (length (short_name dentry)) = short_name_nbytes dentry /\
      1 <= Z.of_nat (length (i_streams (d_inode dentry))) <= 65536
  | Ok None => 0 + 8 <= Z.of_nat (length sample_root_bytes)
  | Err e => e = WIMLIB_ERR_INVALID_METADATA_RESOURCE
  end.
Proof.
  assert (H0 : 0 <= 0) by lia.
  split; [exact H0|]. apply (read_dentry_in_bounds sample_root_bytes 0 H0).
Defined.

(** ** dentry.c: [read_dentry_tree] returns *)

(** What the walk over a directory needs of [read_dentry]: the next
    offset lies further on and inside the buffer, and the offset of the
    children is a [u64]. *)
Lemma read_dentry_progress buf offset dentry next :
  0 <= offset ->
  read_dentry buf offset = Ok (Some (dentry, next)) ->
  offset + 8 <= Z.of_nat (length buf) /\ offset < next /\
  0 <= subdir_offset dentry.
Proof.
  intros Ho. unfold read_dentry. cbv zeta.
  set (buf_len := Z.of_nat (length buf)).
  destruct ((wrap64 (offset + 8) >? buf_len) || (wrap64 (offset + 8) <? offset))
    eqn:E1; [discriminate|].
  assert (H8 : offset + 8 <= buf_len).
  { apply orb_false_iff in E1 as [H1 H2].
    rewrite Z.gtb_ltb in H1. apply Z.ltb_ge in H1, H2. unfold wrap64 in *.
    pose proof (Z.mod_pos_bound (offset + 8) (2 ^ 64) ltac:(lia)) as Hm.
    destruct (Z_lt_le_dec (offset + 8) (2 ^ 64)) as [Hs|Hb].
    - rewrite Z.mod_small in H1 by lia. exact H1.
    - exfalso.
      assert (E : (offset + 8) mod 2 ^ 64 = offset + 8 - 2 ^ 64).
      { symmetry. apply Z.mod_unique with (q := 1); lia. }
      lia. }
  set (len := align8 (get_le buf offset 8)).
  destruct (align8_range (get_le buf offset 8)) as [Hlr Hl8]. fold len in Hlr, Hl8.
  destruct (Z.leb_spec len 8) as [Hle|Hgt]; [discriminate|].
  destruct (len <? WIM_DENTRY_DISK_SIZE); [discriminate|].
  destruct ((wrap64 (offset + len) >? buf_len) || (wrap64 (offset + len) <? offset));
    [discriminate|].
  set (sn := get_le buf (offset + 98) 2).
  set (fn := get_le buf (offset + 100) 2).
  destruct (negb (Z.lor (Z.land sn 1) (Z.land fn 1) =? 0)); [discriminate|].
  destruct (len <? dentry_min_len_with_names fn sn); [discriminate|].
  match goal with
  | |- match ?s with Ok _ => _ | Err _ => _ end = _ -> _ =>
      destruct s as [[inode entries_size]|e] eqn:Es; [|discriminate]
  end.
  intros [= <- <-]. cbn [subdir_offset].
  unfold setup_inode_streams in Es.
  destruct (read_extra_stream_entries _ _ _ _ _) as [[ss q]|] eqn:Er;
    [|discriminate].
  injection Es as _ <-.
  destruct (read_extra_stream_entries_bounds _ _ _ _ _ _ _ Er)
    as (_ & Hq & _ & _).
  pose proof (get_le_range buf (offset + 16) 8) as Hr.
  split; [exact H8|]. split; lia.
Qed.

Lemma read_dentry_past_end buf offset :
  Z.of_nat (length buf) < offset + 8 -> 0 <= offset ->
  read_dentry buf offset = Err WIMLIB_ERR_INVALID_METADATA_RESOURCE.
Proof.
  intros Hend Ho. unfold read_dentry. cbv zeta.
  destruct ((wrap64 (offset + 8) >? Z.of_nat (length buf))
            || (wrap64 (offset + 8) <? offset)) eqn:E1; [reflexivity|].
  exfalso. apply orb_false_iff in E1 as [H1 H2].
  rewrite Z.gtb_ltb in H1. apply Z.ltb_ge in H1, H2. unfold wrap64 in *.
  pose proof (Z.mod_pos_bound (offset + 8) (2 ^ 64) ltac:(lia)) as Hm.
  destruct (Z_lt_le_dec (offset + 8) (2 ^ 64)) as [Hs|Hb].
  - rewrite Z.mod_small in H1 by lia. lia.
  - assert (E : (offset + 8) mod 2 ^ 64 = offset + 8 - 2 ^ 64).
    { symmetry. apply Z.mod_unique with (q := 1); lia. }
    lia.
Qed.

(** The offsets the cycle check compares with: those of the directories
    above, without the root. *)
Definition chain_offsets (ancestors : list wim_dentry) : list Z :=
  map subdir_offset (removelast ancestors).

Lemma cyclic_ancestor_spec ancestors cur_offset :
  cyclic_ancestor ancestors cur_offset = true <->
  cur_offset ∈ chain_offsets ancestors.
Proof.
  unfold chain_offsets.
  induction ancestors as [|d up IH]; cbn [cyclic_ancestor removelast map].
  - split; [discriminate|]. intros H. apply elem_of_nil in H. contradiction.
  - destruct up as [|d' up'].
    + cbn [map]. split; [discriminate|].
      intros H. apply elem_of_nil in H. contradiction.
    + cbn [map]. rewrite elem_of_cons.
      destruct (Z.eqb_spec (subdir_offset d) cur_offset) as [E|E].
      * split; [intros _; left; symmetry; exact E|reflexivity].
      * rewrite IH. split; [intros H; right; exact H|].
        intros [H|H]; [congruence|exact H].
Qed.

Lemma chain_offsets_cons d ancestors :
  ancestors <> [] ->
  chain_offsets (d :: ancestors) = subdir_offset d :: chain_offsets ancestors.
Proof. unfold chain_offsets. destruct ancestors; [congruence|reflexivity]. Qed.

Lemma length_chain_offsets ancestors :
  length (chain_offsets ancestors) = (length ancestors - 1)%nat.
Proof.
  unfold chain_offsets. rewrite length_map.
  induction ancestors as [|d [|d' up] IH]; [reflexivity|reflexivity|].
  change (removelast (d :: d' :: up)) with (d :: removelast (d' :: up)).
  cbn [length] in *. lia.
Qed.

(** Pairwise different offsets below [bound] are at most [bound] many. *)
Lemma distinct_offsets_bounded (l : list Z) (bound : nat) :
  NoDup l -> (forall o, o ∈ l -> 0 <= o < Z.of_nat bound) ->
  (length l <= bound)%nat.
Proof.
  intros Hnd Hb.
  assert (Hnd' : NoDup (map Z.to_nat l)).
  { apply NoDup_fmap_2_strong; [|exact Hnd].
    intros x y Hx Hy E. pose proof (Hb x Hx). pose proof (Hb y Hy). lia. }
  assert (Hincl : forall n, n ∈ map Z.to_nat l -> n ∈ seq 0 bound).
  { intros n Hn. apply list_elem_of_fmap in Hn as (o & -> & Ho).
    specialize (Hb o Ho). apply elem_of_seq. lia. }
  pose proof (submseteq_length _ _ (NoDup_submseteq _ _ Hnd' Hincl)) as H.
  rewrite length_map, length_seq in H. exact H.
Qed.

Section Termination.

Variable buf : list byte.

Abbreviation B := (length buf).

(** What holds of the directory being read and the directories above. *)
Definition chain_ok (ancestors : list wim_dentry) (dir : wim_dentry) : Prop :=
  NoDup (chain_offsets (dir :: ancestors)) /\
  (forall o, o ∈ chain_offsets ancestors -> 0 <= o < Z.of_nat B) /\
  0 <= subdir_offset dir.

(** Fuel for a directory with [k] levels left below it. *)
Definition fuel_for (k : nat) : nat := (1 + k * (B + 2))%nat.

(** The loop over a directory, given that reading a subdirectory
    returns. *)
Lemma read_children_loop ancestors dir (below : nat) :
  chain_ok ancestors dir ->
  (forall child fuel,
     chain_ok (dir :: ancestors) child -> (below <= fuel)%nat ->
     is_Some (read_children fuel buf (dir :: ancestors) child []
                            (subdir_offset child))) ->
  forall (j : nat) cur_offset children fuel,
    subdir_offset dir <= cur_offset ->
    Z.of_nat B - cur_offset <= Z.of_nat j ->
    (below + j + 1 <= fuel)%nat ->
    is_Some (read_children fuel buf ancestors dir children cur_offset).
Proof.
  intros (Hnd & Hanc & Hdir) Hrec.
  induction j as [|j IH]; intros cur children fuel Hcur Hj Hfuel.
  - destruct fuel as [|fuel]; [lia|]. cbn [read_children].
    rewrite read_dentry_past_end by lia. eexists. reflexivity.
  - destruct fuel as [|fuel]; [lia|]. cbn [read_children].
    destruct (read_dentry buf cur) as [[[child next]|]|e] eqn:Er;
      [|eexists; reflexivity|eexists; reflexivity].
    assert (Hc0 : 0 <= cur) by lia.
    destruct (read_dentry_progress _ _ _ _ Hc0 Er) as (Hin & Hnext & Hsub).
    assert (Hgo : forall cs, is_Some (read_children fuel buf ancestors dir cs next)).
    { intros cs. apply IH; lia. }
    destruct (negb (dentry_has_long_name child)); [apply Hgo|].
    destruct (dentry_is_dot_or_dotdot child); [apply Hgo|].
    destruct (bool_decide _); [apply Hgo|].
    destruct (negb (subdir_offset child =? 0) && dentry_is_directory child);
      [|apply Hgo].
    destruct (cyclic_ancestor (dir :: ancestors) (subdir_offset child)) eqn:Ec;
      [eexists; reflexivity|].
    assert (Hchild : chain_ok (dir :: ancestors) child).
    { split; [|split; [|exact Hsub]].
      - rewrite chain_offsets_cons by discriminate. constructor; [|exact Hnd].
        intros Hin'. apply cyclic_ancestor_spec in Hin'. congruence.
      - intros o Ho. destruct ancestors as [|a up].
        + apply elem_of_nil in Ho. contradiction.
        + rewrite chain_offsets_cons in Ho by discriminate.
          apply elem_of_cons in Ho as [->|Ho]; [lia|apply Hanc; exact Ho]. }
    assert (Hf' : (below <= fuel)%nat) by lia.
    destruct (Hrec child fuel Hchild Hf') as [r Hr]. rewrite Hr.
    destruct r as [grandchildren|e]; [apply Hgo|eexists; reflexivity].
Qed.

Lemma read_children_returns (k : nat) : forall ancestors dir children fuel,
  chain_ok ancestors dir ->
  (B + 1 - length ancestors <= k)%nat ->
  (fuel_for (S k) <= fuel)%nat ->
  is_Some (read_children fuel buf ancestors dir children (subdir_offset dir)).
Proof.
  induction k as [|k IH]; intros ancestors dir children fuel Hok Hk Hfuel.
  - (* no offset is left for a directory below this one *)
    apply (read_children_loop ancestors dir 0 Hok) with (j := B).
    + intros child fuel' (Hnd & Hanc & _) _. exfalso.
      rewrite chain_offsets_cons in Hnd by discriminate.
      apply NoDup_cons_1_2 in Hnd.
      pose proof (distinct_offsets_bounded _ B Hnd Hanc) as Hlen.
      rewrite length_chain_offsets in Hlen. cbn [length] in Hlen. lia.
    + lia.
    + destruct Hok as (_ & _ & H). lia.
    + unfold fuel_for in Hfuel. lia.
  - apply (read_children_loop ancestors dir (fuel_for (S k)) Hok) with (j := B).
    + intros child fuel' Hchild Hf. apply IH; [exact Hchild| |exact Hf].
      cbn [length]. lia.
    + lia.
    + destruct Hok as (_ & _ & H). lia.
    + unfold fuel_for in *. lia.
Qed.

End Termination.

Lemma read_children_more_fuel buf : forall fuel ancestors dir children cur r,
  read_children fuel buf ancestors dir children cur = Some r ->
  forall fuel', (fuel <= fuel')%nat ->
  read_children fuel' buf ancestors dir children cur = Some r.
Proof.
  induction fuel as [|fuel IH]; intros ancestors dir children cur r H fuel' Hf;
    [discriminate|].
  destruct fuel' as [|fuel']; [lia|].
  cbn [read_children] in H |- *.
  destruct (read_dentry buf cur) as [[[child next]|]|e]; try exact H.
  assert (Hgo : forall cs r, read_children fuel buf ancestors dir cs next = Some r ->
                read_children fuel' buf ancestors dir cs next = Some r).
  { intros cs r' H'. apply (IH _ _ _ _ _ H'). lia. }
  destruct (negb (dentry_has_long_name child)); [apply Hgo; exact H|].
  destruct (dentry_is_dot_or_dotdot child); [apply Hgo; exact H|].
  destruct (bool_decide _); [apply Hgo; exact H|].
  destruct (negb (subdir_offset child =? 0) && dentry_is_directory child);
    [|apply Hgo; exact H].
  destruct (cyclic_ancestor _ _); [exact H|].
  destruct (read_children fuel buf (dir :: ancestors) child [] (subdir_offset child))
    as [r1|] eqn:E1; [|discriminate].
  rewrite (IH _ _ _ _ _ E1 fuel' ltac:(lia)).
  destruct r1 as [grandchildren|e]; [apply Hgo; exact H|exact H].
Qed.

(** X9 (property): [read_dentry_tree] returns on every buffer, with a
    tree or with an error: the fuel [(n + 2) * (n + 2) + 1] is enough for
    a buffer of [n] bytes, and more fuel gives the same result.  The
    recursion cannot go on for ever, as the directories on the way down
    from the root have pairwise different offsets inside the buffer. *)
Theorem read_dentry_tree_returns (buf : list byte) (root_offset : Z) :
  exists r,
    forall fuel,
      ((length buf + 2) * (length buf + 2) + 1 <= fuel)%nat ->
      read_dentry_tree fuel buf root_offset = Some r.
Proof.
  set (n := length buf).
  assert (H : exists r, read_dentry_tree (fuel_for buf (S (S n))) buf root_offset
                        = Some r /\
              forall fuel, (fuel_for buf (S (S n)) <= fuel)%nat ->
                           read_dentry_tree fuel buf root_offset = Some r).
  { unfold read_dentry_tree.
    destruct (read_dentry buf root_offset) as [[[root next]|]|e] eqn:Er;
      [|eexists; split; [reflexivity|intros; reflexivity]
       |eexists; split; [reflexivity|intros; reflexivity]].
    set (root' := if dentry_has_long_name root || dentry_has_short_name root
                  then clear_names root else root).
    destruct (negb (dentry_is_directory root'));
      [eexists; split; [reflexivity|intros; reflexivity]|].
    destruct (negb (subdir_offset root' =? 0));
      [|eexists; split; [reflexivity|intros; reflexivity]].
    unfold read_dentry_tree_recursive. cbn [cyclic_ancestor].
    assert (Hsub : 0 <= subdir_offset root').
    { assert (E : subdir_offset root' = subdir_offset root)
        by (unfold root'; destruct (_ || _); reflexivity).
      rewrite E. clear -Er. unfold read_dentry in Er. cbv zeta in Er.
      repeat match type of Er with
             | (if ?c then _ else _) = _ => destruct c; try discriminate
             end.
      match type of Er with
      | match ?s with Ok _ => _ | Err _ => _ end = _ =>
          destruct s as [[inode sz]|]; [|discriminate]
      end.
      injection Er as <- _. cbn [subdir_offset].
      apply (get_le_range buf (root_offset + 16) 8). }
    assert (Hok : chain_ok buf [] root').
    { split; [constructor|]. split; [|exact Hsub].
      intros o Ho. apply elem_of_nil in Ho. contradiction. }
    destruct (read_children_returns buf (S n) [] root' [] _ Hok
                ltac:(cbn [length]; lia) (Nat.le_refl _)) as [r Hr].
    exists (match r with
            | Ok children => Ok (Some (Node root' children))
            | Err e => Err e
            end).
    split.
    - rewrite Hr. destruct r; reflexivity.
    - intros fuel Hf. rewrite (read_children_more_fuel _ _ _ _ _ _ _ Hr fuel Hf).
      destruct r; reflexivity. }
  destruct H as (r & _ & Hr). exists r. intros fuel Hf. apply Hr.
  unfold fuel_for. fold n in Hf. fold n. lia.
Qed.

(** A root at offset 0 whose directory holds, at offset 112, a directory
    [a]; the directory of [a] is at offset 112 as well, so that [a] holds
    itself. *)
Definition cyclic_bytes : list byte :=
  let directory name offset :=
    {| d_inode := sample_inode FILE_ATTRIBUTE_DIRECTORY [];
       file_name := name; file_name_nbytes := Z.of_nat (length name);
       short_name := []; short_name_nbytes := 0;
       subdir_offset := offset |} in
  write_dentry (directory [] 112) 0 ++ le_encode 8 0
  ++ write_dentry (directory [x61; x00] 112) 0 ++ le_encode 8 0.

Example cyclic_bytes_rejected :
  read_dentry_tree 10 cyclic_bytes 0
  = Some (Err WIMLIB_ERR_INVALID_METADATA_RESOURCE).
Proof. vm_compute. reflexivity. Qed.

(** ** xml_windows.c: the language table and the header of kernel32.dll *)

Module XmlWindowsInfoFacts.
Import Bytes BytesFacts TableFacts FieldFacts XmlWindowsInfo.

(** *** [language_id_to_name] *)

Lemma language_ids_increasing :
  increasing (map fst language_id_map) = true.
Proof. vm_compute. reflexivity. Qed.

Lemma length_language_id_map : length language_id_map = 453%nat.
Proof. reflexivity. Qed.

Lemma language_id_lookup (i : nat) :
  (i < 453)%nat ->
  exists id offset, language_id_map !! i = Some (id, offset) /\
                    map fst language_id_map !!! i = id.
Proof.
  intros Hi.
  destruct (language_id_map !! i) as [[id offset]|] eqn:E.
  - exists id, offset. split; [reflexivity|].
    apply list_lookup_total_correct. rewrite list_lookup_fmap, E. reflexivity.
  - apply lookup_ge_None in E. rewrite length_language_id_map in E. lia.
Qed.

Lemma language_ids_ordered (i j : nat) id_i id_j off_i off_j :
  language_id_map !! i = Some (id_i, off_i) ->
  language_id_map !! j = Some (id_j, off_j) ->
  (i < j)%nat -> id_i < id_j.
Proof.
  intros Ei Ej Hij.
  pose proof (lookup_lt_Some _ _ _ Ej) as Hj.
  pose proof (increasing_lookup _ language_ids_increasing i j) as H.
  rewrite length_map in H. specialize (H ltac:(lia)).
  rewrite (list_lookup_total_correct (map fst language_id_map) i id_i) in H
    by (rewrite list_lookup_fmap, Ei; reflexivity).
  rewrite (list_lookup_total_correct (map fst language_id_map) j id_j) in H
    by (rewrite list_lookup_fmap, Ej; reflexivity).
  exact H.
Qed.

(** What the search returns: the offset stored with [id], or [NULL] when
    the table does not hold [id]. *)
Definition search_result (id : Z) (res : option Z) : Prop :=
  match res with
  | Some offset => (id, offset) ∈ language_id_map
  | None => forall offset, (id, offset) ∉ language_id_map
  end.

Lemma language_id_to_name_loop_spec id : forall fuel (l r : nat),
  (l <= r < 453)%nat -> (r - l < fuel)%nat ->
  (forall (i : nat) id_i off_i,
     language_id_map !! i = Some (id_i, off_i) ->
     (i < l \/ r < i)%nat -> id_i <> id) ->
  exists res,
    language_id_to_name_loop fuel id (Z.of_nat l) (Z.of_nat r) = Some res /\
    search_result id res.
Proof.
  induction fuel as [|fuel IH]; intros l r Hlr Hfuel Hout; [lia|].
  cbn [language_id_to_name_loop]. cbv zeta.
  assert (Ew : forall z, - 2 ^ 31 <= z < 2 ^ 31 -> wrap32s z = z).
  { intros z Hz. unfold wrap32s. rewrite Z.mod_small by lia. lia. }
  rewrite (Ew (Z.of_nat l + Z.of_nat r)) by lia.
  rewrite Z.quot_div_nonneg by lia.
  set (m := ((Z.of_nat l + Z.of_nat r) / 2)).
  assert (Hm : Z.of_nat l <= m <= Z.of_nat r).
  { unfold m. split.
    - apply Z.div_le_lower_bound; lia.
    - apply Z.div_le_upper_bound; lia. }
  destruct (Z.ltb_spec m 0) as [Hneg|_]; [lia|].
  destruct (language_id_lookup (Z.to_nat m) ltac:(lia))
    as (mid & off & Em & _).
  rewrite Em.
  assert (Hnone : forall k : nat,
            (forall (i : nat) id_i off_i,
               language_id_map !! i = Some (id_i, off_i) -> id_i <> id) ->
            search_result id None).
  { intros _ H offset Hin. apply list_elem_of_lookup in Hin as [i Hi].
    exact (H i id offset Hi eq_refl). }
  destruct (Z.ltb_spec id mid) as [Hlt|Hge].
  - (* the entries from [m] on are above [id] *)
    assert (Hout' : forall (i : nat) id_i off_i,
              language_id_map !! i = Some (id_i, off_i) ->
              (i < l \/ Z.to_nat m - 1 < i \/ Z.to_nat m = 0)%nat -> id_i <> id).
    { intros i id_i off_i Ei Hi.
      destruct (decide (i < l)%nat) as [Hil|Hil]; [eapply Hout; eauto|].
      destruct (decide (i = Z.to_nat m)) as [->|Hne].
      - rewrite Em in Ei. injection Ei as <- <-. lia.
      - assert (Hgt : (Z.to_nat m < i)%nat) by lia.
        pose proof (language_ids_ordered _ _ _ _ _ _ Em Ei Hgt). lia. }
    rewrite (Ew (m - 1)) by lia.
    destruct (Z.leb_spec (Z.of_nat l) (m - 1)) as [Hle|Hgt].
    + replace (m - 1) with (Z.of_nat (Z.to_nat m - 1)) by lia.
      apply IH; [lia|lia|].
      intros i id_i off_i Ei Hi. eapply Hout'; [exact Ei|lia].
    + eexists. split; [reflexivity|]. apply (Hnone 0%nat).
      intros i id_i off_i Ei. eapply Hout'; [exact Ei|lia].
  - destruct (Z.gtb_spec id mid) as [Hgt|Hle].
    + (* the entries up to [m] are below [id] *)
      assert (Hout' : forall (i : nat) id_i off_i,
                language_id_map !! i = Some (id_i, off_i) ->
                (i < Z.to_nat m + 1 \/ r < i)%nat -> id_i <> id).
      { intros i id_i off_i Ei Hi.
        destruct (decide (r < i)%nat) as [Hir|Hir]; [eapply Hout; eauto|].
        destruct (decide (i = Z.to_nat m)) as [->|Hne].
        - rewrite Em in Ei. injection Ei as <- <-. lia.
        - assert (Hlt' : (i < Z.to_nat m)%nat) by lia.
          pose proof (language_ids_ordered _ _ _ _ _ _ Ei Em Hlt'). lia. }
      rewrite (Ew (m + 1)) by lia.
      destruct (Z.leb_spec (m + 1) (Z.of_nat r)) as [Hle|Hgt'].
      * replace (m + 1) with (Z.of_nat (Z.to_nat m + 1)) by lia.
        apply IH; [lia|lia|exact Hout'].
      * eexists. split; [reflexivity|]. apply (Hnone 0%nat).
        intros i id_i off_i Ei. eapply Hout'; [exact Ei|lia].
    + eexists. split; [reflexivity|]. cbn [search_result].
      assert (mid = id) by lia. subst mid.
      eapply list_elem_of_lookup_2. exact Em.
Qed.

(** Every offset of the table points at a name of the list. *)
Definition offsets_point_at_names : bool :=
  forallb (fun entry : Z * Z =>
             match c_string_at language_names (snd entry) with
             | Some chars =>
                 bool_decide
                   (chars ∈ map String.list_byte_of_string language_name_list)
             | None => false
             end)
          language_id_map.

Lemma language_offsets_point_at_names : offsets_point_at_names = true.
Proof. vm_compute. reflexivity. Qed.

(** X10 (property): [language_id_to_name] is a binary search that is
    right for every ID, as [language_id_map] is in increasing order of
    the IDs.  It returns [NULL] exactly for the IDs that are not in the
    table; for an ID of the table it returns the pointer stored with it,
    and that pointer is the start of one of the names of
    [language_names], ended by a zero character inside the array. *)
Theorem language_id_to_name_finds (id : Z) :
  exists res,
    language_id_to_name id = Some res /\
    match res with
    | Some offset =>
        (id, offset) ∈ language_id_map /\
        exists name, name ∈ language_name_list /\
          c_string_at language_names offset
          = Some (String.list_byte_of_string name)
    | None => forall offset, (id, offset) ∉ language_id_map
    end.
Proof.
  unfold language_id_to_name. rewrite length_language_id_map.
  destruct (language_id_to_name_loop_spec id 453 0 452) as (res & E & Hres).
  { lia. }
  { lia. }
  { intros i id_i off_i Ei Hi.
    pose proof (lookup_lt_Some _ _ _ Ei) as Hlt.
    rewrite length_language_id_map in Hlt. lia. }
  exists res. split; [exact E|].
  destruct res as [offset|]; [|exact Hres].
  split; [exact Hres|]. cbn [search_result] in Hres.
  pose proof language_offsets_point_at_names as Hall.
  unfold offsets_point_at_names in Hall. rewrite forallb_forall in Hall.
  specialize (Hall (id, offset)). cbn [snd] in Hall.
  assert (Hin : In (id, offset) language_id_map)
    by (apply list_elem_of_In; exact Hres).
  specialize (Hall Hin).
  destruct (c_string_at language_names offset) as [chars|]; [|discriminate].
  apply bool_decide_eq_true in Hall.
  apply list_elem_of_fmap in Hall as (name & -> & Hname).
  exists name. split; [exact Hname|reflexivity].
Qed.

Example language_id_to_name_samples :
  language_id_to_name 0x0409 = Some (Some 964) /\
  c_string_at language_names 964
    = Some (String.list_byte_of_string "en-US"%string) /\
  language_id_to_name 0x007b = Some None /\
  c_string_at language_names 823 = Some [].
Proof. vm_compute. repeat split. Qed.

(** *** [set_info_from_kernel32] *)

(** X11 (property): [set_info_from_kernel32] reads nothing outside the
    contents of the file, whatever they are: each of its three loads lies
    inside the [size] bytes.  [WINDOWS/ARCH] is set only when the value
    at [0x3C] is a multiple of 4 with six bytes of the file behind it and
    the signature [PE\0\0] there, and only to one of the five
    architecture codes, the translation of the machine field. *)
Theorem set_info_from_kernel32_in_bounds (contents : list byte) :
  Z.of_nat (length contents) < 2 ^ 64 ->
  exists outcome,
    set_info_from_kernel32 contents = Some outcome /\
    match outcome with
    | SetArch arch =>
        let e_lfanew := get_le contents 0x3C 4 in
        e_lfanew mod 4 = 0 /\
        e_lfanew + 6 <= Z.of_nat (length contents) /\
        field contents e_lfanew 4 = [x50; x45; x00; x00] /\
        arch = pe_arch_to_windows_arch (get_le contents (e_lfanew + 4) 2) /\
        In arch [0; 5; 6; 9; 12]
    | WarnArch pe_arch =>
        pe_arch = get_le contents (get_le contents 0x3C 4 + 4) 2 /\
        pe_arch_to_windows_arch pe_arch = -1
    | WarnInvalid => True
    end.
Proof.
  intros Hsize. unfold set_info_from_kernel32. cbv zeta.
  set (size := Z.of_nat (length contents)) in *.
  destruct (Z.ltb_spec size 0x40) as [Hsmall|Hbig];
    [exists WarnInvalid; split; [reflexivity|exact I]|].
  assert (Hload : forall off (n : nat),
            0 <= off -> off + Z.of_nat n <= size ->
            load_le contents off n = Some (get_le contents off n)).
  { intros off n H0 H1. unfold load_le. fold size.
    destruct (Z.leb_spec 0 off); [|lia].
    destruct (Z.leb_spec (off + Z.of_nat n) size); [|lia]. reflexivity. }
  rewrite Hload by lia.
  set (e_lfanew := get_le contents 60 4).
  pose proof (get_le_range contents 60 4) as He. fold e_lfanew in He.
  destruct (Z.gtb_spec e_lfanew size) as [Hbeyond|Hin]; cbn [orb];
    [exists WarnInvalid; split; [reflexivity|exact I]|].
  unfold wrap64. rewrite Z.mod_small by lia.
  destruct (Z.ltb_spec (size - e_lfanew) 6) as [Hshort|Hroom]; cbn [orb];
    [exists WarnInvalid; split; [reflexivity|exact I]|].
  destruct (Z.eqb_spec (Z.land e_lfanew 3) 0) as [Hal|Hal]; cbn [negb];
    [|exists WarnInvalid; split; [reflexivity|exact I]].
  rewrite Hload by (change (Z.of_nat 4) with 4; lia).
  destruct (Z.eqb_spec (get_le contents e_lfanew 4) 0x00004550) as [Hsig|Hsig];
    cbn [negb]; [|exists WarnInvalid; split; [reflexivity|exact I]].
  rewrite Hload by (change (Z.of_nat 2) with 2; lia).
  set (pe_arch := get_le contents (e_lfanew + 4) 2).
  destruct (Z.geb_spec (pe_arch_to_windows_arch pe_arch) 0) as [Hok|Hbad].
  - exists (SetArch (pe_arch_to_windows_arch pe_arch)).
    split; [reflexivity|]. cbv zeta.
    change (get_le contents 60 4) with e_lfanew. fold pe_arch.
    split.
    { change 3 with (Z.ones 2) in Hal. rewrite Z.land_ones in Hal by lia.
      exact Hal. }
    split; [lia|]. split.
    { rewrite field_le_encode
        by (fold size; change (Z.of_nat 4) with 4; lia).
      rewrite Hsig. reflexivity. }
    split; [reflexivity|].
    unfold pe_arch_to_windows_arch in *.
    repeat match goal with
           | |- context [if ?c then _ else _] => destruct c
           end; first [cbn; tauto | exfalso; cbv in Hok; apply Hok; reflexivity].
  - exists (WarnArch pe_arch). split; [reflexivity|].
    split; [reflexivity|].
    unfold pe_arch_to_windows_arch in *.
    repeat match goal with
           | |- context [if ?c then _ else _] => destruct c
           end; first [reflexivity | exfalso; cbv in Hbad; discriminate].
Qed.

(** The first bytes of a file whose PE header is at [0x40] and names the
    machine [0x8664]. *)
Definition sample_kernel32 : list byte :=
  replicate 60 x00 ++ le_encode 4 0x40
  ++ [x50; x45; x00; x00] ++ le_encode 2 0x8664 ++ replicate 18 x00.

Example sample_kernel32_arch :
  set_info_from_kernel32 sample_kernel32 = Some (SetArch 9) /\
  set_info_from_kernel32 (take 68 sample_kernel32) = Some WarnInvalid.
Proof. vm_compute. split; reflexivity. Qed.

Lemma set_info_from_kernel32_in_bounds_witness :
  Z.of_nat (length sample_kernel32) < 2 ^ 64 /\
  exists outcome,
    set_info_from_kernel32 sample_kernel32 = Some outcome /\
    match outcome with
    | SetArch arch =>
        let e_lfanew := get_le sample_kernel32 0x3C 4 in
        e_lfanew mod 4 = 0 /\
        e_lfanew + 6 <= Z.of_nat (length sample_kernel32) /\
        field sample_kernel32 e_lfanew 4 = [x50; x45; x00; x00] /\
        arch = pe_arch_to_windows_arch
                 (get_le sample_kernel32 (e_lfanew + 4) 2) /\
        In arch [0; 5; 6; 9; 12]
    | WarnArch pe_arch =>
        pe_arch = get_le sample_kernel32
                    (get_le sample_kernel32 0x3C 4 + 4) 2 /\
        pe_arch_to_windows_arch pe_arch = -1
    | WarnInvalid => True
    end.
Proof.
  assert (H : Z.of_nat (length sample_kernel32) < 2 ^ 64)
    by (vm_compute; reflexivity).
  split; [exact H|].
  apply (set_info_from_kernel32_in_bounds sample_kernel32 H).
Defined.

End XmlWindowsInfoFacts.

End DentryReadFacts.

